(** * Shallow embedding of pkg/chunked/compressor/compressor.go

    The zstd:chunked encoder of containers/storage: the hole detector
    ([holesFinder]), the content-defined chunk reader
    ([rollingChecksumReader]), the stream orchestrator
    ([writeZstdChunkedStream]) and the pipe-backed writer
    ([zstdChunkedWriter]). *)

From Stdlib Require Import ZArith Lia List String Bool Init.Byte Strings.Byte Sorted.
Import ListNotations.
Open Scope Z_scope.

(** ** Go errors *)

(** The [error] values the code compares against or produces.  A nil
    [error] is [None : option goerr]. *)
Inductive goerr :=
| EOF                      (* io.EOF *)
| ErrUnexpectedEOF         (* io.ErrUnexpectedEOF *)
| ErrClosedPipe            (* io.ErrClosedPipe *)
| ErrOther (msg : string). (* any other error value *)

Definition goerr_eqb (a b : goerr) : bool :=
  match a, b with
  | EOF, EOF | ErrUnexpectedEOF, ErrUnexpectedEOF
  | ErrClosedPipe, ErrClosedPipe => true
  | ErrOther m, ErrOther n => String.eqb m n
  | _, _ => false
  end.

Definition is_EOF (e : option goerr) : bool :=
  match e with Some EOF => true | _ => false end.

(** ** The payload byte source

    [bufio.NewReader(tr)] over the tar reader positioned at an entry's
    payload: the remaining bytes and the error the source reports once
    they are exhausted ([EOF] for a well-formed entry).  The tar reader's
    errors are sticky, so [ReadByte] keeps reporting the same error. *)
Record source := mkSource { rest : list byte; src_end : goerr }.

Definition ReadByte (s : source) : (byte * option goerr) * source :=
  match rest s with
  | b :: r => ((b, None), mkSource r (src_end s))
  | [] => ((x00, Some (src_end s)), s)
  end.

(** [UnreadByte] right after a successful [ReadByte] cannot fail on a
    [bufio.Reader]: it pushes the byte back. *)
Definition UnreadByte (b : byte) (s : source) : source :=
  mkSource (b :: rest s) (src_end s).

(** ** holesFinder *)

Inductive hstate := holesFinderStateRead | holesFinderStateAccumulate
                  | holesFinderStateFound | holesFinderStateEOF.

Record holesFinder := mkHF {
  reader : source;
  zeros : Z;
  threshold : Z;
  state : hstate
}.

Definition set_reader f r := mkHF r (zeros f) (threshold f) (state f).
Definition set_zeros f z := mkHF (reader f) z (threshold f) (state f).
Definition set_state f st := mkHF (reader f) (zeros f) (threshold f) st.

(** One iteration of the [for] loop of [readByte]: either [continue] with
    a new holesFinder, or [return] the triple
    (hole length, byte, error). *)
Inductive hf_iter :=
| HContinue (f : holesFinder)
| HReturn (hole : Z) (b : byte) (err : option goerr) (f : holesFinder).

Definition hf_step (f : holesFinder) : hf_iter :=
  match state f with
  | holesFinderStateRead =>
      if 0 <? zeros f then HReturn 0 x00 None (set_zeros f (zeros f - 1))
      else
        let '((b, err), r) := ReadByte (reader f) in
        let f := set_reader f r in
        match err with
        | Some e => HReturn 0 b (Some e) f
        | None =>
            if negb (Byte.eqb b x00) then HReturn 0 b None f
            else
              let f := set_zeros f 1 in
              if zeros f =? threshold f
              then HContinue (set_state f holesFinderStateFound)
              else HContinue (set_state f holesFinderStateAccumulate)
        end
  | holesFinderStateAccumulate =>
      let '((b, err), r) := ReadByte (reader f) in
      let f := set_reader f r in
      match err with
      | Some EOF => HContinue (set_state f holesFinderStateEOF)
      | Some e => HReturn 0 b (Some e) f
      | None =>
          if Byte.eqb b x00 then
            let f := set_zeros f (zeros f + 1) in
            if zeros f =? threshold f
            then HContinue (set_state f holesFinderStateFound)
            else HContinue f
          else
            HContinue (set_state (set_reader f (UnreadByte b (reader f)))
                                 holesFinderStateRead)
      end
  | holesFinderStateFound =>
      let '((b, err), r) := ReadByte (reader f) in
      let f := set_reader f r in
      match err with
      | Some e =>
          let f := if goerr_eqb e EOF then set_state f holesFinderStateEOF
                   else f in
          HReturn (zeros f) x00 None (set_zeros f 0)
      | None =>
          if negb (Byte.eqb b x00) then
            let f := set_state (set_reader f (UnreadByte b (reader f)))
                               holesFinderStateRead in
            HReturn (zeros f) x00 None (set_zeros f 0)
          else HContinue (set_zeros f (zeros f + 1))
      end
  | holesFinderStateEOF =>
      if 0 <? zeros f then HReturn 0 x00 None (set_zeros f (zeros f - 1))
      else HReturn 0 x00 (Some EOF) f
  end.

(** The [for] loop, run for at most [fuel] iterations. *)
Fixpoint readByte_fuel (fuel : nat) (f : holesFinder)
  : option ((Z * byte * option goerr) * holesFinder) :=
  match fuel with
  | O => None
  | S n =>
      match hf_step f with
      | HReturn h b e f' => Some ((h, b, e), f')
      | HContinue f' => readByte_fuel n f'
      end
  end.

(** Every [continue] strictly decreases this measure, so [readByte]
    terminates within [hf_measure f + 1] iterations. *)
Definition hstate_rank (s : hstate) : nat :=
  match s with
  | holesFinderStateEOF => 0
  | holesFinderStateRead | holesFinderStateFound => 1
  | holesFinderStateAccumulate => 2
  end.

Definition hf_measure (f : holesFinder) : nat :=
  (3 * List.length (rest (reader f)) + hstate_rank (state f))%nat.

Definition readByte (f : holesFinder) : (Z * byte * option goerr) * holesFinder :=
  match readByte_fuel (S (hf_measure f)) f with
  | Some r => r
  | None => ((0, x00, Some EOF), f)  (* unreachable: see readByte_unfold *)
  end.

(** [n] successive calls of [readByte]. *)
Fixpoint readBytes (n : nat) (f : holesFinder)
  : list (Z * byte * option goerr) * holesFinder :=
  match n with
  | O => ([], f)
  | S n' => let '(r, f') := readByte f in
            let '(rs, f'') := readBytes n' f' in (r :: rs, f'')
  end.

(** The state the hole detector is left in after a run of zeros that is
    followed by [r]. *)
Definition after_run (r : list byte) : hstate :=
  match r with [] => holesFinderStateEOF | _ => holesFinderStateRead end.

(** ** RollSum

    [RollSum], [NewRollSum], [Roll] and [OnSplitWithBits] live in
    rollsum.go of the same package.  The chunker is modelled over any
    implementation of that interface; [Roll] and [OnSplitWithBits] are
    pure functions of the checksum state. *)
Class RollSumImpl := {
  RollSum : Type;
  NewRollSum : RollSum;
  Roll : RollSum -> byte -> RollSum;
  OnSplitWithBits : RollSum -> Z -> bool
}.

Definition RollsumBits : Z := 16.
Definition holesThreshold : Z := Z.shiftl 1 10.

(** ** rollingChecksumReader *)

Section ChunkReader.
Context {RS : RollSumImpl}.

Record rollingChecksumReader := mkRC {
  rc_reader : holesFinder;
  closed : bool;
  rollsum : RollSum;
  pendingHole : Z;
  WrittenOut : Z;
  IsLastChunkZeros : bool
}.

Definition rc_set_reader rc f :=
  mkRC f (closed rc) (rollsum rc) (pendingHole rc) (WrittenOut rc) (IsLastChunkZeros rc).
Definition rc_set_closed rc c :=
  mkRC (rc_reader rc) c (rollsum rc) (pendingHole rc) (WrittenOut rc) (IsLastChunkZeros rc).
Definition rc_set_rollsum rc r :=
  mkRC (rc_reader rc) (closed rc) r (pendingHole rc) (WrittenOut rc) (IsLastChunkZeros rc).
Definition rc_set_pendingHole rc h :=
  mkRC (rc_reader rc) (closed rc) (rollsum rc) h (WrittenOut rc) (IsLastChunkZeros rc).
Definition rc_set_WrittenOut rc w :=
  mkRC (rc_reader rc) (closed rc) (rollsum rc) (pendingHole rc) w (IsLastChunkZeros rc).
Definition rc_set_IsLastChunkZeros rc z :=
  mkRC (rc_reader rc) (closed rc) (rollsum rc) (pendingHole rc) (WrittenOut rc) z.

(** The result of [Read(b)]: (mustSplit, n, err), together with the
    bytes stored into [b[0:n]] (the rest of [b] is never looked at by the
    caller, which only uses [buf[:read]]). *)
Record ReadResult := mkRR {
  mustSplit : bool;
  nread : Z;
  data : list byte;
  rerr : option goerr
}.

(** The [for i := 0; i < len(b); i++] loop of [Read]; [k] is the number
    of iterations left, [acc] holds [b[0:i]] reversed. *)
Fixpoint rc_loop (k : nat) (i : Z) (acc : list byte)
         (rc : rollingChecksumReader) : ReadResult * rollingChecksumReader :=
  match k with
  | O => (mkRR false i (rev acc) None, rc)
  | S k' =>
      let '((holeLen, n, err), hf) := readByte (rc_reader rc) in
      let rc := rc_set_reader rc hf in
      match err with
      | Some e =>
          if goerr_eqb e EOF then
            let rc := rc_set_closed rc true in
            if i =? 0 then (mkRR false 0 [] (Some e), rc)
            else (mkRR false i (rev acc) None, rc)
          else (mkRR false (-1) (rev acc) (Some e), rc)
      | None =>
          if 0 <? holeLen then
            let rc := rc_set_rollsum rc
                        (Nat.iter (Z.to_nat holeLen)
                                  (fun r => Roll r x00) (rollsum rc)) in
            let rc := rc_set_pendingHole rc holeLen in
            (mkRR true i (rev acc) None, rc)
          else
            let acc := n :: acc in
            let rc := rc_set_WrittenOut rc (WrittenOut rc + 1) in
            let rc := rc_set_rollsum rc (Roll (rollsum rc) n) in
            if OnSplitWithBits (rollsum rc) RollsumBits
            then (mkRR true (i + 1) (rev acc) None, rc)
            else rc_loop k' (i + 1) acc rc
      end
  end.

(** [rc.Read(b)] with [len(b) = blen]. *)
Definition Read (blen : Z) (rc : rollingChecksumReader)
  : ReadResult * rollingChecksumReader :=
  let rc := rc_set_IsLastChunkZeros rc false in
  if 0 <? pendingHole rc then
    let toCopy := if pendingHole rc <? blen then pendingHole rc else blen in
    let rc := rc_set_pendingHole rc (pendingHole rc - toCopy) in
    let rc := rc_set_WrittenOut rc (WrittenOut rc + toCopy) in
    let rc := rc_set_IsLastChunkZeros rc true in
    (mkRR (pendingHole rc =? 0) toCopy (repeat x00 (Z.to_nat toCopy)) None, rc)
  else if closed rc then (mkRR false 0 [] (Some EOF), rc)
  else rc_loop (Z.to_nat blen) 0 [] rc.

(** A fresh reader over an entry's payload, as built by
    [writeZstdChunkedStream]. *)
Definition newReader (src : source) : rollingChecksumReader :=
  mkRC (mkHF src 0 holesThreshold holesFinderStateRead) false NewRollSum 0 0 false.

(** A consumer that calls [Read] with a buffer of [blen] bytes until it
    reports an error, concatenating what every call delivered; [Some] of
    the bytes and the final error, [None] if [fuel] calls did not reach
    an error. *)
Fixpoint drain (fuel : nat) (blen : Z) (rc : rollingChecksumReader)
  : option (list byte * goerr) :=
  match fuel with
  | O => None
  | S n =>
      let '(r, rc') := Read blen rc in
      match rerr r with
      | Some e => Some (data r, e)
      | None => match drain n blen rc' with
                | Some (bs, e) => Some (data r ++ bs, e)
                | None => None
                end
      end
  end.

(** [n] successive calls of [Read] with a buffer of [blen] bytes: what
    each of them returned. *)
Fixpoint reads (n : nat) (blen : Z) (rc : rollingChecksumReader) : list ReadResult :=
  match n with
  | O => []
  | S n' => let '(r, rc') := Read blen rc in r :: reads n' blen rc'
  end.

End ChunkReader.

(** ** External collaborators of the orchestrator *)

(** The tar header fields the orchestrator reads ([tar.Header]); times
    are kept abstract as integers. *)
Record Header := mkHeader {
  Typeflag : byte;
  Name : string;
  Linkname : string;
  Mode : Z;
  Size : Z;
  Uid : Z;
  Gid : Z;
  ModTime : Z;
  AccessTime : Z;
  ChangeTime : Z;
  Devmajor : Z;
  Devminor : Z;
  Xattrs : list (string * string)
}.

Module internal.

(** [internal.FileMetadata], the record handed to the manifest writer. *)
Record FileMetadata := mkFM {
  Type_ : string;  (* FileMetadata.Type *)
  Name : string;
  Linkname : string;
  Mode : Z;
  Size : Z;
  UID : Z;
  GID : Z;
  ModTime : Z;
  AccessTime : Z;
  ChangeTime : Z;
  Devmajor : Z;
  Devminor : Z;
  Xattrs : list (string * string);
  Digest : string;
  Offset : Z;
  EndOffset : Z;
  ChunkSize : Z;
  ChunkOffset : Z;
  ChunkDigest : string;
  ChunkType : string
}.

(** The Go zero value of [FileMetadata]. *)
Definition emptyFM : FileMetadata :=
  mkFM "" "" "" 0 0 0 0 0 0 0 0 0 [] "" 0 0 0 0 "" "".

(** What the orchestrator uses from package [internal], from the zstd
    codec and from the digest and base64 packages.
    - [compress c] is the byte image of a closed zstd frame whose content
      is [c] (written to [dest] by [Close]/[Flush]);
    - [ZstdWriterWithLevel l] is the error of creating the encoder;
    - [WriteZstdChunkedManifest count md level] is what the manifest writer
      appends to [dest] and the error it returns;
    - [digestOf bs] is [digest.Canonical] finalised over [bs] as a string. *)
Class InternalOps := {
  GetType : byte -> string * option goerr;
  TypeChunk : string;
  ChunkTypeData : string;
  ChunkTypeZeros : string;
  ZstdWriterWithLevel : Z -> option goerr;
  compress : list byte -> list byte;
  WriteZstdChunkedManifest : Z -> list FileMetadata -> Z -> list byte * option goerr;
  digestOf : list byte -> string;
  base64Encode : string -> string
}.

End internal.

Import internal (InternalOps, GetType, TypeChunk, ChunkTypeData, ChunkTypeZeros,
                 ZstdWriterWithLevel, compress, WriteZstdChunkedManifest,
                 digestOf, base64Encode).

(** A tar entry as delivered by [tar.Reader]: its header, the raw bytes
    returned by [tr.RawBytes()] after [tr.Next()], and its payload. *)
Record TarEntry := mkEntry {
  hdr : Header;
  rawBytes : list byte;
  payload : source
}.

(** The archive: its entries, the error [tr.Next()] reports after the
    last one ([EOF] for a well-formed archive) and the raw bytes left
    after it (the end-of-archive blocks). *)
Record Archive := mkArchive {
  entries : list TarEntry;
  next_end : goerr;
  trailer : list byte
}.

(** ** The orchestrator's state and its monad

    [dest] is the output seen through the write counter, [frame] the
    content of the zstd frame currently open, [zw_live] whether the local
    [zstdWriter] is non-nil, [manifest] the arguments of the call to the
    manifest writer, once made. *)
Record World := mkWorld {
  dest : list byte;
  frame : list byte;
  zw_live : bool;
  manifest : option (Z * list internal.FileMetadata)
}.

Definition Count (w : World) : Z := Z.of_nat (List.length (dest w)).

(** A statement completes normally, or the function executes [return r],
    or the model's bound on loop iterations is exhausted. *)
Inductive outcome (A : Type) :=
| Normal (a : A)
| Return (r : option goerr)
| OutOfFuel.
Arguments Normal {A} a.
Arguments Return {A} r.
Arguments OutOfFuel {A}.

Definition M (A : Type) := World -> outcome A * World.

Definition ret {A} (a : A) : M A := fun w => (Normal a, w).
Definition return_ {A} (r : option goerr) : M A := fun w => (Return r, w).
Definition out_of_fuel {A} : M A := fun w => (OutOfFuel, w).
Definition bind {A B} (m : M A) (k : A -> M B) : M B :=
  fun w => match m w with
           | (Normal a, w') => k a w'
           | (Return r, w') => (Return r, w')
           | (OutOfFuel, w') => (OutOfFuel, w')
           end.

Declare Scope go_scope.
Delimit Scope go_scope with go.
Notation "x <- m ;; k" := (bind m (fun x => k))
  (at level 61, m at next level, right associativity) : go_scope.
Notation "m ;;; k" := (bind m (fun _ => k))
  (at level 61, right associativity) : go_scope.
Open Scope go_scope.

(** ** The output's failures

    [WriteFault w p] is the error [zstdWriter.Write(p)] reports when the
    output is in the state [w], [nil] being [None]; [CloseFault w] and
    [FlushFault w] are those of [zstdWriter.Close()] and
    [zstdWriter.Flush()].  A call that fails leaves the output as it was. *)
Class OutputFaults := {
  WriteFault : World -> list byte -> option goerr;
  CloseFault : World -> option goerr;
  FlushFault : World -> option goerr
}.

(** An output on which no call fails.  It is the instance found by the
    statements that do not name one: those about completed entries. *)
#[export] Instance reliableOutput : OutputFaults := {
  WriteFault := fun _ _ => None;
  CloseFault := fun _ => None;
  FlushFault := fun _ => None
}.

(** The errors an output can report. *)
Definition output_error {OF : OutputFaults} (e : goerr) : Prop :=
  (exists w p, WriteFault w p = Some e) \/ (exists w, CloseFault w = Some e)
  \/ (exists w, FlushFault w = Some e).

(** No call on the output fails. *)
Definition output_never_fails {OF : OutputFaults} : Prop :=
  (forall w p, WriteFault w p = None) /\ (forall w, CloseFault w = None)
  /\ (forall w, FlushFault w = None).

(** ** writeZstdChunkedStream *)

(** The [chunk] struct. *)
Record chunk := mkChunk {
  ChunkOffset : Z;
  Offset : Z;
  Checksum : string;
  ChunkSize : Z;
  ChunkType : string
}.

Section Orchestrator.
Context {RS : RollSumImpl} {IO : InternalOps} {OF : OutputFaults}.

(** [zstdWriter.Write(p)] with the [if err != nil { return err }] that
    follows each of its calls (lines 247-249, 289-291, 375-377): the bytes
    join the open frame. *)
Definition zwrite (p : list byte) : M unit :=
  fun w => match WriteFault w p with
           | Some e => (Return (Some e), w)
           | None => (Normal tt,
                      mkWorld (dest w) (frame w ++ p) (zw_live w) (manifest w))
           end.

(** [zstdWriter.Close()]: the open frame reaches [dest]. *)
Definition zclose : M unit :=
  fun w => match CloseFault w with
           | Some e => (Return (Some e), w)
           | None => (Normal tt,
                      mkWorld (dest w ++ compress (frame w)) [] (zw_live w)
                              (manifest w))
           end.

(** [zstdWriter.Flush()]: the frame was closed, nothing is pending. *)
Definition zflush : M unit :=
  fun w => match FlushFault w with
           | Some e => (Return (Some e), w)
           | None => (Normal tt, w)
           end.

Definition get_count : M Z := fun w => (Normal (Count w), w).

(** [restartCompression]: an error of [Close] or [Flush] is returned, and
    every caller returns it in turn (lines 282-285, 294-297); after
    [zstdWriter.Reset(dest)] a new, empty frame is open. *)
Definition restartCompression : M Z :=
  fun w => if zw_live w then (zclose ;;; zflush ;;; get_count) w
           else (Normal 0, w).

(** The local variables of one entry's payload loop. *)
Record PL := mkPL {
  rcReader : rollingChecksumReader;
  startOffset : Z;
  lastOffset : Z;
  lastChunkOffset : Z;
  checksum : string;
  chunks : list chunk;
  payloadDigester : list byte;  (* bytes hashed so far *)
  chunkDigester : list byte;
  err : option goerr            (* the [err] declared by [tr.Next()] *)
}.

Definition buflen : Z := 4096.

(** Lines 280-292: write what was read, opening the payload's first
    compressed frame before its first byte. *)
Definition pl_write_payload (r : ReadResult) (st : PL) : M PL :=
  (* restart the compression only if there is a payload *)
  if 0 <? nread r then
    st <- (if startOffset st =? 0 then
             so <- restartCompression ;;
             ret (mkPL (rcReader st) so so (lastChunkOffset st)
                       (checksum st) (chunks st) (payloadDigester st)
                       (chunkDigester st) None)
           else ret st) ;;
    zwrite (data r) ;;;
    ret (mkPL (rcReader st) (startOffset st) (lastOffset st)
              (lastChunkOffset st) (checksum st) (chunks st)
              (payloadDigester st ++ data r) (chunkDigester st ++ data r)
              (err st))
  else ret st.

(** Lines 293-318: end the current chunk at a split point or at the end
    of the payload. *)
Definition pl_cut_chunk (r : ReadResult) (rc : rollingChecksumReader)
                        (st : PL) : M PL :=
  if (mustSplit r || is_EOF (rerr r)) && (0 <? startOffset st) then
    off <- restartCompression ;;
    let chunkSize := WrittenOut rc - lastChunkOffset st in
    let chunks' :=
      if 0 <? chunkSize then
        let chunkType := if IsLastChunkZeros rc then ChunkTypeZeros
                         else ChunkTypeData in
        chunks st ++ [mkChunk (lastChunkOffset st) (lastOffset st)
                              (digestOf (chunkDigester st)) chunkSize chunkType]
      else chunks st in
    ret (mkPL (rcReader st) (startOffset st) off (WrittenOut rc)
              (checksum st) chunks' (payloadDigester st) [] (err st))
  else ret st.

(** The statements of lines 279-319 after [rcReader.Read(buf)]. *)
Definition pl_after_read (r : ReadResult) (rc : rollingChecksumReader)
                         (st : PL) : M PL :=
  st <- pl_write_payload r st ;;
  pl_cut_chunk r rc st.

(** One iteration of the payload loop; [true] means [break]. *)
Definition pl_body (st : PL) : M (bool * PL) :=
  let '(r, rc) := Read buflen (rcReader st) in
  let st := mkPL rc (startOffset st) (lastOffset st) (lastChunkOffset st)
                 (checksum st) (chunks st) (payloadDigester st)
                 (chunkDigester st) (err st) in
  match rerr r with
  | Some e => if negb (goerr_eqb e EOF) then return_ (err st) else ret tt
  | None => ret tt
  end ;;;
  st <- pl_after_read r rc st ;;
  if is_EOF (rerr r) then
    let cs := if 0 <? startOffset st then digestOf (payloadDigester st)
              else checksum st in
    ret (true, mkPL (rcReader st) (startOffset st) (lastOffset st)
                    (lastChunkOffset st) cs (chunks st) (payloadDigester st)
                    (chunkDigester st) (err st))
  else ret (false, st).

Fixpoint pl_loop (fuel : nat) (st : PL) : M PL :=
  match fuel with
  | O => out_of_fuel
  | S n => bst <- pl_body st ;;
           let '(brk, st) := bst in
           if brk then ret st else pl_loop n st
  end.

(** The bound on the loop iterations for a payload. *)
Definition pl_fuel (src : source) : nat := (2 * List.length (rest src) + 3)%nat.

Definition initPL (src : source) : PL :=
  mkPL (newReader src) 0 0 0 "" [] [] [] None.

(** Lines 336-370: the metadata records of one entry. *)
Definition primaryFM (h : Header) (typ : string)
           (xattrs : list (string * string)) (cs : string)
           (startOff lastOff : Z) : internal.FileMetadata :=
  internal.mkFM typ (Name h) (Linkname h) (Mode h) (Size h) (Uid h) (Gid h)
    (ModTime h) (AccessTime h) (ChangeTime h) (Devmajor h) (Devminor h)
    xattrs cs startOff lastOff 0 0 "" "".

Definition secondaryFM (h : Header) (c : chunk) : internal.FileMetadata :=
  internal.mkFM TypeChunk (Name h) "" 0 0 0 0 0 0 0 0 0 [] "" 0 0 0
    (ChunkOffset c) "" "".

(** [entries[i].ChunkSize = chunks[i].ChunkSize] and the three other
    assignments, for one index. *)
Definition backfillFM (e : internal.FileMetadata) (c : chunk) : internal.FileMetadata :=
  internal.mkFM (internal.Type_ e) (internal.Name e) (internal.Linkname e)
    (internal.Mode e) (internal.Size e) (internal.UID e) (internal.GID e)
    (internal.ModTime e) (internal.AccessTime e) (internal.ChangeTime e)
    (internal.Devmajor e) (internal.Devminor e) (internal.Xattrs e)
    (internal.Digest e) (Offset c) (internal.EndOffset e) (ChunkSize c)
    (internal.ChunkOffset e) (Checksum c) (ChunkType c).

(** [for i := range chunks { entries[i]... = chunks[i]... }]: [entries]
    has [len(chunks)] elements whenever this loop runs. *)
Fixpoint backfill (es : list internal.FileMetadata) (cs : list chunk)
  : list internal.FileMetadata :=
  match es, cs with
  | e :: es', c :: cs' => backfillFM e c :: backfill es' cs'
  | _, _ => es
  end.

Definition build_entries (h : Header) (typ : string)
           (xattrs : list (string * string)) (st : PL)
  : list internal.FileMetadata :=
  let entries := primaryFM h typ xattrs (checksum st) (startOffset st) (lastOffset st)
                 :: map (secondaryFM h) (tl (chunks st)) in
  if 1 <? Z.of_nat (List.length (chunks st)) then backfill entries (chunks st)
  else entries.

(** The body of the loop over the archive entries, after [tr.Next()]
    returned [e]. *)
Definition process_entry (e : TarEntry) (metadata : list internal.FileMetadata)
  : M (list internal.FileMetadata) :=
  zwrite (rawBytes e) ;;;
  st <- pl_loop (pl_fuel (payload e)) (initPL (payload e)) ;;
  let '(typ, gerr) := GetType (Typeflag (hdr e)) in
  match gerr with
  | Some e => return_ (Some e)
  | None =>
      let xattrs := map (fun kv => (fst kv, base64Encode (snd kv)))
                        (Xattrs (hdr e)) in
      ret (metadata ++ build_entries (hdr e) typ xattrs st)
  end.

Fixpoint entries_loop (es : list TarEntry) (metadata : list internal.FileMetadata)
  : M (list internal.FileMetadata) :=
  match es with
  | [] => ret metadata
  | e :: es' => metadata <- process_entry e metadata ;; entries_loop es' metadata
  end.

Definition set_live (b : bool) : M unit :=
  fun w => (Normal tt, mkWorld (dest w) (frame w) b (manifest w)).

Definition call_manifest (metadata : list internal.FileMetadata) (level : Z)
  : M (option goerr) :=
  fun w =>
    let '(bs, e) := WriteZstdChunkedManifest (Count w) metadata level in
    (Normal e, mkWorld (dest w ++ bs) (frame w) (zw_live w)
                       (Some (Count w, metadata))).

(** The function body after the encoder was created. *)
Definition zstd_body (ar : Archive) (level : Z) : M (option goerr) :=
  metadata <- entries_loop (entries ar) [] ;;
  (if goerr_eqb (next_end ar) EOF then ret tt else return_ (Some (next_end ar))) ;;;
  zwrite (trailer ar) ;;;
  zflush ;;;
  zclose ;;;
  set_live false ;;;
  call_manifest metadata level.

(** [writeZstdChunkedStream(destFile, outMetadata, reader, level)]: its
    return value and the final world; the deferred function closes the
    encoder when the body left it open, ignoring the errors of its
    [Close] and [Flush]. *)
Definition writeZstdChunkedStream (ar : Archive) (level : Z)
  : outcome (option goerr) * World :=
  let w0 := mkWorld [] [] false None in
  match ZstdWriterWithLevel level with
  | Some e => (Return (Some e), w0)
  | None =>
      let '(o, w) := zstd_body ar level (mkWorld [] [] true None) in
      let w := if zw_live w then snd ((zclose ;;; zflush) w) else w in
      match o with
      | Normal r => (Return r, w)
      | o => (o, w)
      end
  end.

End Orchestrator.

(** ** Concrete collaborators *)

Module Concrete.

(** Modelled from the spec: rollsum.go ([RollSum], [NewRollSum], [Roll],
    [OnSplitWithBits]) is not among the sources; the spec describes the
    split predicate as a window-based rolling hash tested against a fixed
    16-bit mask ([RollsumBits]).  This is such a checksum: two 32-bit
    running sums over a 64-byte window, split when the low [n] bits of
    the second sum are all ones. *)
Definition windowSize : Z := 64.
Definition charOffset : Z := 31.

Record bupRollSum := mkBup { s1 : Z; s2 : Z; window : list Z; wofs : nat }.

Definition u32 (z : Z) : Z := z mod 2 ^ 32.

Definition bupNew : bupRollSum :=
  mkBup (windowSize * charOffset) (windowSize * (windowSize - 1) * charOffset)
        (repeat 0 (Z.to_nat windowSize)) 0.

Fixpoint set_nth (l : list Z) (n : nat) (v : Z) : list Z :=
  match l, n with
  | [], _ => []
  | _ :: l', O => v :: l'
  | x :: l', S n' => x :: set_nth l' n' v
  end.

Definition bupRoll (rs : bupRollSum) (ch : byte) : bupRollSum :=
  let drop := nth (wofs rs) (window rs) 0 in
  let add := Z.of_N (Byte.to_N ch) in
  let s1' := u32 (s1 rs + add - drop) in
  let s2' := u32 (s2 rs + s1' - windowSize * (drop + charOffset)) in
  mkBup s1' s2' (set_nth (window rs) (wofs rs) add)
        (Nat.modulo (S (wofs rs)) (Z.to_nat windowSize)).

Definition bupOnSplitWithBits (rs : bupRollSum) (n : Z) : bool :=
  let mask := Z.shiftl 1 n - 1 in
  Z.land (s2 rs) mask =? mask.

#[export] Instance bupRollSumImpl : RollSumImpl :=
  { RollSum := bupRollSum; NewRollSum := bupNew; Roll := bupRoll;
    OnSplitWithBits := bupOnSplitWithBits }.

(** A checksum that never splits: every payload without holes is one
    chunk. *)
#[export] Instance noSplitRollSum : RollSumImpl :=
  { RollSum := unit; NewRollSum := tt; Roll := fun _ _ => tt;
    OnSplitWithBits := fun _ _ => false }.

(** Collaborators for concrete runs: every entry is a regular file, a
    frame is stored verbatim, the digest of a byte string is the string
    itself. *)
#[export] Instance storedOps : InternalOps :=
  { GetType := fun _ => ("reg"%string, None);
    TypeChunk := "chunk"%string;
    ChunkTypeData := ""%string;
    ChunkTypeZeros := "zeros"%string;
    ZstdWriterWithLevel := fun _ => None;
    compress := fun c => c;
    WriteZstdChunkedManifest := fun _ _ _ => ([], None);
    digestOf := string_of_list_byte;
    base64Encode := fun s => s }.

Definition hdrA : Header :=
  mkHeader "0"%byte "a"%string ""%string 420 0 0 0 0 0 0 0 0 [].

Definition blk : list byte := repeat x00 512.

(** A truncated archive: one regular file whose payload source delivers
    the byte 'a' and then fails with [io.ErrUnexpectedEOF]. *)
Definition ar_trunc : Archive :=
  mkArchive [mkEntry hdrA blk (mkSource [x61] ErrUnexpectedEOF)] EOF blk.




End Concrete.

(** ** zstdChunkedWriter: the pipe-backed writer

    The caller's [Write]/[Close] and the goroutine started by
    [zstdChunkedWriterWithLevel] as a transition system.  [ch_buf] is the
    one slot of [tarSplitErr] (make(chan error, 1)), holding an [error]
    value ([None] = nil); [w_closed]/[r_closed] are the two ends of the
    [io.Pipe]. *)
Module AsyncWriter.

Inductive bg_pc :=
| BgRunning                 (* writeZstdChunkedStream(out, metadata, r, level) *)
| BgSend (r : option goerr) (* ch <- r *)
| BgDrain                   (* io.Copy(io.Discard, r) *)
| BgCloseR                  (* r.Close() *)
| BgCloseCh                 (* close(ch) *)
| BgDone.

Record AW := mkAW {
  ch_buf : option (option goerr);
  ch_closed : bool;
  w_closed : bool;
  r_closed : bool;
  bg : bg_pc
}.

Definition init : AW := mkAW None false false false BgRunning.

(** One step of the goroutine, when it can make one; [res] is what
    [writeZstdChunkedStream] returns. *)
Definition bg_next (res : option goerr) (s : AW) : option AW :=
  match bg s with
  | BgRunning => Some (mkAW (ch_buf s) (ch_closed s) (w_closed s) (r_closed s) (BgSend res))
  | BgSend r =>
      match ch_buf s with
      | None => Some (mkAW (Some r) (ch_closed s) (w_closed s) (r_closed s) BgDrain)
      | Some _ => None
      end
  | BgDrain =>
      (* io.Copy returns once the write end is closed *)
      if w_closed s then Some (mkAW (ch_buf s) (ch_closed s) (w_closed s) (r_closed s) BgCloseR)
      else None
  | BgCloseR => Some (mkAW (ch_buf s) (ch_closed s) (w_closed s) true BgCloseCh)
  | BgCloseCh => Some (mkAW (ch_buf s) true (w_closed s) (r_closed s) BgDone)
  | BgDone => None
  end.

(** A receive [<-ch] that can proceed: the buffered value, or the zero
    value of a closed, empty channel. *)
Definition recv (s : AW) : option (option goerr * AW) :=
  match ch_buf s with
  | Some v => Some (v, mkAW None (ch_closed s) (w_closed s) (r_closed s) (bg s))
  | None => if ch_closed s then Some (None, s) else None
  end.

Definition close_w (s : AW) : AW :=
  mkAW (ch_buf s) (ch_closed s) true (r_closed s) (bg s).

(** [w.tarSplitOut.Write(p)] on the pipe: fails once either end is
    closed; otherwise it completes while the goroutine reads the pipe and
    blocks ([None]) while it does not. *)
Definition pipe_write (s : AW) (p : list byte) : option ((Z * option goerr) * AW) :=
  if w_closed s || r_closed s then Some ((0, Some ErrClosedPipe), s)
  else match bg s with
       | BgRunning | BgDrain => Some ((Z.of_nat (List.length p), None), s)
       | _ => None
       end.

(** [zstdChunkedWriter.Close]; [None] while it blocks. *)
Definition close_op (s : AW) : option (option goerr * AW) :=
  match recv s with
  | Some (Some e, s) => Some (Some e, close_w s)
  | Some (None, s) => Some (None, close_w s)   (* return w.tarSplitOut.Close() *)
  | None => None
  end.

(** [zstdChunkedWriter.Write]: the [select] takes the receive when it can
    proceed, the [default] branch otherwise. *)
Definition write_op (s : AW) (p : list byte) : option ((Z * option goerr) * AW) :=
  match recv s with
  | Some (e, s) => Some ((0, e), close_w s)
  | None => pipe_write s p
  end.

Inductive label :=
| Tau
| LWrite (p : list byte) (n : Z) (e : option goerr)
| LClose (e : option goerr).

Inductive step (res : option goerr) : AW -> label -> AW -> Prop :=
| step_bg s s' : bg_next res s = Some s' -> step res s Tau s'
| step_write s p n e s' :
    write_op s p = Some ((n, e), s') -> step res s (LWrite p n e) s'
| step_close s e s' : close_op s = Some (e, s') -> step res s (LClose e) s'.

Inductive run (res : option goerr) : AW -> list label -> AW -> Prop :=
| run_nil s : run res s [] s
| run_cons s l s' tr s'' : step res s l s' -> run res s' tr s'' -> run res s (l :: tr) s''.

Definition is_close (l : label) : bool :=
  match l with LClose _ => true | _ => false end.

(** A [Write] that returned the error [e]. *)
Definition write_reported (e : goerr) (l : label) : bool :=
  match l with LWrite _ _ (Some e') => goerr_eqb e' e | _ => false end.

(** States of a concrete run: the goroutine has sent [boom] and drains
    the pipe; then [Close] has received it. *)
Definition boom : goerr := ErrOther "boom".
Definition aw_drain : AW := mkAW (Some (Some boom)) false false false BgDrain.
Definition aw_closed : AW := mkAW None false true false BgDrain.

(** Before [Close], while nobody received the orchestrator's error [e]. *)
Definition inv_pre (e : goerr) (s : AW) : Prop :=
  ((bg s = BgRunning \/ bg s = BgSend (Some e)) /\ ch_buf s = None
     /\ ch_closed s = false /\ w_closed s = false /\ r_closed s = false)
  \/ (bg s = BgDrain /\ ch_buf s = Some (Some e)
     /\ ch_closed s = false /\ w_closed s = false /\ r_closed s = false).

(** After the error was received: the slot stays empty and the write end
    stays closed. *)
Definition inv_post (s : AW) : Prop :=
  ch_buf s = None /\ w_closed s = true
  /\ (bg s = BgDrain \/ bg s = BgCloseR \/ bg s = BgCloseCh \/ bg s = BgDone).

End AsyncWriter.

(** ** What a reader still has to deliver

    The bytes a [holesFinder] or a [rollingChecksumReader] will still
    hand out, and which of them come out as part of a hole ([THole]) or
    as literal bytes ([TLit]). *)

Inductive tag := TLit | THole.

(** [tagz th z l]: the tags of [z] zero bytes followed by [l]; a maximal
    run of zeros of length at least [th] is a hole. *)
Fixpoint tagz (th : Z) (z : nat) (l : list byte) : list tag :=
  match l with
  | [] => repeat (if th <=? Z.of_nat z then THole else TLit) z
  | b :: r =>
      if Byte.eqb b x00 then tagz th (S z) r
      else repeat (if th <=? Z.of_nat z then THole else TLit) z
           ++ TLit :: tagz th 0 r
  end.

Definition hf_content (f : holesFinder) : list byte :=
  repeat x00 (Z.to_nat (zeros f)) ++ rest (reader f).

Definition hf_tags (f : holesFinder) : list tag :=
  tagz (threshold f) (Z.to_nat (zeros f)) (rest (reader f)).

(** The states [readByte] can be in over a payload that ends with
    [io.EOF]. *)
Definition hf_inv (f : holesFinder) : Prop :=
  src_end (reader f) = EOF /\ 1 <= threshold f /\ 0 <= zeros f /\
  match state f with
  | holesFinderStateRead =>
      zeros f < threshold f
      /\ (0 < zeros f -> exists b r, rest (reader f) = b :: r /\ b <> x00)
  | holesFinderStateAccumulate => 1 <= zeros f < threshold f
  | holesFinderStateFound => threshold f <= zeros f
  | holesFinderStateEOF => zeros f < threshold f /\ rest (reader f) = []
  end.

(** A tag sequence that does not start inside a hole. *)
Definition lit_headed (t : list tag) : Prop :=
  match t with THole :: _ => False | _ => True end.

Section ReaderContent.
Context {RS : RollSumImpl}.

Definition rc_content (rc : rollingChecksumReader) : list byte :=
  repeat x00 (Z.to_nat (pendingHole rc))
  ++ (if closed rc then [] else hf_content (rc_reader rc)).

Definition rc_tags (rc : rollingChecksumReader) : list tag :=
  repeat THole (Z.to_nat (pendingHole rc))
  ++ (if closed rc then [] else hf_tags (rc_reader rc)).

Definition rc_inv (rc : rollingChecksumReader) : Prop :=
  hf_inv (rc_reader rc) /\ 0 <= pendingHole rc
  /\ (closed rc = true -> pendingHole rc = 0)
  /\ (0 < pendingHole rc -> lit_headed (hf_tags (rc_reader rc))).

(** Decreases with every [Read] that does not report an error. *)
Definition rc_measure (rc : rollingChecksumReader) : nat :=
  (2 * List.length (if closed rc then [] else hf_content (rc_reader rc))
   + Z.to_nat (pendingHole rc) + (if closed rc then 0 else 1))%nat.

End ReaderContent.

(** ** Chunk boundaries of a payload loop *)

(** What a chunk says about the payload: where it starts, its length,
    its digest and its type; its [Offset] in the compressed stream is
    left out. *)
Definition chunk_boundary (c : chunk) : Z * Z * string * string :=
  (ChunkOffset c, ChunkSize c, Checksum c, ChunkType c).

Section Boundaries.
Context {RS : RollSumImpl} {IO : InternalOps}.

(** The encoder is open and closing its frame yields a non-empty
    output: the state of the output in which [writeZstdChunkedStream]
    starts an entry's payload, after the entry's header bytes were
    written. *)
Definition encoder_ready (w : World) : Prop :=
  zw_live w = true /\ dest w ++ compress (frame w) <> [].

(** Two outcomes of payload loops with the same chunk boundaries and
    the same payload digest. *)
Definition same_chunking (o1 o2 : outcome PL) : Prop :=
  match o1, o2 with
  | Normal s1, Normal s2 =>
      map chunk_boundary (chunks s1) = map chunk_boundary (chunks s2)
      /\ checksum s1 = checksum s2
  | Return e1, Return e2 => e1 = e2
  | OutOfFuel, OutOfFuel => True
  | _, _ => False
  end.

(** Two states of the payload loop that agree on everything but the
    compressed offsets. *)
Definition pl_sim (s1 s2 : PL) : Prop :=
  rcReader s1 = rcReader s2 /\ lastChunkOffset s1 = lastChunkOffset s2
  /\ checksum s1 = checksum s2
  /\ map chunk_boundary (chunks s1) = map chunk_boundary (chunks s2)
  /\ payloadDigester s1 = payloadDigester s2
  /\ chunkDigester s1 = chunkDigester s2 /\ err s1 = err s2
  /\ (startOffset s1 =? 0) = (startOffset s2 =? 0).

(** The output is open; before the first payload byte it is still
    [encoder_ready]. *)
Definition pl_wok (s : PL) (w : World) : Prop :=
  zw_live w = true /\ 0 <= startOffset s
  /\ (startOffset s = 0 -> dest w ++ compress (frame w) <> []).

End Boundaries.

(** ** Chunks as a tiling of the payload *)

(** [cs] covers [[start, stop)] with consecutive non-empty chunks. *)
Fixpoint tiles (start : Z) (cs : list chunk) (stop : Z) : Prop :=
  match cs with
  | [] => start = stop
  | c :: cs' => ChunkOffset c = start /\ 0 < ChunkSize c
                /\ tiles (start + ChunkSize c) cs' stop
  end.

(** The tags of positions [[off, off + size)]. *)
Definition seg (T : list tag) (off size : Z) : list tag :=
  firstn (Z.to_nat size) (skipn (Z.to_nat off) T).

(** The tag at position [i]; outside the payload, [TLit]. *)
Definition tag_at (T : list tag) (i : Z) : tag :=
  if i <? 0 then TLit else nth (Z.to_nat i) T TLit.

Section ChunkShape.
Context {RS : RollSumImpl} {IO : InternalOps}.

(** A [Zeros] chunk is a whole hole; a [Data] chunk has no hole byte. *)
Definition chunk_ok (T : list tag) (c : chunk) : Prop :=
  (ChunkType c = ChunkTypeZeros
   /\ seg T (ChunkOffset c) (ChunkSize c) = repeat THole (Z.to_nat (ChunkSize c))
   /\ tag_at T (ChunkOffset c - 1) = TLit
   /\ tag_at T (ChunkOffset c + ChunkSize c) = TLit)
  \/ (ChunkType c = ChunkTypeData
      /\ seg T (ChunkOffset c) (ChunkSize c) = repeat TLit (Z.to_nat (ChunkSize c))).

(** The state of the payload loop over the payload [p] (ending with
    [io.EOF]) between two iterations, with the output [w]. *)
Definition pl_inv (p : list byte) (st : PL) (w : World) : Prop :=
  let rc := rcReader st in
  let T := tagz holesThreshold 0 p in
  let WO := WrittenOut rc in
  let LCO := lastChunkOffset st in
  rc_inv rc /\ threshold (rc_reader rc) = holesThreshold
  /\ payloadDigester st ++ rc_content rc = p
  /\ WO = Z.of_nat (List.length (payloadDigester st))
  /\ rc_tags rc = skipn (Z.to_nat WO) T
  /\ 0 <= LCO <= WO
  /\ tiles 0 (chunks st) LCO
  /\ Forall (chunk_ok T) (chunks st)
  /\ (0 < pendingHole rc ->
      seg T LCO (WO - LCO) = repeat THole (Z.to_nat (WO - LCO))
      /\ tag_at T (LCO - 1) = TLit)
  /\ (pendingHole rc = 0 ->
      seg T LCO (WO - LCO) = repeat TLit (Z.to_nat (WO - LCO))
      /\ (tag_at T (WO - 1) = TLit \/ lit_headed (rc_tags rc)))
  /\ zw_live w = true /\ 0 <= startOffset st
  /\ (startOffset st = 0 ->
      WO = 0 /\ chunks st = [] /\ dest w ++ compress (frame w) <> []).

End ChunkShape.

(** ** Further states and predicates *)

(** In the [Found] state the detector holds at least [threshold] zeros,
    or none at all once the source failed right after a hole (the
    error leaves the state at [Found]). *)
Definition hf_found_ok (f : holesFinder) : Prop :=
  state f = holesFinderStateFound ->
  threshold f <= zeros f \/ (zeros f = 0 /\ rest (reader f) = []).

(** The detector after a source failed with a non-EOF error [e] right
    after a hole: in [Found], nothing pending, nothing left to read. *)
Definition hf_failed_in_hole (e : goerr) (th : Z) : holesFinder :=
  mkHF (mkSource [] e) 0 th holesFinderStateFound.

Module AsyncWriterLate.
Import AsyncWriter.

(** The goroutine has put the result [res] of [writeZstdChunkedStream]
    into the channel: the slot still holds it, or it was received by a
    [Write] or [Close], which closed the write end of the pipe. *)
Definition sent (res : option goerr) (s : AW) : Prop :=
  (bg s = BgDrain \/ bg s = BgCloseR \/ bg s = BgCloseCh \/ bg s = BgDone)
  /\ (ch_buf s = Some res \/ (ch_buf s = None /\ w_closed s = true)).

(** The states reachable from [init]: before the send nothing is closed
    and the slot is empty. *)
Definition reach (res : option goerr) (s : AW) : Prop :=
  ((bg s = BgRunning \/ bg s = BgSend res) /\ ch_buf s = None
   /\ ch_closed s = false /\ w_closed s = false /\ r_closed s = false)
  \/ sent res s.

(** A [Write] that passed no byte on and reported [res], nil or
    [io.ErrClosedPipe]. *)
Definition wrote_nothing (res : option goerr) (l : label) : Prop :=
  match l with
  | LWrite _ n e => n = 0 /\ (e = res \/ e = None \/ e = Some ErrClosedPipe)
  | _ => True
  end.

End AsyncWriterLate.

(** ** Where the frames of an entry's chunks are *)

Section Frames.
Context {RS : RollSumImpl} {IO : InternalOps}.

(** The frames that the payload segments [segs] give when the first
    one starts at [base] in the output and the first segment at [coff]
    in the payload: for each non-empty segment, its offset in the
    payload, the offset of its frame in the output and its bytes.  An
    empty segment still gives an (empty) frame in the output. *)
Fixpoint frames_of (base coff : Z) (segs : list (list byte))
  : list (Z * Z * list byte) :=
  match segs with
  | [] => []
  | s :: ss =>
      (if 0 <? Z.of_nat (List.length s) then [(coff, base, s)] else [])
      ++ frames_of (base + Z.of_nat (List.length (compress s)))
                   (coff + Z.of_nat (List.length s)) ss
  end.

(** A chunk record describes the frame [f]. *)
Definition chunk_frame (c : chunk) (f : Z * Z * list byte) : Prop :=
  let '(co, o, s) := f in
  ChunkOffset c = co /\ Offset c = o /\ ChunkSize c = Z.of_nat (List.length s)
  /\ Checksum c = digestOf s.

(** The payload loop of an entry that started on the output [w0] is in
    state [st] with output [w]: before the first payload byte nothing
    has changed; afterwards the frame open at the start ([w0]'s entry
    header) was closed at [startOffset], the closed segments of the
    payload follow as one frame each, the open frame holds the current
    chunk, and the chunk records describe the non-empty segments. *)
Definition pl_frames (w0 : World) (st : PL) (w : World) : Prop :=
  zw_live w = true /\ manifest w = manifest w0 /\
  ((startOffset st = 0 /\ w = w0 /\ chunks st = [] /\ payloadDigester st = []
    /\ chunkDigester st = [] /\ lastChunkOffset st = 0
    /\ WrittenOut (rcReader st) = 0)
   \/ exists segs,
       let base := dest w0 ++ compress (frame w0) in
       startOffset st = Z.of_nat (List.length base)
       /\ dest w = base ++ List.concat (map compress segs)
       /\ lastOffset st = Count w
       /\ frame w = chunkDigester st
       /\ payloadDigester st = List.concat segs ++ chunkDigester st
       /\ payloadDigester st <> []
       /\ lastChunkOffset st = Z.of_nat (List.length (List.concat segs))
       /\ WrittenOut (rcReader st)
          = lastChunkOffset st + Z.of_nat (List.length (chunkDigester st))
       /\ Forall2 chunk_frame (chunks st)
                  (frames_of (Z.of_nat (List.length base)) 0 segs)).

(** The chunk record [c] points at its bytes in [payload] and at their
    compressed frame in the output [out]: some byte string [s] of
    [ChunkSize c] bytes with digest [Checksum c] starts at
    [ChunkOffset c] in the payload, and [compress s] starts at
    [Offset c] in the output. *)
Definition chunk_in (payload out : list byte) (c : chunk) : Prop :=
  exists s, ChunkSize c = Z.of_nat (List.length s) /\ Checksum c = digestOf s
    /\ 0 <= ChunkOffset c /\ 0 <= Offset c
    /\ (exists t, skipn (Z.to_nat (ChunkOffset c)) payload = s ++ t)
    /\ (exists t, skipn (Z.to_nat (Offset c)) out = compress s ++ t).

End Frames.

(** ** Runs on an output that may fail *)

(** How a run of a statement can end: [P] holds of the value and the
    world of a normal completion, [E] of what a [return] returns and of
    the world then, and [D] holds if the iteration bound ran out. *)
Definition ends_in {A} (P : A -> World -> Prop) (E : option goerr -> World -> Prop)
           (D : Prop) (r : outcome A * World) : Prop :=
  match r with
  | (Normal a, w) => P a w
  | (Return e, w) => E e w
  | (OutOfFuel, _) => D
  end.

(** A [return] of an error the output reported, in a world whose
    manifest is [m] and whose encoder is live exactly when [l]. *)
Definition out_fail {OF : OutputFaults} (m : option (Z * list internal.FileMetadata))
           (l : bool) (e : option goerr) (w : World) : Prop :=
  (exists g, e = Some g /\ output_error g) /\ manifest w = m /\ zw_live w = l.

(** A [return] of [g] or of an error the output reported, in the same
    kind of world. *)
Definition returns_or_out_fail {OF : OutputFaults} (g : goerr)
           (m : option (Z * list internal.FileMetadata)) (l : bool)
           (e : option goerr) (w : World) : Prop :=
  (e = Some g \/ exists g', e = Some g' /\ output_error g')
  /\ manifest w = m /\ zw_live w = l.

(** * Proofs *)

Lemma goerr_eqb_eq (a b : goerr) : goerr_eqb a b = true <-> a = b.
Proof.
  destruct a, b; simpl; split; intro H; try discriminate; try reflexivity.
  - apply String.eqb_eq in H; subst; reflexivity.
  - inversion H; apply String.eqb_refl.
Qed.

Lemma goerr_eqb_refl (a : goerr) : goerr_eqb a a = true.
Proof. apply goerr_eqb_eq; reflexivity. Qed.

Module AsyncWriterProofs.
Import AsyncWriter.

Lemma inv_pre_init e : inv_pre e init.
Proof. left; repeat split; auto. Qed.

Lemma inv_pre_step e s l s' :
  inv_pre e s -> step (Some e) s l s' ->
  is_close l = false -> write_reported e l = false -> inv_pre e s'.
Proof.
  intros Hinv Hst Hc Hw.
  destruct Hst as [s s' Hbg | s p n e' s' Hwr | s e' s' Hcl]; [| | discriminate].
  - destruct s as [cb cc wc rc b]; unfold inv_pre in *; simpl in *.
    destruct Hinv as [(Hb & Hcb & Hcc & Hwc & Hrc) | (Hb & Hcb & Hcc & Hwc & Hrc)];
      subst; unfold bg_next in Hbg; simpl in Hbg.
    + destruct Hb as [Hb | Hb]; subst; inversion Hbg; subst; simpl.
      * left; repeat split; auto.
      * right; repeat split; auto.
    + discriminate.
  - destruct s as [cb cc wc rc b]; unfold inv_pre in *; simpl in *.
    unfold write_op, recv, pipe_write in Hwr; simpl in Hwr.
    destruct Hinv as [(Hb & Hcb & Hcc & Hwc & Hrc) | (Hb & Hcb & Hcc & Hwc & Hrc)];
      subst; simpl in Hwr.
    + destruct Hb as [Hb | Hb]; subst; inversion Hwr; subst.
      left; repeat split; auto.
    + inversion Hwr; subst; simpl in Hw; rewrite goerr_eqb_refl in Hw; discriminate.
Qed.

Lemma inv_pre_run e s tr s' :
  run (Some e) s tr s' -> inv_pre e s ->
  forallb (fun l => negb (is_close l) && negb (write_reported e l)) tr = true ->
  inv_pre e s'.
Proof.
  induction 1 as [s | s l s1 tr s2 Hst Hrun IH]; intros Hinv Hall; auto.
  simpl in Hall; apply andb_prop in Hall as [Hl Htr].
  apply andb_prop in Hl as [Hc Hw]; apply negb_true_iff in Hc, Hw.
  apply IH; auto; eapply inv_pre_step; eauto.
Qed.

Lemma inv_post_step res s l s' : inv_post s -> step res s l s' -> inv_post s'.
Proof.
  intros Hinv Hst.
  destruct Hst as [s s' Hbg | s p n e' s' Hwr | s e' s' Hcl];
    destruct s as [cb cc wc rc b]; destruct Hinv as (Hcb & Hwc & Hb);
    simpl in *; subst.
  - unfold bg_next in Hbg; simpl in Hbg.
    destruct Hb as [-> | [-> | [-> | ->]]]; inversion Hbg; subst;
      unfold inv_post; simpl; repeat split; auto 6.
  - unfold write_op, recv, pipe_write in Hwr; simpl in Hwr.
    destruct cc; inversion Hwr; subst; unfold inv_post; simpl; repeat split; auto 6.
  - unfold close_op, recv in Hcl; simpl in Hcl.
    destruct cc; inversion Hcl; subst; unfold inv_post; simpl; repeat split; auto 6.
Qed.

Lemma inv_post_run res s tr s' : run res s tr s' -> inv_post s -> inv_post s'.
Proof.
  induction 1; intros; auto.
  apply IHrun; eapply inv_post_step; eauto.
Qed.

Lemma write_post s p :
  inv_post s ->
  exists e' s', write_op s p = Some ((0, e'), s')
                /\ (e' = None \/ e' = Some ErrClosedPipe).
Proof.
  intros (Hcb & Hwc & _).
  destruct s as [cb cc wc rc b]; simpl in *; subst.
  unfold write_op, recv, pipe_write; simpl.
  destruct cc; eexists; eexists; split; eauto.
Qed.

Lemma close_enabled_eventually e s tr :
  run (Some e) init tr s ->
  forallb (fun l => negb (is_close l) && negb (write_reported e l)) tr = true ->
  exists tr' s', run (Some e) s tr' s' /\ Forall (fun l => l = Tau) tr'
                 /\ close_op s' = Some (Some e, close_w (mkAW None false false false BgDrain)).
Proof.
  intros Hrun Hall.
  pose proof (inv_pre_run e _ _ _ Hrun (inv_pre_init e) Hall) as Hinv.
  destruct s as [cb cc wc rc b];
    destruct Hinv as [(Hb & Hcb & Hcc & Hwc & Hrc) | (Hb & Hcb & Hcc & Hwc & Hrc)];
    simpl in *; subst.
  - destruct Hb as [-> | ->].
    + exists [Tau; Tau], (mkAW (Some (Some e)) false false false BgDrain).
      split; [| split; [repeat constructor | reflexivity]].
      econstructor; [constructor; reflexivity |].
      econstructor; [constructor; reflexivity | constructor].
    + exists [Tau], (mkAW (Some (Some e)) false false false BgDrain).
      split; [| split; [repeat constructor | reflexivity]].
      econstructor; [constructor; reflexivity | constructor].
  - exists [], (mkAW (Some (Some e)) false false false BgDrain).
    split; [constructor | split; [constructor | reflexivity]].
Qed.

(** C2 (amended): when the orchestrator fails with [e], a [Close] that
    comes before any [Write] reported [e] returns [e]; the channel hands
    [e] out only once, so a [Write] after that [Close] (whatever the
    goroutine did in between) does not block, writes nothing and returns
    nil or [io.ErrClosedPipe], not [e]. *)
Theorem close_returns_error_write_after_close_does_not
    (e : goerr) (tr tr2 : list label) (s s1 s2 : AW) (r : option goerr) :
  run (Some e) init tr s ->
  forallb (fun l => negb (is_close l) && negb (write_reported e l)) tr = true ->
  close_op s = Some (r, s1) ->
  run (Some e) s1 tr2 s2 ->
  r = Some e /\
  forall p, exists e' s3, write_op s2 p = Some ((0, e'), s3)
                          /\ (e' = None \/ e' = Some ErrClosedPipe).
Proof.
  intros Hrun Hall Hcl Hrun2.
  pose proof (inv_pre_run e _ _ _ Hrun (inv_pre_init e) Hall) as Hinv.
  destruct s as [cb cc wc rc b];
    destruct Hinv as [(Hb & Hcb & Hcc & Hwc & Hrc) | (Hb & Hcb & Hcc & Hwc & Hrc)];
    simpl in *; subst; unfold close_op, recv in Hcl; simpl in Hcl.
  - discriminate.
  - inversion Hcl; subst; clear Hcl; split; [reflexivity |].
    intro p; apply write_post.
    eapply inv_post_run; [exact Hrun2 |].
    unfold inv_post; simpl; repeat split; auto.
Qed.


Lemma close_returns_error_write_after_close_does_not_witness :
  (run (Some boom) init [Tau; Tau] aw_drain
   /\ forallb (fun l => negb (is_close l) && negb (write_reported boom l)) [Tau; Tau] = true
   /\ close_op aw_drain = Some (Some boom, aw_closed)
   /\ run (Some boom) aw_closed [] aw_closed)
  /\ (Some boom = Some boom /\
      forall p, exists e' s3, write_op aw_closed p = Some ((0, e'), s3)
                              /\ (e' = None \/ e' = Some ErrClosedPipe)).
Proof.
  assert (H1 : run (Some boom) init [Tau; Tau] aw_drain).
  { econstructor; [constructor; reflexivity |].
    econstructor; [constructor; reflexivity | constructor]. }
  assert (H3 : close_op aw_drain = Some (Some boom, aw_closed)) by reflexivity.
  split; [repeat split; auto; constructor |].
  apply (close_returns_error_write_after_close_does_not
           boom [Tau; Tau] [] aw_drain aw_closed aw_closed (Some boom));
    [exact H1 | reflexivity | exact H3 | constructor].
Defined.

(** C2 as stated fails: after [Close] returned the orchestrator's error,
    the next [Write] returns [io.ErrClosedPipe], not that error. *)
Lemma write_after_close_repeats_error_counterexample :
  ~ (forall (e : goerr) tr s r s1 tr2 s2 p n r' s3,
        run (Some e) init tr s -> close_op s = Some (r, s1) ->
        run (Some e) s1 tr2 s2 -> write_op s2 p = Some ((n, r'), s3) ->
        r = Some e /\ r' = Some e).
Proof.
  intro H.
  assert (Hrun : run (Some boom) init [Tau; Tau] aw_drain).
  { econstructor; [constructor; reflexivity |].
    econstructor; [constructor; reflexivity | constructor]. }
  destruct (H boom [Tau; Tau] aw_drain (Some boom) aw_closed [] aw_closed
              [x61] 0 (Some ErrClosedPipe) aw_closed Hrun eq_refl
              (run_nil _ _) eq_refl) as [_ Hw].
  discriminate.
Qed.

End AsyncWriterProofs.

(** ** The payload source's read errors *)

(** C1 (code bug): the payload source fails with [io.ErrUnexpectedEOF]
    after one byte; [writeZstdChunkedStream] returns nil instead of that
    error (line 277 returns [err], the nil error of [tr.Next()], not
    [errRead]) and never calls the manifest writer. *)
Theorem writeZstdChunkedStream_swallows_payload_read_error :
  fst (@writeZstdChunkedStream Concrete.bupRollSumImpl Concrete.storedOps reliableOutput
         Concrete.ar_trunc 3) = Return None
  /\ manifest (snd (@writeZstdChunkedStream Concrete.bupRollSumImpl
                      Concrete.storedOps reliableOutput Concrete.ar_trunc 3)) = None.
Proof. vm_compute; split; reflexivity. Qed.

(** ** holesFinder.readByte *)

Ltac destruct_ifs H :=
  repeat match type of H with
         | context [if ?c then _ else _] => destruct c eqn:?
         | context [match ?x with _ => _ end] => destruct x eqn:?
         end.

Lemma hf_step_measure f f' :
  hf_step f = HContinue f' -> (hf_measure f' < hf_measure f)%nat.
Proof.
  destruct f as [[r e] z t st]; unfold hf_step, hf_measure; simpl.
  intro H; destruct st, r as [| b0 r]; simpl in H; destruct_ifs H; simpl in *;
    try discriminate; inversion H; subst; simpl; lia.
Qed.

Lemma readByte_fuel_some n f :
  (hf_measure f < n)%nat ->
  readByte_fuel n f <> None
  /\ forall m, (hf_measure f < m)%nat -> readByte_fuel m f = readByte_fuel n f.
Proof.
  revert f; induction n as [| n IH]; intros f Hn; [lia |].
  simpl; destruct (hf_step f) as [f' | h b e f'] eqn:Hs.
  - pose proof (hf_step_measure _ _ Hs) as Hm.
    destruct (IH f') as [IH1 IH2]; [lia |].
    split; [exact IH1 |].
    intros m Hm'; destruct m as [| m]; [lia |]; simpl; rewrite Hs.
    apply IH2; lia.
  - split; [discriminate |].
    intros m Hm'; destruct m as [| m]; [lia |]; simpl; rewrite Hs; reflexivity.
Qed.

(** [readByte] runs the loop body until it returns. *)
Lemma readByte_unfold f :
  readByte f = match hf_step f with
               | HReturn h b e f' => ((h, b, e), f')
               | HContinue f' => readByte f'
               end.
Proof.
  unfold readByte at 1; simpl.
  destruct (hf_step f) as [f' | h b e f'] eqn:Hs; [| reflexivity].
  pose proof (hf_step_measure _ _ Hs) as Hm.
  destruct (readByte_fuel_some (S (hf_measure f')) f') as [H1 H2]; [lia |].
  rewrite (H2 (hf_measure f)) by lia.
  unfold readByte; destruct (readByte_fuel (S (hf_measure f')) f');
    [reflexivity | contradiction].
Qed.

Lemma byte_eqb_ne (b : byte) : b <> x00 -> Byte.eqb b x00 = false.
Proof.
  intro H; destruct (Byte.eqb b x00) eqn:E; [| reflexivity].
  apply Byte.byte_dec_bl in E; contradiction.
Qed.

(** A run of zeros ends at a non-zero byte or at the end of the stream. *)
Lemma found_phase th r e k z :
  (r = [] /\ e = EOF) \/ (exists b r', r = b :: r' /\ b <> x00) ->
  readByte (mkHF (mkSource (repeat x00 k ++ r) e) z th holesFinderStateFound)
  = ((z + Z.of_nat k, x00, None), mkHF (mkSource r e) 0 th (after_run r)).
Proof.
  intro Hr; revert z; induction k as [| k IH]; intro z.
  - rewrite readByte_unfold; unfold hf_step; simpl.
    destruct Hr as [[-> ->] | (b & r' & -> & Hb)]; simpl.
    + f_equal; f_equal; f_equal; lia.
    + rewrite byte_eqb_ne by exact Hb; simpl.
      f_equal; f_equal; f_equal; lia.
  - rewrite readByte_unfold; unfold hf_step; simpl.
    unfold set_zeros, set_reader; simpl.
    rewrite IH; f_equal; f_equal; f_equal; lia.
Qed.

Lemma accumulate_phase th r e k z :
  (r = [] /\ e = EOF) \/ (exists b r', r = b :: r' /\ b <> x00) ->
  1 <= z < th ->
  readByte (mkHF (mkSource (repeat x00 k ++ r) e) z th holesFinderStateAccumulate)
  = if z + Z.of_nat k <? th
    then ((0, x00, None), mkHF (mkSource r e) (z + Z.of_nat k - 1) th (after_run r))
    else ((z + Z.of_nat k, x00, None), mkHF (mkSource r e) 0 th (after_run r)).
Proof.
  intro Hr; revert z; induction k as [| k IH]; intros z Hz.
  - replace (z + Z.of_nat 0 <? th) with true by (symmetry; apply Z.ltb_lt; lia).
    rewrite readByte_unfold; unfold hf_step; simpl.
    destruct Hr as [[-> ->] | (b & r' & -> & Hb)]; simpl.
    + rewrite readByte_unfold; unfold hf_step; simpl.
      replace (0 <? z) with true by (symmetry; apply Z.ltb_lt; lia).
      unfold set_zeros; simpl; f_equal; f_equal; lia.
    + rewrite byte_eqb_ne by exact Hb; simpl.
      rewrite readByte_unfold; unfold hf_step; simpl.
      replace (0 <? z) with true by (symmetry; apply Z.ltb_lt; lia).
      unfold set_zeros; simpl; f_equal; f_equal; lia.
  - rewrite readByte_unfold; unfold hf_step; simpl.
    unfold set_zeros, set_reader, set_state; simpl.
    destruct (z + 1 =? th) eqn:Eth.
    + apply Z.eqb_eq in Eth.
      rewrite found_phase by exact Hr.
      match goal with |- context [?a <? th] => destruct (Z.ltb_spec a th) end;
        [lia |].
      f_equal; f_equal; f_equal; lia.
    + apply Z.eqb_neq in Eth.
      rewrite IH by lia.
      rewrite Zpos_P_of_succ_nat; unfold Z.succ.
      replace (z + (Z.of_nat k + 1)) with (z + 1 + Z.of_nat k) by lia.
      reflexivity.
Qed.

(** Pending zeros are replayed one literal zero at a time. *)
Lemma replay_zeros n src th st :
  st = holesFinderStateRead \/ st = holesFinderStateEOF ->
  readBytes n (mkHF src (Z.of_nat n) th st)
  = (repeat (0, x00, None) n, mkHF src 0 th st).
Proof.
  intro Hst; induction n as [| n IH]; [reflexivity |].
  cbn [readBytes]; rewrite readByte_unfold.
  destruct Hst as [Hs | Hs]; subst st; unfold hf_step; cbn [state zeros];
    rewrite (proj2 (Z.ltb_lt 0 (Z.of_nat (S n)))) by lia;
    unfold set_zeros; cbn [reader threshold state];
    replace (Z.of_nat (S n) - 1) with (Z.of_nat n) by lia;
    rewrite IH; reflexivity.
Qed.

(** C5: a run of exactly [L] zeros (ended by a non-zero byte or by the
    end of the stream) read from the [Read] state.  When [L >= threshold]
    one call of [readByte] reports a hole of length [L]; when
    [L < threshold] the next [L] calls return [L] literal zero bytes and
    no hole.  Either way the detector is then positioned after the run
    with no zeros pending.  The boundary cases [L = threshold] and
    [L = threshold - 1] are instances. *)
Theorem readByte_zero_run (th : Z) (L : nat) (r : list byte) (e : goerr) :
  1 <= th -> (1 <= L)%nat ->
  (r = [] /\ e = EOF) \/ (exists b r', r = b :: r' /\ b <> x00) ->
  (th <= Z.of_nat L ->
     readByte (mkHF (mkSource (repeat x00 L ++ r) e) 0 th holesFinderStateRead)
     = ((Z.of_nat L, x00, None), mkHF (mkSource r e) 0 th (after_run r)))
  /\ (Z.of_nat L < th ->
     readBytes L (mkHF (mkSource (repeat x00 L ++ r) e) 0 th holesFinderStateRead)
     = (repeat (0, x00, None) L, mkHF (mkSource r e) 0 th (after_run r))).
Proof.
  intros Hth HL Hr.
  destruct L as [| L]; [lia |].
  assert (Hst : after_run r = holesFinderStateRead \/ after_run r = holesFinderStateEOF)
    by (destruct r; simpl; auto).
  destruct (Z.eqb_spec 1 th) as [E | E].
  - subst th; split; intro HLt; [| lia].
    rewrite readByte_unfold; unfold hf_step; simpl.
    unfold set_zeros, set_reader, set_state; simpl.
    rewrite found_phase by exact Hr.
    f_equal; f_equal; f_equal; lia.
  - assert (Hacc : readByte (mkHF (mkSource (repeat x00 (S L) ++ r) e) 0 th
                                 holesFinderStateRead)
                   = readByte (mkHF (mkSource (repeat x00 L ++ r) e) 1 th
                                    holesFinderStateAccumulate)).
    { rewrite readByte_unfold; unfold hf_step; simpl.
      unfold set_zeros, set_reader, set_state; simpl.
      change (match th with Z.pos q => (1 =? q)%positive | _ => false end)
        with (1 =? th).
      destruct (Z.eqb_spec 1 th); [contradiction | reflexivity]. }
    rewrite accumulate_phase in Hacc by (auto; lia).
    split; intro HLt.
    + rewrite Hacc.
      destruct (Z.ltb_spec (1 + Z.of_nat L) th); [lia |].
      f_equal; f_equal; f_equal; lia.
    + cbn [readBytes]; rewrite Hacc.
      destruct (Z.ltb_spec (1 + Z.of_nat L) th); [| lia].
      replace (1 + Z.of_nat L - 1) with (Z.of_nat L) by lia.
      rewrite replay_zeros by exact Hst; reflexivity.
Qed.

Lemma readByte_zero_run_witness :
  (1 <= holesThreshold /\ (1 <= 1024)%nat
   /\ (([x61] : list byte) = [] /\ EOF = EOF
       \/ (exists b r', ([x61] : list byte) = b :: r' /\ b <> x00)))
  /\ ((holesThreshold <= Z.of_nat 1024 ->
       readByte (mkHF (mkSource (repeat x00 1024 ++ [x61]) EOF) 0 holesThreshold
                      holesFinderStateRead)
       = ((Z.of_nat 1024, x00, None),
          mkHF (mkSource [x61] EOF) 0 holesThreshold (after_run [x61])))
      /\ (Z.of_nat 1024 < holesThreshold ->
          readBytes 1024 (mkHF (mkSource (repeat x00 1024 ++ [x61]) EOF) 0
                               holesThreshold holesFinderStateRead)
          = (repeat (0, x00, None) 1024,
             mkHF (mkSource [x61] EOF) 0 holesThreshold (after_run [x61])))).
Proof.
  assert (Hr : ([x61] : list byte) = [] /\ EOF = EOF
               \/ (exists b r', ([x61] : list byte) = b :: r' /\ b <> x00))
    by (right; exists x61, []; split; [reflexivity | discriminate]).
  assert (Hth : 1 <= holesThreshold) by (vm_compute; discriminate).
  split; [split; [exact Hth | split; [lia | exact Hr]] |].
  apply readByte_zero_run; [exact Hth | lia | exact Hr].
Defined.

(** ** rollingChecksumReader.Read *)

Section ReadProofs.
Context {RS : RollSumImpl}.

(** C10: once [closed] is set and no hole is pending, [Read] returns
    [(false, 0, io.EOF)] without calling the hole detector, and leaves
    [closed], [pendingHole] and the detector as they were, so every later
    call does the same. *)
Theorem Read_after_EOF_sticky (blen : Z) (rc : rollingChecksumReader) :
  closed rc = true -> pendingHole rc <= 0 ->
  fst (Read blen rc) = mkRR false 0 [] (Some EOF)
  /\ rc_reader (snd (Read blen rc)) = rc_reader rc
  /\ closed (snd (Read blen rc)) = true
  /\ pendingHole (snd (Read blen rc)) = pendingHole rc.
Proof.
  intros Hc Hp; unfold Read.
  destruct rc as [f c rs ph wo z]; simpl in *; subst c.
  destruct (Z.ltb_spec 0 ph); [lia |].
  repeat split; reflexivity.
Qed.

End ReadProofs.

Lemma Read_after_EOF_sticky_witness :
  let rc := @mkRC Concrete.noSplitRollSum
              (mkHF (mkSource [] EOF) 0 holesThreshold holesFinderStateEOF)
              true tt 0 5 false in
  (closed rc = true /\ pendingHole rc <= 0)
  /\ (fst (Read buflen rc) = mkRR false 0 [] (Some EOF)
      /\ rc_reader (snd (Read buflen rc)) = rc_reader rc
      /\ closed (snd (Read buflen rc)) = true
      /\ pendingHole (snd (Read buflen rc)) = pendingHole rc).
Proof.
  intro rc; split; [split; [reflexivity | simpl; lia] |].
  apply Read_after_EOF_sticky; [reflexivity | simpl; lia].
Defined.

(** ** The metadata records of one entry *)

Section EntryRecords.
Context {RS : RollSumImpl} {IO : InternalOps}.

Lemma backfill_secondary h (l : list chunk) :
  backfill (map (secondaryFM h) l) l
  = map (fun c => backfillFM (secondaryFM h c) c) l.
Proof. induction l as [| c l IH]; simpl; [reflexivity | rewrite IH; reflexivity]. Qed.

(** C7: with more than one chunk, record [i] carries the size, the
    compressed offset, the digest and the type of chunk [i], for every [i]
    including the primary record [0], and every record after the first is
    a [TypeChunk] record of the same file carrying the offset of its chunk
    in the payload; with exactly one chunk the entry has the primary
    record alone, whose chunk fields keep their zero values. *)
Theorem build_entries_merge_rule (h : Header) (typ : string)
        (xattrs : list (string * string)) (st : PL) :
  let es := build_entries h typ xattrs st in
  ((1 < List.length (chunks st))%nat ->
    Forall2 (fun e c => internal.ChunkSize e = ChunkSize c
                        /\ internal.Offset e = Offset c
                        /\ internal.ChunkDigest e = Checksum c
                        /\ internal.ChunkType e = ChunkType c) es (chunks st)
    /\ Forall2 (fun e c => internal.Type_ e = TypeChunk
                           /\ internal.Name e = Name h
                           /\ internal.ChunkOffset e = ChunkOffset c)
               (tl es) (tl (chunks st))
    /\ internal.Type_ (hd internal.emptyFM es) = typ
    /\ internal.Digest (hd internal.emptyFM es) = checksum st
    /\ internal.EndOffset (hd internal.emptyFM es) = lastOffset st)
  /\ (List.length (chunks st) = 1%nat ->
    es = [primaryFM h typ xattrs (checksum st) (startOffset st) (lastOffset st)]).
Proof.
  intros es; subst es; unfold build_entries.
  destruct (chunks st) as [| c0 [| c1 cs]] eqn:Hc;
    split; intro Hlen; simpl in Hlen; try lia; try reflexivity.
  replace (1 <? Z.of_nat (List.length (c0 :: c1 :: cs))) with true
    by (symmetry; apply Z.ltb_lt; simpl; lia).
  simpl tl; cbn [backfill map].
  rewrite backfill_secondary.
  repeat split; simpl.
  - apply Forall2_cons; [repeat split |].
    apply Forall2_cons; [repeat split |].
    clear Hc Hlen; induction cs as [| c cs IH]; simpl;
      [apply Forall2_nil | apply Forall2_cons; [repeat split | exact IH]].
  - apply Forall2_cons; [repeat split |].
    clear Hc Hlen; induction cs as [| c cs IH]; simpl;
      [apply Forall2_nil | apply Forall2_cons; [repeat split | exact IH]].
Qed.

End EntryRecords.

Section EmptyEntry.
Context {RS : RollSumImpl} {IO : InternalOps}.

(** C8: an entry whose payload is empty adds exactly one record to the
    metadata: the primary record, with an empty digest and [Offset] and
    [EndOffset] both zero. *)
Theorem process_entry_empty_payload (h : Header) (raw : list byte)
        (metadata : list internal.FileMetadata) (w : World) (typ : string) :
  GetType (Typeflag h) = (typ, None) ->
  exists r w',
    process_entry (mkEntry h raw (mkSource [] EOF)) metadata w
      = (Normal (metadata ++ [r]), w')
    /\ internal.Type_ r = typ
    /\ internal.Digest r = ""%string
    /\ internal.Offset r = 0
    /\ internal.EndOffset r = 0.
Proof.
  intros Htyp. unfold process_entry. cbn.
  rewrite Htyp.
  eexists; eexists; split; [reflexivity | repeat split].
Qed.

End EmptyEntry.

Lemma process_entry_empty_payload_witness :
  @GetType Concrete.storedOps (Typeflag Concrete.hdrA) = ("reg"%string, None)
  /\ exists r w',
    @process_entry Concrete.bupRollSumImpl Concrete.storedOps reliableOutput
      (mkEntry Concrete.hdrA Concrete.blk (mkSource [] EOF)) []
      (mkWorld [] [] true None)
      = (Normal ([] ++ [r]), w')
    /\ internal.Type_ r = "reg"%string
    /\ internal.Digest r = ""%string
    /\ internal.Offset r = 0
    /\ internal.EndOffset r = 0.
Proof.
  split; [reflexivity |].
  apply (@process_entry_empty_payload Concrete.bupRollSumImpl Concrete.storedOps).
  reflexivity.
Defined.

(** ** What the hole detector delivers *)

Lemma byte_eqb_x00 (b : byte) : Byte.eqb b x00 = true <-> b = x00.
Proof. split; [apply Byte.byte_dec_bl | intros ->; reflexivity]. Qed.

Lemma to_nat_pred (z : Z) : 0 < z -> Z.to_nat z = S (Z.to_nat (z - 1)).
Proof. intros; rewrite <- Z2Nat.inj_succ by lia; f_equal; lia. Qed.

Lemma to_nat_succ (z : Z) : 0 <= z -> Z.to_nat (z + 1) = S (Z.to_nat z).
Proof. intros; rewrite Z.add_1_r, Z2Nat.inj_succ by lia; reflexivity. Qed.

Lemma repeat_snoc {A} (x : A) n (l : list A) :
  repeat x n ++ x :: l = repeat x (S n) ++ l.
Proof. induction n; simpl; [reflexivity | rewrite IHn; reflexivity]. Qed.

Lemma tagz_lit th z b r :
  b <> x00 -> Z.of_nat z < th ->
  tagz th z (b :: r) = repeat TLit z ++ TLit :: tagz th 0 r.
Proof.
  intros Hb Hz; simpl; rewrite byte_eqb_ne by exact Hb.
  replace (th <=? Z.of_nat z) with false by (symmetry; apply Z.leb_gt; lia).
  reflexivity.
Qed.

Lemma tagz_hole th z b r :
  b <> x00 -> th <= Z.of_nat z ->
  tagz th z (b :: r) = repeat THole z ++ TLit :: tagz th 0 r.
Proof.
  intros Hb Hz; simpl; rewrite byte_eqb_ne by exact Hb.
  replace (th <=? Z.of_nat z) with true by (symmetry; apply Z.leb_le; lia).
  reflexivity.
Qed.

Lemma tagz_zero th z r : tagz th z (x00 :: r) = tagz th (S z) r.
Proof. reflexivity. Qed.

Lemma hf_step_spec (f : holesFinder) :
  hf_inv f ->
  match hf_step f with
  | HContinue f' =>
      hf_inv f' /\ threshold f' = threshold f
      /\ hf_content f' = hf_content f /\ hf_tags f' = hf_tags f
  | HReturn h b e f' =>
      hf_inv f' /\ threshold f' = threshold f /\
      match e with
      | Some EOF => h = 0 /\ hf_content f = [] /\ hf_content f' = []
      | Some _ => False
      | None =>
          (h = 0 /\ hf_content f = b :: hf_content f'
                 /\ hf_tags f = TLit :: hf_tags f')
          \/ (0 < h /\ hf_content f = repeat x00 (Z.to_nat h) ++ hf_content f'
                    /\ hf_tags f = repeat THole (Z.to_nat h) ++ hf_tags f'
                    /\ lit_headed (hf_tags f'))
      end
  end.
Proof.
  destruct f as [[r e] z th st]; unfold hf_inv, hf_content, hf_tags; cbn -[tagz].
  intros (He & Hth & Hz & Hst); subst e.
  destruct st; unfold hf_step; cbn -[tagz].
  - (* holesFinderStateRead *)
    destruct Hst as [Hzt Hnz].
    destruct (Z.ltb_spec 0 z) as [Hpos | Hnpos].
    + destruct (Hnz Hpos) as (b & r' & -> & Hb); cbn -[tagz].
      split; [repeat split; try lia; intros; exists b, r'; auto |].
      split; [reflexivity |]. left.
      rewrite (to_nat_pred z) by lia.
      split; [reflexivity | split; [reflexivity |]].
      rewrite !tagz_lit by (auto; rewrite ?Z2Nat.id by lia; lia).
      reflexivity.
    + assert (z = 0) by lia; subst z; cbn -[tagz].
      destruct r as [| b r']; cbn -[tagz].
      * split; [repeat split; try lia; auto |]. split; [reflexivity |].
        repeat split.
      * destruct (Byte.eqb b x00) eqn:Hb; cbn -[tagz].
        -- apply byte_eqb_x00 in Hb; subst b.
           change (match th with Z.pos q => (1 =? q)%positive | _ => false end)
             with (1 =? th).
           destruct (Z.eqb_spec 1 th); cbn -[tagz].
           ++ repeat split; try lia.
           ++ repeat split; try lia.
        -- assert (b <> x00) by (intro; subst; discriminate).
           split; [repeat split; try lia |]. split; [reflexivity |].
           left; split; [reflexivity | split; [reflexivity |]].
           rewrite tagz_lit by (auto; cbn -[tagz]; lia); reflexivity.
  - (* holesFinderStateAccumulate *)
    destruct r as [| b r']; cbn -[tagz].
    + repeat split; lia.
    + destruct (Byte.eqb b x00) eqn:Hb; cbn -[tagz].
      * apply byte_eqb_x00 in Hb; subst b.
        destruct (Z.eqb_spec (z + 1) th); cbn -[tagz];
          (split; [repeat split; lia |]); (split; [reflexivity |]);
          rewrite (to_nat_succ z) by lia;
          (split; [rewrite repeat_snoc; reflexivity | reflexivity]).
      * assert (b <> x00) by (intro; subst; discriminate).
        split; [repeat split; try lia; intros; exists b, r'; auto |].
        repeat split.
  - (* holesFinderStateFound *)
    destruct r as [| b r']; cbn -[tagz].
    + split; [repeat split; lia |]. split; [reflexivity |].
      right; split; [lia |]. rewrite app_nil_r.
      split; [reflexivity |].
      split; [| exact I].
      simpl; rewrite Z2Nat.id by lia.
      replace (th <=? z) with true by (symmetry; apply Z.leb_le; lia).
      rewrite app_nil_r; reflexivity.
    + destruct (Byte.eqb b x00) eqn:Hb; cbn -[tagz].
      * apply byte_eqb_x00 in Hb; subst b.
        split; [repeat split; lia |]. split; [reflexivity |].
        rewrite (to_nat_succ z) by lia.
        split; [rewrite repeat_snoc; reflexivity | reflexivity].
      * assert (b <> x00) by (intro; subst; discriminate).
        split; [repeat split; lia |]. split; [reflexivity |].
        right; split; [lia | split; [reflexivity |]].
        rewrite tagz_hole by (auto; rewrite Z2Nat.id by lia; lia).
        rewrite (tagz_lit th 0) by (auto; cbn -[tagz]; lia).
        split; [reflexivity | exact I].
  - (* holesFinderStateEOF *)
    destruct Hst as [Hzt ->].
    destruct (Z.ltb_spec 0 z) as [Hpos | Hnpos]; cbn -[tagz].
    + split; [repeat split; lia |]. split; [reflexivity |].
      left; split; [reflexivity |].
      rewrite (to_nat_pred z) by lia.
      split; [reflexivity |].
      rewrite <- (to_nat_pred z) by lia.
      simpl; rewrite !Z2Nat.id by lia.
      replace (th <=? z) with false by (symmetry; apply Z.leb_gt; lia).
      replace (th <=? z - 1) with false by (symmetry; apply Z.leb_gt; lia).
      rewrite (to_nat_pred z) by lia; reflexivity.
    + assert (z = 0) by lia; subst z.
      repeat split; lia.
Qed.

Lemma readByte_spec (f : holesFinder) :
  hf_inv f ->
  match readByte f with
  | ((h, b, e), f') =>
      hf_inv f' /\ threshold f' = threshold f /\
      match e with
      | Some EOF => h = 0 /\ hf_content f = [] /\ hf_content f' = []
      | Some _ => False
      | None =>
          (h = 0 /\ hf_content f = b :: hf_content f'
                 /\ hf_tags f = TLit :: hf_tags f')
          \/ (0 < h /\ hf_content f = repeat x00 (Z.to_nat h) ++ hf_content f'
                    /\ hf_tags f = repeat THole (Z.to_nat h) ++ hf_tags f'
                    /\ lit_headed (hf_tags f'))
      end
  end.
Proof.
  remember (hf_measure f) as n eqn:Hn; revert f Hn.
  induction n as [n IH] using (well_founded_induction lt_wf); intros f Hn Hinv.
  rewrite readByte_unfold.
  pose proof (hf_step_spec f Hinv) as Hspec.
  destruct (hf_step f) as [f' | h b e f'] eqn:Hs; [| exact Hspec].
  destruct Hspec as (Hinv' & Hth & Hc & Ht).
  specialize (IH (hf_measure f') ltac:(subst n; apply hf_step_measure; exact Hs)
                 f' eq_refl Hinv').
  destruct (readByte f') as [[[h b] e] f''].
  rewrite <- Hc, <- Ht, <- Hth. exact IH.
Qed.

Lemma hf_content_nil_tags (f : holesFinder) :
  hf_content f = [] -> hf_tags f = [].
Proof.
  unfold hf_content, hf_tags; intros H.
  apply app_eq_nil in H as [H1 H2]; rewrite H2.
  destruct (Z.to_nat (zeros f)); [reflexivity | discriminate].
Qed.

(** ** What [rollingChecksumReader.Read] delivers *)

Section ReadContent.
Context {RS : RollSumImpl}.

Lemma rc_content_nil_tags (rc : rollingChecksumReader) :
  rc_content rc = [] -> rc_tags rc = [].
Proof.
  unfold rc_content, rc_tags; intros H.
  apply app_eq_nil in H as [H1 H2].
  destruct (Z.to_nat (pendingHole rc)); [| discriminate]; simpl.
  destruct (closed rc); [reflexivity | apply hf_content_nil_tags; exact H2].
Qed.

Ltac rcinv_tac H :=
  split; [exact H | cbn -[tagz]; split; [lia | split; intros;
    first [reflexivity | lia | assumption | discriminate]]].

Lemma rc_loop_spec (k : nat) (i : Z) (acc : list byte) (rc : rollingChecksumReader) :
  rc_inv rc -> closed rc = false -> pendingHole rc = 0 ->
  i = Z.of_nat (List.length acc) ->
  match rc_loop k i acc rc with
  | (r, rc') =>
    rc_inv rc' /\ IsLastChunkZeros rc' = IsLastChunkZeros rc
    /\ threshold (rc_reader rc') = threshold (rc_reader rc) /\
    match rerr r with
    | Some EOF =>
        acc = [] /\ data r = [] /\ nread r = 0 /\ mustSplit r = false
        /\ rc_content rc = [] /\ rc_content rc' = []
        /\ WrittenOut rc' = WrittenOut rc /\ pendingHole rc' = 0
    | Some _ => False
    | None =>
        exists d, data r = rev acc ++ d /\ rc_content rc = d ++ rc_content rc'
        /\ rc_tags rc = repeat TLit (List.length d) ++ rc_tags rc'
        /\ nread r = Z.of_nat (List.length (data r))
        /\ WrittenOut rc' = WrittenOut rc + Z.of_nat (List.length d)
        /\ (0 < pendingHole rc' -> mustSplit r = true)
        /\ (rc_measure rc' <= rc_measure rc)%nat
        /\ (k <> O -> (rc_measure rc' < rc_measure rc)%nat)
    end
  end.
Proof.
  revert i acc rc; induction k as [| k IH]; intros i acc rc Hinv Hcl Hph Hi.
  - simpl. split; [exact Hinv |]. split; [reflexivity |]. split; [reflexivity |].
    exists []; rewrite !app_nil_r; simpl.
    repeat split; try lia.
    rewrite Hi, length_rev; reflexivity.
  - destruct rc as [f cl rs ph wo lz]; simpl in Hcl, Hph; subst cl ph.
    destruct Hinv as (Hf & _ & _ & _); simpl in Hf.
    pose proof (readByte_spec f Hf) as Hrb.
    cbn [rc_loop rc_reader].
    unfold rc_set_rollsum, rc_set_WrittenOut, rc_set_reader, rc_set_closed,
      rc_set_pendingHole.
    destruct (readByte f) as [[[h b] e] f'] eqn:Hrf.
    destruct Hrb as (Hf' & Hth & He).
    unfold rc_content, rc_tags, rc_measure, rc_inv in *; cbn -[tagz] in *.
    destruct e as [e |].
    + destruct e; try contradiction.
      destruct He as (-> & Hc & Hc').
      cbn -[tagz].
      destruct (Z.eqb_spec i 0) as [Hi0 | Hi0]; cbn -[tagz].
      * destruct acc; [| simpl in Hi; lia].
        split; [rcinv_tac Hf' |].
        split; [reflexivity |]. split; [exact Hth |].
        repeat split; auto; rewrite Hc; reflexivity.
      * split; [rcinv_tac Hf' |].
        split; [reflexivity |]. split; [exact Hth |].
        exists []; rewrite !app_nil_r; rewrite Hc, (hf_content_nil_tags f Hc).
        repeat split; simpl; try lia.
        rewrite Hi, length_rev; reflexivity.
    + destruct He as [(-> & Hc & Ht) | (Hh & Hc & Ht & Hlh)].
      * cbn -[tagz].
        destruct (OnSplitWithBits (Roll rs b) RollsumBits) eqn:Hsplit.
        -- split; [rcinv_tac Hf' |].
           split; [reflexivity |]. split; [exact Hth |].
           exists [b]; simpl; rewrite Hc, Ht.
           repeat split; simpl; try lia; try (intros; simpl; lia).
           rewrite length_app, length_rev; simpl; lia.
        -- specialize (IH (i + 1) (b :: acc)
                          (mkRC f' false (Roll rs b) 0 (wo + 1) lz)).
           destruct (rc_loop k (i + 1) (b :: acc)
                       (mkRC f' false (Roll rs b) 0 (wo + 1) lz)) as [r rc'].
           destruct IH as (Hinv' & Hlz & Hth' & Hres);
             [rcinv_tac Hf' | reflexivity | reflexivity
             | simpl; lia |].
           unfold rc_content, rc_tags, rc_measure in *; cbn -[tagz] in *.
           split; [exact Hinv' |]. split; [exact Hlz |].
           split; [congruence |].
           destruct (rerr r) as [e |]; [destruct e; try exact Hres |].
           ++ destruct Hres as (Hacc & _); discriminate.
           ++ destruct Hres as (d & Hd & Hc2 & Ht2 & Hn & Hwo & Hms & Hm1 & Hm2).
              exists (b :: d); simpl.
              rewrite Hd, <- app_assoc; simpl.
              repeat split; auto.
              ** rewrite Hc, Hc2; reflexivity.
              ** rewrite Ht, Ht2; reflexivity.
              ** rewrite Hn, Hd, <- app_assoc; reflexivity.
              ** lia.
              ** rewrite Hc in *; simpl in *; lia.
              ** intros _; rewrite Hc in *; simpl in *; lia.
      * replace (0 <? h) with true by (symmetry; apply Z.ltb_lt; exact Hh).
        cbn -[tagz].
        split; [rcinv_tac Hf' |].
        split; [reflexivity |]. split; [exact Hth |].
        exists []; rewrite !app_nil_r, Hc, Ht; simpl.
        repeat split; try lia.
        -- rewrite Hi, length_rev; reflexivity.
        -- rewrite length_app, repeat_length; lia.
        -- intros _; rewrite length_app, repeat_length; lia.
Qed.

Lemma repeat_Zsplit {A} (x : A) (n m : Z) :
  0 <= n <= m ->
  repeat x (Z.to_nat m) = repeat x (Z.to_nat n) ++ repeat x (Z.to_nat (m - n)).
Proof.
  intros H; rewrite <- repeat_app; f_equal; lia.
Qed.

Lemma Read_spec (blen : Z) (rc : rollingChecksumReader) :
  1 <= blen -> rc_inv rc ->
  match Read blen rc with
  | (r, rc') =>
    rc_inv rc' /\ threshold (rc_reader rc') = threshold (rc_reader rc) /\
    match rerr r with
    | Some EOF =>
        data r = [] /\ nread r = 0 /\ mustSplit r = false
        /\ rc_content rc = [] /\ rc_content rc' = []
        /\ WrittenOut rc' = WrittenOut rc /\ IsLastChunkZeros rc' = false
        /\ pendingHole rc = 0 /\ pendingHole rc' = 0
    | Some _ => False
    | None =>
        rc_content rc = data r ++ rc_content rc'
        /\ nread r = Z.of_nat (List.length (data r))
        /\ WrittenOut rc' = WrittenOut rc + nread r
        /\ (rc_measure rc' < rc_measure rc)%nat
        /\ if IsLastChunkZeros rc' then
             0 < pendingHole rc /\ 0 < nread r
             /\ rc_tags rc = repeat THole (List.length (data r)) ++ rc_tags rc'
             /\ mustSplit r = (pendingHole rc' =? 0)
             /\ (pendingHole rc' = 0 -> lit_headed (rc_tags rc'))
           else
             pendingHole rc = 0
             /\ rc_tags rc = repeat TLit (List.length (data r)) ++ rc_tags rc'
             /\ (0 < pendingHole rc' -> mustSplit r = true)
    end
  end.
Proof.
  intros Hb Hinv.
  destruct rc as [f cl rs ph wo lz].
  destruct Hinv as (Hf & Hph & Hcl & Hlh); cbn -[tagz] in Hf, Hph, Hcl, Hlh.
  unfold Read, rc_set_IsLastChunkZeros, rc_set_pendingHole, rc_set_WrittenOut;
    cbn -[tagz rc_loop].
  destruct (Z.ltb_spec 0 ph) as [Hpos | Hnpos].
  - (* the pending hole is copied out *)
    assert (cl = false) by (destruct cl; [specialize (Hcl eq_refl); lia | reflexivity]).
    subst cl.
    set (n := if ph <? blen then ph else blen).
    assert (Hn : 1 <= n <= ph)
      by (subst n; destruct (Z.ltb_spec ph blen); lia).
    unfold rc_inv, rc_content, rc_tags, rc_measure; cbn -[tagz].
    split; [split; [exact Hf | split; [lia | split; [discriminate | auto]]] |].
    split; [reflexivity |].
    rewrite !repeat_length.
    rewrite (repeat_Zsplit x00 n ph), (repeat_Zsplit THole n ph) by lia.
    rewrite <- !app_assoc.
    repeat split; try lia; auto.
    intros Hz; rewrite Hz; simpl; apply Hlh; exact Hpos.
  - assert (ph = 0) by lia; subst ph.
    destruct cl; cbn -[tagz rc_loop].
    + unfold rc_inv, rc_content; cbn -[tagz].
      split; [split; [exact Hf | split; [lia | split; [auto | intros; lia]]] |].
      repeat split.
    + pose proof (rc_loop_spec (Z.to_nat blen) 0 []
                    (mkRC f false rs 0 wo false)) as Hl.
      destruct (rc_loop (Z.to_nat blen) 0 [] (mkRC f false rs 0 wo false))
        as [r rc'].
      destruct Hl as (Hinv' & Hlz & Hth & Hres);
        [split; [exact Hf | cbn; lia] | reflexivity | reflexivity | reflexivity |].
      split; [exact Hinv' |]. split; [exact Hth |].
      destruct (rerr r) as [e |]; [destruct e; try exact Hres |].
      * destruct Hres as (_ & Hd & Hn & Hms & Hc & Hc' & Hwo & Hph').
        repeat split; auto.
      * destruct Hres as (d & Hd & Hc & Ht & Hn & Hwo & Hms & _ & Hm).
        simpl in Hd; subst d.
        rewrite Hlz; cbn -[tagz] in *.
        repeat split; auto.
        -- rewrite Hwo, Hn; reflexivity.
        -- apply Hm; lia.
Qed.

Lemma drain_content (fuel : nat) (blen : Z) (rc : rollingChecksumReader) :
  1 <= blen -> rc_inv rc -> (rc_measure rc < fuel)%nat ->
  drain fuel blen rc = Some (rc_content rc, EOF).
Proof.
  revert rc; induction fuel as [| n IH]; intros rc Hb Hinv Hm; [lia |].
  cbn [drain].
  pose proof (Read_spec blen rc Hb Hinv) as HR.
  destruct (Read blen rc) as [r rc'].
  destruct HR as (Hinv' & _ & Hres).
  destruct (rerr r) as [e |]; [destruct e; try contradiction |].
  - destruct Hres as (Hd & _ & _ & Hc & _); rewrite Hd, Hc; reflexivity.
  - destruct Hres as (Hc & _ & _ & Hm' & _).
    rewrite (IH rc') by (auto; lia).
    rewrite Hc; reflexivity.
Qed.

Lemma newReader_inv (src : source) :
  src_end src = EOF -> rc_inv (newReader src).
Proof.
  intros He; unfold newReader, rc_inv, hf_inv; cbn.
  repeat split; try assumption; try discriminate; try lia.
Qed.

Lemma newReader_content (src : source) : rc_content (newReader src) = rest src.
Proof. reflexivity. Qed.

Lemma newReader_tags (src : source) :
  rc_tags (newReader src) = tagz holesThreshold 0 (rest src).
Proof. reflexivity. Qed.

Lemma newReader_measure (src : source) :
  rc_measure (newReader src) = (2 * List.length (rest src) + 1)%nat.
Proof. unfold rc_measure, newReader, hf_content; cbn; lia. Qed.

(** C4: the bytes delivered by the successive [Read] calls of a fresh
    reader over a payload that ends with [io.EOF], with the buffer of
    4096 bytes the orchestrator uses, concatenate to the payload.  No
    assumption on the zero runs is needed: a hole comes out of [Read]
    as that many zero bytes. *)
Theorem Read_chunks_reproduce_payload (p : list byte) :
  drain (pl_fuel (mkSource p EOF)) buflen (newReader (mkSource p EOF))
  = Some (p, EOF).
Proof.
  rewrite drain_content.
  - reflexivity.
  - unfold buflen; lia.
  - apply newReader_inv; reflexivity.
  - rewrite newReader_measure; unfold pl_fuel; simpl; lia.
Qed.

End ReadContent.

(** ** The chunk boundaries do not depend on the output *)

Section Determinism.
Context {RS : RollSumImpl} {IO : InternalOps}.

Lemma restart_live (w : World) :
  zw_live w = true ->
  restartCompression w
  = (Normal (Z.of_nat (List.length (dest w ++ compress (frame w)))),
     mkWorld (dest w ++ compress (frame w)) [] true (manifest w)).
Proof.
  intros Hl; unfold restartCompression; rewrite Hl; destruct w; simpl in *.
  subst; reflexivity.
Qed.

Lemma count_pos (l : list byte) : l <> [] -> 0 < Z.of_nat (List.length l).
Proof. destruct l; [congruence | simpl; lia]. Qed.

Lemma pl_after_read_sim (r : ReadResult) (rc : rollingChecksumReader)
      (s1 s2 : PL) (w1 w2 : World) :
  pl_sim s1 s2 -> pl_wok s1 w1 -> pl_wok s2 w2 ->
  match pl_after_read r rc s1 w1, pl_after_read r rc s2 w2 with
  | (Normal t1, v1), (Normal t2, v2) =>
      pl_sim t1 t2 /\ pl_wok t1 v1 /\ pl_wok t2 v2
  | _, _ => False
  end.
Proof.
  destruct s1 as [rc1 so1 lo1 lco1 chs1 cs1 pd1 cd1 e1],
           s2 as [rc2 so2 lo2 lco2 chs2 cs2 pd2 cd2 e2].
  destruct w1 as [d1 fr1 l1 m1], w2 as [d2 fr2 l2 m2].
  unfold pl_sim, pl_wok; cbn.
  intros (-> & -> & -> & Hcs & -> & -> & -> & Hso) (-> & Hso1 & Hw1)
         (-> & Hso2 & Hw2).
  unfold pl_after_read, pl_write_payload, pl_cut_chunk, bind, ret, zwrite.
  destruct (0 <? nread r) eqn:Hn.
  - destruct (Z.eqb_spec so1 0) as [Hz1 | Hz1], (Z.eqb_spec so2 0) as [Hz2 | Hz2];
      simpl in Hso; try discriminate.
    + subst so1 so2; cbn.
      unfold Count; cbn.
      pose proof (count_pos _ (Hw1 eq_refl)); pose proof (count_pos _ (Hw2 eq_refl)).
      replace (0 <? Z.of_nat (List.length (d1 ++ compress fr1))) with true
        by (symmetry; apply Z.ltb_lt; lia).
      replace (0 <? Z.of_nat (List.length (d2 ++ compress fr2))) with true
        by (symmetry; apply Z.ltb_lt; lia).
      destruct (mustSplit r || is_EOF (rerr r)); cbn.
      * unfold Count; cbn.
        destruct (0 <? WrittenOut rc - lco2); cbn;
          [rewrite !map_app, Hcs |];
          repeat split; try lia; try reflexivity; try assumption;
          try (rewrite (proj2 (Z.eqb_neq _ 0)), (proj2 (Z.eqb_neq _ 0)); lia).
      * repeat split; try lia; try reflexivity; try assumption;
          try (rewrite (proj2 (Z.eqb_neq _ 0)), (proj2 (Z.eqb_neq _ 0)); lia).
    + cbn.
      rewrite (proj2 (Z.eqb_neq so1 0) Hz1), (proj2 (Z.eqb_neq so2 0) Hz2); cbn.
      replace (0 <? so1) with true by (symmetry; apply Z.ltb_lt; lia).
      replace (0 <? so2) with true by (symmetry; apply Z.ltb_lt; lia).
      destruct (mustSplit r || is_EOF (rerr r)); cbn.
      * unfold Count; cbn.
        destruct (0 <? WrittenOut rc - lco2); cbn;
          [rewrite !map_app, Hcs |];
          repeat split; try lia; try reflexivity; try assumption;
          try (rewrite (proj2 (Z.eqb_neq _ 0)), (proj2 (Z.eqb_neq _ 0)); lia).
      * repeat split; try lia; try reflexivity; try assumption;
          try (rewrite (proj2 (Z.eqb_neq _ 0)), (proj2 (Z.eqb_neq _ 0)); lia).
  - destruct (Z.eqb_spec so1 0) as [Hz1 | Hz1], (Z.eqb_spec so2 0) as [Hz2 | Hz2];
      simpl in Hso; try discriminate.
    + subst so1 so2; cbn.
      destruct (mustSplit r || is_EOF (rerr r)); cbn;
        repeat split; auto; lia.
    + cbn.
      replace (0 <? so1) with true by (symmetry; apply Z.ltb_lt; lia).
      replace (0 <? so2) with true by (symmetry; apply Z.ltb_lt; lia).
      destruct (mustSplit r || is_EOF (rerr r)); cbn.
      * unfold Count; cbn.
        destruct (0 <? WrittenOut rc - lco2); cbn;
          [rewrite !map_app, Hcs |];
          repeat split; try lia; try reflexivity; try assumption;
          try (rewrite (proj2 (Z.eqb_neq _ 0)), (proj2 (Z.eqb_neq _ 0)); lia).
      * repeat split; try lia; try reflexivity; try assumption;
          try (rewrite (proj2 (Z.eqb_neq _ 0)), (proj2 (Z.eqb_neq _ 0)); lia).
Qed.

Lemma pl_body_sim (s1 s2 : PL) (w1 w2 : World) :
  pl_sim s1 s2 -> pl_wok s1 w1 -> pl_wok s2 w2 ->
  match pl_body s1 w1, pl_body s2 w2 with
  | (Normal (b1, t1), v1), (Normal (b2, t2), v2) =>
      b1 = b2 /\ pl_sim t1 t2 /\ pl_wok t1 v1 /\ pl_wok t2 v2
  | (Return e1, _), (Return e2, _) => e1 = e2
  | _, _ => False
  end.
Proof.
  intros Hs Hw1 Hw2.
  assert (Hrc : rcReader s1 = rcReader s2) by apply Hs.
  unfold pl_body; rewrite Hrc.
  destruct (Read buflen (rcReader s2)) as [r rc].
  set (x1 := mkPL rc (startOffset s1) (lastOffset s1) (lastChunkOffset s1)
               (checksum s1) (chunks s1) (payloadDigester s1)
               (chunkDigester s1) (err s1)).
  set (x2 := mkPL rc (startOffset s2) (lastOffset s2) (lastChunkOffset s2)
               (checksum s2) (chunks s2) (payloadDigester s2)
               (chunkDigester s2) (err s2)).
  pose proof (pl_after_read_sim r rc x1 x2 w1 w2) as Hpar.
  destruct Hs as (_ & Hlco & Hchs & Hcs & Hpd & Hcd & He & Hso).
  specialize (Hpar ltac:(unfold pl_sim; cbn; repeat split; congruence)
                 Hw1 Hw2).
  unfold bind, ret, return_; cbv beta zeta.
  destruct (rerr r) as [e |] eqn:Hr;
    [destruct (negb (goerr_eqb e EOF)) eqn:Hneg; cbn -[pl_after_read];
     [exact He |] | cbn -[pl_after_read]].
  all: destruct (pl_after_read r rc x1 w1) as [[t1 | e1 |] v1];
       destruct (pl_after_read r rc x2 w2) as [[t2 | e2 |] v2];
       try contradiction.
  all: destruct Hpar as (Hsim & Hv1 & Hv2); cbn.
  2: exact (conj eq_refl (conj Hsim (conj Hv1 Hv2))).
  destruct e; try discriminate Hneg; cbn.
  destruct Hsim as (Hrc' & Hlco' & Hchs' & Hcs' & Hpd' & Hcd' & He' & Hso').
  destruct Hv1 as (Hl1 & Hp1 & Hz1), Hv2 as (Hl2 & Hp2 & Hz2).
  assert (Hlt : (0 <? startOffset t1) = (0 <? startOffset t2)).
  { destruct (Z.eqb_spec (startOffset t1) 0), (Z.eqb_spec (startOffset t2) 0);
      try discriminate Hso'.
    - rewrite e, e0; reflexivity.
    - rewrite (proj2 (Z.ltb_lt 0 (startOffset t1))), (proj2 (Z.ltb_lt 0 (startOffset t2)))
        by lia; reflexivity. }
  unfold pl_sim, pl_wok; cbn.
  rewrite Hlt, Hpd', Hchs'.
  repeat split; auto.
Qed.

Lemma pl_loop_sim (fuel : nat) (s1 s2 : PL) (w1 w2 : World) :
  pl_sim s1 s2 -> pl_wok s1 w1 -> pl_wok s2 w2 ->
  same_chunking (fst (pl_loop fuel s1 w1)) (fst (pl_loop fuel s2 w2)).
Proof.
  revert s1 s2 w1 w2; induction fuel as [| n IH]; intros s1 s2 w1 w2 Hs Hw1 Hw2.
  - exact I.
  - cbn [pl_loop]; unfold bind.
    pose proof (pl_body_sim s1 s2 w1 w2 Hs Hw1 Hw2) as Hb.
    destruct (pl_body s1 w1) as [[[b1 t1] | e1 |] v1];
      destruct (pl_body s2 w2) as [[[b2 t2] | e2 |] v2];
      try contradiction; cbn; [| exact Hb].
    destruct Hb as (<- & Hsim & Hv1 & Hv2).
    destruct b1.
    + destruct Hsim as (_ & _ & Hchs & Hcs & _); split; assumption.
    + apply IH; assumption.
Qed.

(** C9: the payload loop of [writeZstdChunkedStream] cuts a payload at
    the same places, with the same chunk types and digests, and computes
    the same payload digest, whatever was written to the output before
    it: two runs over the same payload source from any two output states
    in which the encoder is ready give the same chunk boundaries and
    checksums (or fail in the same way). *)
Theorem chunking_deterministic (src : source) (w1 w2 : World) :
  encoder_ready w1 -> encoder_ready w2 ->
  same_chunking (fst (pl_loop (pl_fuel src) (initPL src) w1))
                (fst (pl_loop (pl_fuel src) (initPL src) w2)).
Proof.
  intros [Hl1 Hd1] [Hl2 Hd2].
  apply pl_loop_sim.
  - unfold pl_sim; repeat split.
  - unfold pl_wok; cbn; repeat split; auto; lia.
  - unfold pl_wok; cbn; repeat split; auto; lia.
Qed.

End Determinism.

Lemma chunking_deterministic_witness :
  let src := mkSource [x61; x00; x62] EOF in
  let w1 := mkWorld [] [x61] true None in
  let w2 := mkWorld [x01; x02] [] true None in
  @encoder_ready Concrete.storedOps w1 /\ @encoder_ready Concrete.storedOps w2
  /\ same_chunking
       (fst (@pl_loop Concrete.bupRollSumImpl Concrete.storedOps reliableOutput
               (pl_fuel src) (initPL src) w1))
       (fst (@pl_loop Concrete.bupRollSumImpl Concrete.storedOps reliableOutput
               (pl_fuel src) (initPL src) w2)).
Proof.
  intros src w1 w2.
  assert (H1 : @encoder_ready Concrete.storedOps w1)
    by (split; [reflexivity | cbv; discriminate]).
  assert (H2 : @encoder_ready Concrete.storedOps w2)
    by (split; [reflexivity | cbv; discriminate]).
  split; [exact H1 | split; [exact H2 |]].
  exact (@chunking_deterministic Concrete.bupRollSumImpl Concrete.storedOps
           src w1 w2 H1 H2).
Defined.

(** ** The payload loop: chunks tile the payload *)

Lemma firstn_repeat_app {A} (x : A) (m : nat) (R : list A) :
  firstn m (repeat x m ++ R) = repeat x m.
Proof. induction m; simpl; [reflexivity | rewrite IHm; reflexivity]. Qed.

Lemma skipn_repeat_app {A} (x : A) (m : nat) (R : list A) :
  skipn m (repeat x m ++ R) = R.
Proof. induction m; simpl; [reflexivity | exact IHm]. Qed.

Lemma nth_repeat_app {A} (x d : A) (i n : nat) (R : list A) :
  (i < n)%nat -> nth i (repeat x n ++ R) d = x.
Proof.
  revert i; induction n as [| n IH]; intros i Hi; [lia |].
  destruct i; simpl; [reflexivity | apply IH; lia].
Qed.

Lemma nth_skipn' {A} (k i : nat) (T : list A) (d : A) :
  nth i (skipn k T) d = nth (k + i) T d.
Proof.
  revert T; induction k as [| k IH]; intros T; [reflexivity |].
  destruct T; simpl; [destruct i; reflexivity | apply IH].
Qed.

Lemma skipn_add_repeat {A} (x : A) (b : Z) (n : nat) (T R : list A) :
  0 <= b -> skipn (Z.to_nat b) T = repeat x n ++ R ->
  skipn (Z.to_nat (b + Z.of_nat n)) T = R.
Proof.
  intros Hb H.
  replace (Z.to_nat (b + Z.of_nat n)) with (n + Z.to_nat b)%nat by lia.
  rewrite <- skipn_skipn, H; apply skipn_repeat_app.
Qed.

Lemma seg_extend (T : list tag) (x : tag) (a b : Z) (n : nat) (R : list tag) :
  0 <= a <= b -> skipn (Z.to_nat b) T = repeat x n ++ R ->
  seg T a (b - a) = repeat x (Z.to_nat (b - a)) ->
  seg T a (b + Z.of_nat n - a) = repeat x (Z.to_nat (b + Z.of_nat n - a)).
Proof.
  unfold seg; intros Hab Hb Hseg.
  set (k := Z.to_nat (b - a)) in *.
  assert (Hs : skipn (Z.to_nat a) T = repeat x k ++ repeat x n ++ R).
  { rewrite <- (firstn_skipn k (skipn (Z.to_nat a) T)), Hseg.
    rewrite skipn_skipn.
    replace (k + Z.to_nat a)%nat with (Z.to_nat b) by (subst k; lia).
    rewrite Hb; reflexivity. }
  rewrite Hs, app_assoc, <- repeat_app.
  replace (Z.to_nat (b + Z.of_nat n - a)) with (k + n)%nat by (subst k; lia).
  apply firstn_repeat_app.
Qed.

Lemma seg_empty (T : list tag) (x : tag) (a : Z) :
  seg T a (a - a) = repeat x (Z.to_nat (a - a)).
Proof. rewrite Z.sub_diag; reflexivity. Qed.

Lemma tag_at_last (T : list tag) (x : tag) (b : Z) (n : nat) (R : list tag) :
  0 <= b -> (0 < n)%nat -> skipn (Z.to_nat b) T = repeat x n ++ R ->
  tag_at T (b + Z.of_nat n - 1) = x.
Proof.
  intros Hb Hn H; unfold tag_at.
  replace (b + Z.of_nat n - 1 <? 0) with false by (symmetry; apply Z.ltb_ge; lia).
  replace (Z.to_nat (b + Z.of_nat n - 1)) with (Z.to_nat b + (n - 1))%nat by lia.
  rewrite <- nth_skipn', H; apply nth_repeat_app; lia.
Qed.

Lemma tag_at_head (T : list tag) (b : Z) :
  0 <= b -> lit_headed (skipn (Z.to_nat b) T) -> tag_at T b = TLit.
Proof.
  intros Hb H; unfold tag_at.
  replace (b <? 0) with false by (symmetry; apply Z.ltb_ge; lia).
  replace (Z.to_nat b) with (Z.to_nat b + 0)%nat by lia.
  rewrite <- nth_skipn'.
  destruct (skipn (Z.to_nat b) T) as [| [|] ]; simpl in *; easy.
Qed.

Lemma tag_at_neg (T : list tag) (i : Z) : i < 0 -> tag_at T i = TLit.
Proof. intros H; unfold tag_at; rewrite (proj2 (Z.ltb_lt i 0) H); reflexivity. Qed.

Lemma tiles_snoc (s m : Z) (cs : list chunk) (c : chunk) :
  tiles s cs m -> ChunkOffset c = m -> 0 < ChunkSize c ->
  tiles s (cs ++ [c]) (m + ChunkSize c).
Proof.
  revert s; induction cs as [| c' cs IH]; intros s Ht Ho Hz; simpl in *.
  - subst; repeat split; auto.
  - destruct Ht as (Ho' & Hz' & Ht); repeat split; auto.
Qed.

Lemma length_tagz (th : Z) (z : nat) (l : list byte) :
  List.length (tagz th z l) = (z + List.length l)%nat.
Proof.
  revert z; induction l as [| b l IH]; intros z; simpl.
  - rewrite repeat_length; lia.
  - destruct (Byte.eqb b x00); simpl.
    + rewrite IH; lia.
    + rewrite length_app, repeat_length; simpl; rewrite IH; lia.
Qed.

Section PayloadLoop.
Context {RS : RollSumImpl} {IO : InternalOps}.

Lemma write_payload_spec (r : ReadResult) (st : PL) (w : World) :
  zw_live w = true -> 0 <= startOffset st ->
  nread r = Z.of_nat (List.length (data r)) ->
  (startOffset st = 0 -> 0 < nread r -> dest w ++ compress (frame w) <> []) ->
  exists st1 w1, pl_write_payload r st w = (Normal st1, w1)
   /\ rcReader st1 = rcReader st /\ lastChunkOffset st1 = lastChunkOffset st
   /\ chunks st1 = chunks st /\ checksum st1 = checksum st
   /\ payloadDigester st1 = payloadDigester st ++ data r
   /\ chunkDigester st1 = chunkDigester st ++ data r
   /\ zw_live w1 = true /\ 0 <= startOffset st1
   /\ (0 < nread r -> 0 < startOffset st1)
   /\ (nread r <= 0 -> st1 = st /\ w1 = w)
   /\ (0 < startOffset st -> startOffset st1 = startOffset st).
Proof.
  intros Hl Hso Hn Hready.
  destruct w as [d fr l m]; cbn in Hl; subst l.
  unfold pl_write_payload, bind, ret, zwrite.
  destruct (Z.ltb_spec 0 (nread r)) as [Hpos | Hnpos].
  - destruct (Z.eqb_spec (startOffset st) 0) as [Hz | Hz].
    + cbn. unfold Count; cbn.
      pose proof (count_pos _ (Hready Hz Hpos)) as Hc; cbn in Hc.
      eexists; eexists; split; [reflexivity |]; cbn.
      repeat split; auto; try lia; intros; lia.
    + cbn.
      eexists; eexists; split; [reflexivity |]; cbn.
      repeat split; auto; try lia.
  - assert (Hd : data r = []) by (destruct (data r); [reflexivity | simpl in Hn; lia]).
    exists st; eexists; split; [reflexivity |].
    rewrite Hd, !app_nil_r.
    repeat split; auto; lia.
Qed.

Lemma cut_chunk_spec (r : ReadResult) (rc : rollingChecksumReader) (st : PL)
      (w : World) :
  zw_live w = true ->
  exists off w2, zw_live w2 = true /\
    pl_cut_chunk r rc st w
    = if (mustSplit r || is_EOF (rerr r)) && (0 <? startOffset st)
      then (Normal (mkPL (rcReader st) (startOffset st) off (WrittenOut rc)
                      (checksum st)
                      (if 0 <? WrittenOut rc - lastChunkOffset st then
                         chunks st ++
                         [mkChunk (lastChunkOffset st) (lastOffset st)
                            (digestOf (chunkDigester st))
                            (WrittenOut rc - lastChunkOffset st)
                            (if IsLastChunkZeros rc then ChunkTypeZeros
                             else ChunkTypeData)]
                       else chunks st)
                      (payloadDigester st) [] (err st)), w2)
      else (Normal st, w).
Proof.
  intros Hl; destruct w as [d fr l m]; cbn in Hl; subst l.
  unfold pl_cut_chunk, bind, ret.
  destruct ((mustSplit r || is_EOF (rerr r)) && (0 <? startOffset st)); cbn.
  - eexists; eexists; split; [| reflexivity]; reflexivity.
  - exists 0, (mkWorld d fr true m); split; reflexivity.
Qed.

Lemma bind_normal {A B} (m : M A) (k : A -> M B) (w : World) (a : A) (w' : World) :
  m w = (Normal a, w') -> bind m k w = k a w'.
Proof. intros H; unfold bind; rewrite H; reflexivity. Qed.

Lemma bind_ret {A B} (a : A) (k : A -> M B) : bind (ret a) k = k a.
Proof. reflexivity. Qed.

Lemma pl_after_read_eq (r : ReadResult) (rc : rollingChecksumReader) (st st1 : PL)
      (w w1 : World) :
  pl_write_payload r st w = (Normal st1, w1) ->
  pl_after_read r rc st w = pl_cut_chunk r rc st1 w1.
Proof. intros H; unfold pl_after_read; apply bind_normal; exact H. Qed.

Lemma tags_not_lit_headed (rc : rollingChecksumReader) :
  0 < pendingHole rc -> ~ lit_headed (rc_tags rc).
Proof. unfold rc_tags; intros H; rewrite (to_nat_pred _ H); simpl; auto. Qed.

Lemma cut_tiles (s m m' lo : Z) (cs : list chunk) (d ty : string) :
  tiles s cs m -> m <= m' ->
  tiles s (if 0 <? m' - m then cs ++ [mkChunk m lo d (m' - m) ty] else cs) m'.
Proof.
  intros Ht Hm; destruct (Z.ltb_spec 0 (m' - m)) as [Hp | Hp].
  - pose proof (tiles_snoc s m cs (mkChunk m lo d (m' - m) ty) Ht eq_refl Hp) as X.
    simpl in X; replace (m + (m' - m)) with m' in X by lia; exact X.
  - replace m' with m by lia; exact Ht.
Qed.

Lemma cut_ok (T : list tag) (m m' lo : Z) (cs : list chunk) (d ty : string) :
  Forall (chunk_ok T) cs ->
  (0 < m' - m -> chunk_ok T (mkChunk m lo d (m' - m) ty)) ->
  Forall (chunk_ok T)
    (if 0 <? m' - m then cs ++ [mkChunk m lo d (m' - m) ty] else cs).
Proof.
  intros Hf Hc; destruct (Z.ltb_spec 0 (m' - m)) as [Hp | Hp]; [| exact Hf].
  apply Forall_app; split; [exact Hf | constructor; [exact (Hc Hp) | constructor]].
Qed.

Ltac split_conj :=
  lazymatch goal with
  | |- _ /\ _ => split; [| split_conj]
  | _ => idtac
  end.

Lemma pl_body_spec (p : list byte) (st : PL) (w : World) :
  pl_inv p st w ->
  exists b st' w', pl_body st w = (Normal (b, st'), w') /\
    if b then tiles 0 (chunks st') (Z.of_nat (List.length p))
              /\ Forall (chunk_ok (tagz holesThreshold 0 p)) (chunks st')
    else pl_inv p st' w' /\ (rc_measure (rcReader st') < rc_measure (rcReader st))%nat.
Proof.
  intros Hinv.
  destruct st as [rc so lo lco ck cs pd cd er].
  destruct Hinv as (Hrc & Hth & Hp & Hwo & Htags & Hlco & Hti & Hok & Hhole & Hlit
                    & Hlive & Hso & Hso0).
  cbn [rcReader startOffset lastOffset lastChunkOffset checksum chunks
       payloadDigester chunkDigester err] in *.
  set (T := tagz holesThreshold 0 p) in *.
  pose proof (Read_spec buflen rc ltac:(unfold buflen; lia) Hrc) as HR.
  unfold pl_body; cbn [rcReader startOffset lastOffset lastChunkOffset checksum chunks
       payloadDigester chunkDigester err].
  destruct (Read buflen rc) as [r rc'] eqn:HRd.
  destruct HR as (Hrc' & Hth' & HR).
  cbn beta iota zeta.
  destruct (rerr r) as [e|] eqn:Herr; [destruct e; try contradiction |].
  - (* io.EOF: the last chunk is cut *)
    destruct HR as (Hd & Hn & Hms & Hc & Hc' & Hwo' & Hz' & Hph & Hph').
    cbn [negb goerr_eqb is_EOF]; rewrite bind_ret.
    destruct (write_payload_spec r (mkPL rc' so lo lco ck cs pd cd er) w Hlive Hso
                ltac:(rewrite Hn, Hd; reflexivity) ltac:(cbn; intros; lia))
      as (st1 & w1 & Hw & _ & _ & _ & _ & _ & _ & _ & _ & _ & Hkeep & _).
    destruct (Hkeep ltac:(lia)) as [-> ->].
    destruct (cut_chunk_spec r rc' (mkPL rc' so lo lco ck cs pd cd er) w Hlive)
      as (off & w2 & Hl2 & Hcut).
    rewrite Herr, Hms, Hz' in Hcut;
      cbn [orb andb is_EOF rcReader startOffset lastOffset lastChunkOffset checksum
           chunks payloadDigester chunkDigester err] in Hcut.
    assert (Hlen : Z.of_nat (List.length p) = WrittenOut rc').
    { rewrite Hwo', Hwo, <- Hp, Hc, app_nil_r; reflexivity. }
    case_eq (0 <? so); intros Hb; rewrite Hb in Hcut.
    + rewrite (bind_normal _ _ _ _ _ (eq_trans (pl_after_read_eq _ _ _ _ _ _ Hw) Hcut)).
      cbn [is_EOF ret].
      do 3 eexists; split; [reflexivity |].
      cbn [chunks]; rewrite Hlen; split.
      * apply cut_tiles; [exact Hti | lia].
      * apply cut_ok; [exact Hok |].
        intros _; right; cbn [ChunkType ChunkOffset ChunkSize]; split; [reflexivity |].
        rewrite Hwo'; exact (proj1 (Hlit Hph)).
    + rewrite (bind_normal _ _ _ _ _ (eq_trans (pl_after_read_eq _ _ _ _ _ _ Hw) Hcut)).
      cbn [is_EOF ret].
      do 3 eexists; split; [reflexivity |].
      apply Z.ltb_ge in Hb.
      destruct (Hso0 ltac:(lia)) as (Hw0 & -> & _).
      cbn [chunks]; rewrite Hlen; split; [cbn; lia | constructor].
  - (* a chunk of data or of a hole *)
    destruct HR as (Hc & Hn & Hwo' & Hmeas & HZ).
    cbn [is_EOF]; rewrite bind_ret.
    destruct (write_payload_spec r (mkPL rc' so lo lco ck cs pd cd er) w Hlive Hso Hn
                (fun H0 _ => proj2 (proj2 (Hso0 H0))))
      as (st1 & w1 & Hw & H1rc & H1lco & H1cs & H1ck & H1pd & H1cd & H1live & H1so
          & H1pos & H1keep & H1same).
    destruct st1 as [rc1 so1 lo1 lco1 ck1 cs1 pd1 cd1 er1];
      cbn [rcReader startOffset lastOffset lastChunkOffset checksum chunks
           payloadDigester chunkDigester err] in *.
    subst rc1 lco1 cs1 ck1 pd1 cd1.
    destruct (cut_chunk_spec r rc' (mkPL rc' so1 lo1 lco ck cs (pd ++ data r)
                                      (cd ++ data r) er1) w1 H1live)
      as (off & w2 & Hl2 & Hcut).
    rewrite Herr in Hcut;
      cbn [orb andb is_EOF rcReader startOffset lastOffset lastChunkOffset checksum
           chunks payloadDigester chunkDigester err] in Hcut.
    rewrite orb_false_r in Hcut.
    set (n := List.length (data r)) in *.
    assert (HX : exists X, rc_tags rc = repeat X n ++ rc_tags rc').
    { destruct (IsLastChunkZeros rc');
        [destruct HZ as (_ & _ & H & _) | destruct HZ as (_ & H & _)]; eauto. }
    destruct HX as [X HX].
    assert (Htags' : rc_tags rc' = skipn (Z.to_nat (WrittenOut rc')) T).
    { rewrite Hwo', Hn; symmetry.
      apply (skipn_add_repeat X); [lia | rewrite <- Htags; exact HX]. }
    assert (Hp' : (pd ++ data r) ++ rc_content rc' = p).
    { rewrite <- app_assoc, <- Hc; exact Hp. }
    assert (Hwo'' : WrittenOut rc' = Z.of_nat (List.length (pd ++ data r))).
    { rewrite length_app, Hwo', Hwo, Hn; fold n; lia. }
    assert (Hph'nn : 0 <= pendingHole rc') by (destruct Hrc' as (_ & H & _); exact H).
    destruct (IsLastChunkZeros rc') eqn:HZf.
    + (* the bytes of a pending hole *)
      destruct HZ as (Hph & Hnp & Htg & Hms & Hlh).
      assert (Hseg : seg T lco (WrittenOut rc' - lco)
                     = repeat THole (Z.to_nat (WrittenOut rc' - lco))).
      { rewrite Hwo', Hn.
        apply (seg_extend T THole lco (WrittenOut rc) n (rc_tags rc'));
          [lia | rewrite <- Htags; exact Htg | exact (proj1 (Hhole Hph))]. }
      pose proof (H1pos Hnp) as Hso1.
      rewrite Hms, (proj2 (Z.ltb_lt 0 so1) Hso1), andb_true_r in Hcut.
      case_eq (pendingHole rc' =? 0); intros Hb; rewrite Hb in Hcut.
      * apply Z.eqb_eq in Hb.
        rewrite (bind_normal _ _ _ _ _ (eq_trans (pl_after_read_eq _ _ _ _ _ _ Hw) Hcut)).
        cbn [is_EOF ret].
        do 3 eexists; split; [reflexivity |].
        split; [| cbn [rcReader]; exact Hmeas].
        unfold pl_inv; cbn [rcReader startOffset lastOffset lastChunkOffset checksum
                            chunks payloadDigester chunkDigester err]; fold T.
        split_conj.
        -- exact Hrc'.
        -- rewrite Hth'; exact Hth.
        -- exact Hp'.
        -- exact Hwo''.
        -- exact Htags'.
        -- lia.
        -- apply cut_tiles; [exact Hti | lia].
        -- apply cut_ok; [exact Hok |].
           intros _; left; cbn [ChunkType ChunkOffset ChunkSize].
           split; [reflexivity | split; [exact Hseg | split; [exact (proj2 (Hhole Hph)) |]]].
           replace (lco + (WrittenOut rc' - lco)) with (WrittenOut rc') by lia.
           apply tag_at_head; [lia | rewrite <- Htags'; exact (Hlh Hb)].
        -- intros; lia.
        -- intros _; split; [apply seg_empty | right; exact (Hlh Hb)].
        -- exact Hl2.
        -- lia.
        -- intros; lia.
      * apply Z.eqb_neq in Hb.
        rewrite (bind_normal _ _ _ _ _ (eq_trans (pl_after_read_eq _ _ _ _ _ _ Hw) Hcut)).
        cbn [is_EOF ret].
        do 3 eexists; split; [reflexivity |].
        split; [| cbn [rcReader]; exact Hmeas].
        unfold pl_inv; cbn [rcReader startOffset lastOffset lastChunkOffset checksum
                            chunks payloadDigester chunkDigester err]; fold T.
        split_conj.
        -- exact Hrc'.
        -- rewrite Hth'; exact Hth.
        -- exact Hp'.
        -- exact Hwo''.
        -- exact Htags'.
        -- lia.
        -- exact Hti.
        -- exact Hok.
        -- intros _; split; [exact Hseg | exact (proj2 (Hhole Hph))].
        -- intros; lia.
        -- exact H1live.
        -- lia.
        -- intros; lia.
    + (* literal bytes *)
      destruct HZ as (Hph & Htg & Hms).
      assert (Hseg : seg T lco (WrittenOut rc' - lco)
                     = repeat TLit (Z.to_nat (WrittenOut rc' - lco))).
      { rewrite Hwo', Hn.
        apply (seg_extend T TLit lco (WrittenOut rc) n (rc_tags rc'));
          [lia | rewrite <- Htags; exact Htg | exact (proj1 (Hlit Hph))]. }
      assert (HD : tag_at T (WrittenOut rc' - 1) = TLit \/ lit_headed (rc_tags rc')).
      { destruct (Z.ltb_spec 0 (nread r)) as [Hnp | Hnp].
        - left; rewrite Hwo', Hn.
          apply (tag_at_last T TLit (WrittenOut rc) n (rc_tags rc'));
            [lia | lia | rewrite <- Htags; exact Htg].
        - assert (Hn0 : n = 0%nat) by lia.
          rewrite Hn0 in Htg; simpl in Htg.
          replace (WrittenOut rc') with (WrittenOut rc) by lia.
          rewrite <- Htg; exact (proj2 (Hlit Hph)). }
      assert (HD1 : 0 < pendingHole rc' -> tag_at T (WrittenOut rc' - 1) = TLit).
      { intros Hq; destruct HD as [H | H]; [exact H |].
        exfalso; exact (tags_not_lit_headed rc' Hq H). }
      case_eq (mustSplit r && (0 <? so1)); intros Hb; rewrite Hb in Hcut.
      * apply andb_prop in Hb; destruct Hb as [_ Hb]; apply Z.ltb_lt in Hb.
        rewrite (bind_normal _ _ _ _ _ (eq_trans (pl_after_read_eq _ _ _ _ _ _ Hw) Hcut)).
        cbn [is_EOF ret].
        do 3 eexists; split; [reflexivity |].
        split; [| cbn [rcReader]; exact Hmeas].
        unfold pl_inv; cbn [rcReader startOffset lastOffset lastChunkOffset checksum
                            chunks payloadDigester chunkDigester err]; fold T.
        split_conj.
        -- exact Hrc'.
        -- rewrite Hth'; exact Hth.
        -- exact Hp'.
        -- exact Hwo''.
        -- exact Htags'.
        -- lia.
        -- apply cut_tiles; [exact Hti | lia].
        -- apply cut_ok; [exact Hok |].
           intros _; right; cbn [ChunkType ChunkOffset ChunkSize].
           split; [reflexivity | exact Hseg].
        -- intros Hq; split; [apply seg_empty | exact (HD1 Hq)].
        -- intros _; split; [apply seg_empty | exact HD].
        -- exact Hl2.
        -- lia.
        -- intros; lia.
      * assert (Hstart : so1 = 0 -> nread r = 0 /\ so = 0 /\ w1 = w).
        { intros Hs0.
          assert (Hr0 : nread r <= 0) by (destruct (Z.ltb_spec 0 (nread r)); [specialize (H1pos H); lia | lia]).
          destruct (H1keep Hr0) as [Heq ->]; injection Heq; intros; subst; split; [lia | auto]. }
        rewrite (bind_normal _ _ _ _ _ (eq_trans (pl_after_read_eq _ _ _ _ _ _ Hw) Hcut)).
        cbn [is_EOF ret].
        do 3 eexists; split; [reflexivity |].
        split; [| cbn [rcReader]; exact Hmeas].
        unfold pl_inv; cbn [rcReader startOffset lastOffset lastChunkOffset checksum
                            chunks payloadDigester chunkDigester err]; fold T.
        split_conj.
        -- exact Hrc'.
        -- rewrite Hth'; exact Hth.
        -- exact Hp'.
        -- exact Hwo''.
        -- exact Htags'.
        -- lia.
        -- exact Hti.
        -- exact Hok.
        -- intros Hq.
           assert (Hs0 : so1 = 0).
           { rewrite (Hms Hq) in Hb; cbn in Hb; apply Z.ltb_ge in Hb; lia. }
           destruct (Hstart Hs0) as (Hr0 & Hs & _).
           destruct (Hso0 Hs) as (Hwo0 & _ & _).
           replace (WrittenOut rc') with lco by lia.
           split; [apply seg_empty | apply tag_at_neg; lia].
        -- intros _; split; [exact Hseg | exact HD].
        -- exact H1live.
        -- lia.
        -- intros Hs0.
           destruct (Hstart Hs0) as (Hr0 & Hs & ->).
           destruct (Hso0 Hs) as (Hwo0 & Hcs & Hready).
           split; [lia | split; [exact Hcs | exact Hready]].
Qed.

Lemma pl_loop_spec (fuel : nat) (p : list byte) (st : PL) (w : World) :
  pl_inv p st w -> (rc_measure (rcReader st) < fuel)%nat ->
  exists st' w', pl_loop fuel st w = (Normal st', w')
    /\ tiles 0 (chunks st') (Z.of_nat (List.length p))
    /\ Forall (chunk_ok (tagz holesThreshold 0 p)) (chunks st').
Proof.
  revert st w; induction fuel as [| fuel IH]; intros st w Hinv Hm; [lia |].
  destruct (pl_body_spec p st w Hinv) as (b & st1 & w1 & Hb & H).
  cbn [pl_loop]; rewrite (bind_normal _ _ _ _ _ Hb).
  destruct b.
  - exists st1, w1; split; [reflexivity | exact H].
  - destruct H as (Hinv1 & Hm1); cbv beta iota.
    apply IH; [exact Hinv1 | lia].
Qed.

Lemma initPL_inv (p : list byte) (w : World) :
  zw_live w = true -> dest w ++ compress (frame w) <> [] ->
  pl_inv p (initPL (mkSource p EOF)) w.
Proof.
  intros Hl Hr; unfold pl_inv, initPL;
    cbn [rcReader startOffset lastOffset lastChunkOffset checksum chunks
         payloadDigester chunkDigester err].
  split_conj.
  - apply newReader_inv; reflexivity.
  - reflexivity.
  - rewrite newReader_content; reflexivity.
  - reflexivity.
  - rewrite newReader_tags; reflexivity.
  - cbn; lia.
  - reflexivity.
  - constructor.
  - cbn; lia.
  - intros _; split; [reflexivity | left; reflexivity].
  - exact Hl.
  - lia.
  - intros _; split; [reflexivity | split; [reflexivity | exact Hr]].
Qed.

Lemma pl_loop_entry (p : list byte) (w : World) :
  zw_live w = true -> dest w ++ compress (frame w) <> [] ->
  exists st' w',
    pl_loop (pl_fuel (mkSource p EOF)) (initPL (mkSource p EOF)) w = (Normal st', w')
    /\ tiles 0 (chunks st') (Z.of_nat (List.length p))
    /\ Forall (chunk_ok (tagz holesThreshold 0 p)) (chunks st').
Proof.
  intros Hl Hr; apply pl_loop_spec; [apply initPL_inv; assumption |].
  unfold initPL; cbn [rcReader]; rewrite newReader_measure; unfold pl_fuel; cbn [rest]; lia.
Qed.

Lemma tiles_bounds (s m : Z) (cs : list chunk) :
  tiles s cs m -> s <= m /\ (cs <> [] -> s < m).
Proof.
  revert s; induction cs as [| c cs IH]; intros s Ht; simpl in Ht.
  - subst; split; [lia | intros H; exfalso; exact (H eq_refl)].
  - destruct Ht as (_ & Hz & Ht); destruct (IH _ Ht) as [H1 _]; split; [lia | intros; lia].
Qed.

Lemma tiles_sorted (s m : Z) (cs : list chunk) :
  tiles s cs m -> Sorted Z.lt (map ChunkOffset cs).
Proof.
  revert s; induction cs as [| c cs IH]; intros s Ht; simpl in *; [constructor |].
  destruct Ht as (Ho & Hz & Ht); constructor; [exact (IH _ Ht) |].
  destruct cs as [| c' cs]; simpl; constructor.
  simpl in Ht; lia.
Qed.

Lemma map_const_repeat {A B} (b : B) (l : list A) :
  map (fun _ => b) l = repeat b (List.length l).
Proof. induction l as [| a l IH]; simpl; [reflexivity | rewrite IH; reflexivity]. Qed.

Lemma build_entries_chunks (h : Header) (typ : string)
      (xattrs : list (string * string)) (st : PL) (c0 : chunk) (cs : list chunk) :
  chunks st = c0 :: cs -> ChunkOffset c0 = 0 ->
  let es := build_entries h typ xattrs st in
  List.length es = List.length (chunks st)
  /\ map internal.ChunkOffset es = map ChunkOffset (chunks st)
  /\ map internal.Type_ es = typ :: repeat TypeChunk (List.length cs)
  /\ (cs <> [] -> map internal.ChunkType es = map ChunkType (chunks st)
                  /\ map internal.ChunkSize es = map ChunkSize (chunks st)).
Proof.
  intros Hc H0 es; subst es; unfold build_entries; rewrite Hc.
  destruct cs as [| c1 cs].
  - simpl; rewrite H0; split; [reflexivity | split; [reflexivity | split; [reflexivity | intros Hn; exfalso; exact (Hn eq_refl)]]].
  - replace (1 <? Z.of_nat (List.length (c0 :: c1 :: cs))) with true
      by (symmetry; apply Z.ltb_lt; simpl; lia).
    cbn [tl backfill]; rewrite backfill_secondary.
    cbn [map List.length]; rewrite !map_map, length_map.
    repeat split; try (intros _; split); cbn [backfillFM primaryFM secondaryFM
      internal.ChunkOffset internal.Type_ internal.ChunkType internal.ChunkSize];
      f_equal; try exact (eq_sym H0).
    + rewrite map_const_repeat; reflexivity.
Qed.

(** C3: for an entry whose payload ends with [io.EOF], the loop over
    the payload (run from the output that holds the entry's header
    bytes) ends in a state [st] whose chunks [cs = chunks st] tile
    [[0, len payload)] with consecutive non-empty chunks; the entry then
    appends its records at the end of the metadata list, and ends on
    the loop's final output.  When [cs] has [N >= 1] chunks there are
    exactly [N] records: the primary record with the entry's type, then
    [N - 1] [TypeChunk] records; their [ChunkOffset] values are the
    start offsets of the [N] chunks, and strictly increasing. *)
Theorem process_entry_chunk_records (h : Header) (raw p : list byte)
        (metadata : list internal.FileMetadata) (w : World) (typ : string) :
  GetType (Typeflag h) = (typ, None) ->
  zw_live w = true -> dest w ++ compress (frame w ++ raw) <> [] ->
  exists st es w',
    pl_loop (pl_fuel (mkSource p EOF)) (initPL (mkSource p EOF))
            (mkWorld (dest w) (frame w ++ raw) (zw_live w) (manifest w))
      = (Normal st, w')
    /\ process_entry (mkEntry h raw (mkSource p EOF)) metadata w
      = (Normal (metadata ++ es), w')
    /\ tiles 0 (chunks st) (Z.of_nat (List.length p))
    /\ (chunks st = [] <-> p = [])
    /\ (chunks st <> [] ->
        List.length es = List.length (chunks st)
        /\ map internal.Type_ es = typ :: repeat TypeChunk (List.length (chunks st) - 1)
        /\ map internal.ChunkOffset es = map ChunkOffset (chunks st))
    /\ Sorted Z.lt (map internal.ChunkOffset es).
Proof.
  intros Htyp Hl Hr.
  set (w0 := mkWorld (dest w) (frame w ++ raw) (zw_live w) (manifest w)).
  destruct (pl_loop_entry p w0 Hl Hr) as (st & w' & Hloop & Hti & Hok).
  exists st, (build_entries h typ (map (fun kv => (fst kv, base64Encode (snd kv))) (Xattrs h)) st), w'.
  split; [exact Hloop |].
  unfold process_entry.
  rewrite (bind_normal (@zwrite reliableOutput raw) _ w tt w0 eq_refl).
  cbn [payload hdr]; rewrite (bind_normal _ _ _ _ _ Hloop).
  cbv beta; rewrite Htyp.
  split; [reflexivity |].
  split; [exact Hti |].
  destruct (tiles_bounds _ _ _ Hti) as [Hle Hlt].
  split.
  { split; intros H.
    - rewrite H in Hti; simpl in Hti; destruct p; [reflexivity | simpl in Hti; lia].
    - subst p; destruct (chunks st); [reflexivity | simpl in Hlt; exfalso].
      assert (0 < 0) by (apply Hlt; discriminate); lia. }
  destruct (chunks st) as [| c0 cs] eqn:Hc.
  - split; [intros H; exfalso; exact (H eq_refl) |].
    unfold build_entries; rewrite Hc; simpl; repeat constructor.
  - assert (H0 : ChunkOffset c0 = 0) by (simpl in Hti; tauto).
    destruct (build_entries_chunks h typ (map (fun kv => (fst kv, base64Encode (snd kv))) (Xattrs h)) st c0 cs Hc H0)
      as (Hlen & Hoff & Htype & _).
    rewrite Hc in Hlen, Hoff.
    split.
    + intros _; split; [exact Hlen | split; [| exact Hoff]].
      rewrite Htype; simpl; rewrite Nat.sub_0_r; reflexivity.
    + rewrite Hoff; exact (tiles_sorted _ _ _ Hti).
Qed.

End PayloadLoop.

Lemma process_entry_chunk_records_witness :
  @GetType Concrete.storedOps (Typeflag Concrete.hdrA) = ("reg"%string, None)
  /\ zw_live (mkWorld [] [] true None) = true
  /\ dest (mkWorld [] [] true None)
     ++ @compress Concrete.storedOps (frame (mkWorld [] [] true None) ++ Concrete.blk) <> []
  /\ exists st es w',
    @pl_loop Concrete.bupRollSumImpl Concrete.storedOps reliableOutput
      (pl_fuel (mkSource [x61; x62] EOF)) (initPL (mkSource [x61; x62] EOF))
      (mkWorld (dest (mkWorld [] [] true None))
               (frame (mkWorld [] [] true None) ++ Concrete.blk)
               (zw_live (mkWorld [] [] true None)) (manifest (mkWorld [] [] true None)))
      = (Normal st, w')
    /\ @process_entry Concrete.bupRollSumImpl Concrete.storedOps reliableOutput
      (mkEntry Concrete.hdrA Concrete.blk (mkSource [x61; x62] EOF)) []
      (mkWorld [] [] true None)
      = (Normal ([] ++ es), w')
    /\ tiles 0 (chunks st) (Z.of_nat (List.length [x61; x62]))
    /\ (chunks st = [] <-> [x61; x62] = [])
    /\ (chunks st <> [] ->
        List.length es = List.length (chunks st)
        /\ map internal.Type_ es
           = "reg"%string :: repeat (@TypeChunk Concrete.storedOps) (List.length (chunks st) - 1)
        /\ map internal.ChunkOffset es = map ChunkOffset (chunks st))
    /\ Sorted Z.lt (map internal.ChunkOffset es).
Proof.
  assert (Ht : @GetType Concrete.storedOps (Typeflag Concrete.hdrA) = ("reg"%string, None))
    by reflexivity.
  assert (Hd : dest (mkWorld [] [] true None)
     ++ @compress Concrete.storedOps (frame (mkWorld [] [] true None) ++ Concrete.blk) <> [])
    by (cbv; discriminate).
  split; [exact Ht | split; [reflexivity | split; [exact Hd |]]].
  exact (@process_entry_chunk_records Concrete.bupRollSumImpl Concrete.storedOps
           Concrete.hdrA Concrete.blk [x61; x62] [] (mkWorld [] [] true None)
           "reg"%string Ht eq_refl Hd).
Defined.

(** ** The tags of a payload with one hole *)

Lemma tagz_nonzero_app (th : Z) (a r : list byte) :
  0 < th -> Forall (fun x => x <> x00) a ->
  tagz th 0 (a ++ r) = repeat TLit (List.length a) ++ tagz th 0 r.
Proof.
  intros Hth Ha; induction Ha as [| x a Hx Ha IH]; [reflexivity |].
  simpl app; rewrite tagz_lit by first [exact Hx | simpl; lia]; rewrite IH; reflexivity.
Qed.

Lemma tagz_zeros_app (th : Z) (z k : nat) (r : list byte) :
  tagz th z (repeat x00 k ++ r) = tagz th (z + k) r.
Proof.
  revert z; induction k as [| k IH]; intros z.
  - simpl; rewrite Nat.add_0_r; reflexivity.
  - change (repeat x00 (S k) ++ r) with (x00 :: (repeat x00 k ++ r)).
    rewrite tagz_zero, IH; f_equal; lia.
Qed.

Lemma tagz_one_hole (a b : list byte) :
  b <> [] -> Forall (fun x => x <> x00) a -> Forall (fun x => x <> x00) b ->
  tagz holesThreshold 0 (a ++ repeat x00 1024 ++ b)
  = repeat TLit (List.length a) ++ repeat THole 1024 ++ repeat TLit (List.length b).
Proof.
  intros Hb Ha Hb'.
  assert (Hth : holesThreshold = 1024) by reflexivity.
  rewrite Hth, tagz_nonzero_app, tagz_zeros_app by (assumption || lia); f_equal.
  destruct b as [| x b]; [exfalso; exact (Hb eq_refl) |].
  inversion Hb' as [| x' b' Hx Hb'' [Hx' Hbe]]; subst.
  rewrite tagz_hole by (assumption || (simpl; lia)).
  pose proof (tagz_nonzero_app 1024 b [] ltac:(lia) Hb'') as E.
  rewrite app_nil_r in E; rewrite E.
  change (tagz 1024 0 []) with (@nil tag); rewrite app_nil_r; reflexivity.
Qed.

Lemma seg_nth (T : list tag) (off size i : Z) (x : tag) :
  0 <= off -> 0 <= i < size -> seg T off size = repeat x (Z.to_nat size) ->
  nth (Z.to_nat (off + i)) T TLit = x.
Proof.
  intros Ho Hi Hs.
  replace (Z.to_nat (off + i)) with (Z.to_nat off + Z.to_nat i)%nat by lia.
  rewrite <- nth_skipn'.
  assert (Hlt : (Z.to_nat i <? Z.to_nat size)%nat = true) by (apply Nat.ltb_lt; lia).
  pose proof (nth_firstn (Z.to_nat size) (skipn (Z.to_nat off) T) (Z.to_nat i) TLit) as E.
  rewrite Hlt in E; rewrite <- E; unfold seg in Hs; rewrite Hs.
  apply nth_repeat_lt; lia.
Qed.

Section HoleShape.
Context {IO : InternalOps}.
Variables nA nH nB : nat.
Hypothesis HA : (1 <= nA)%nat.
Hypothesis HH : (1 <= nH)%nat.
Hypothesis HB : (1 <= nB)%nat.
Variable T : list tag.
Hypothesis HT : T = repeat TLit nA ++ repeat THole nH ++ repeat TLit nB.

Lemma nth_T (k : Z) :
  0 <= k ->
  nth (Z.to_nat k) T TLit
  = if k <? Z.of_nat nA then TLit
    else if k <? Z.of_nat (nA + nH) then THole else TLit.
Proof.
  intros Hk; rewrite HT.
  destruct (Z.ltb_spec k (Z.of_nat nA)).
  - rewrite app_nth1 by (rewrite repeat_length; lia); apply nth_repeat.
  - rewrite app_nth2 by (rewrite repeat_length; lia); rewrite repeat_length.
    destruct (Z.ltb_spec k (Z.of_nat (nA + nH))).
    + rewrite app_nth1 by (rewrite repeat_length; lia); apply nth_repeat_lt; lia.
    + rewrite app_nth2 by (rewrite repeat_length; lia); rewrite repeat_length;
        apply nth_repeat.
Qed.

Lemma tag_at_T (k : Z) :
  tag_at T k = if k <? 0 then TLit else nth (Z.to_nat k) T TLit.
Proof. reflexivity. Qed.

(** A chunk of the tiling is the hole or lies on one side of it. *)
Lemma chunk_ok_one_hole (c : chunk) :
  chunk_ok T c -> 0 <= ChunkOffset c -> 0 < ChunkSize c ->
  (ChunkType c = ChunkTypeZeros /\ ChunkOffset c = Z.of_nat nA
   /\ ChunkSize c = Z.of_nat nH)
  \/ (ChunkType c = ChunkTypeData
      /\ (ChunkOffset c + ChunkSize c <= Z.of_nat nA
          \/ Z.of_nat (nA + nH) <= ChunkOffset c)).
Proof.
  destruct c as [o off0 ck s ty]; unfold chunk_ok; cbn [ChunkOffset ChunkSize ChunkType].
  intros Hok Ho Hs.
  destruct Hok as [(Hty & Hseg & Hl & Hr) | (Hty & Hseg)]; [left | right].
  - pose proof (seg_nth T o s 0 THole Ho ltac:(lia) Hseg) as H0.
    pose proof (seg_nth T o s (s - 1) THole Ho ltac:(lia) Hseg) as H1.
    rewrite Z.add_0_r, nth_T in H0 by lia.
    rewrite nth_T in H1 by lia.
    rewrite tag_at_T in Hl, Hr.
    destruct (Z.ltb_spec (o + s) 0); [lia |].
    rewrite nth_T in Hr by lia.
    destruct (Z.ltb_spec o (Z.of_nat nA)); [discriminate |].
    destruct (Z.ltb_spec o (Z.of_nat (nA + nH))); [| discriminate].
    destruct (Z.ltb_spec (o + (s - 1)) (Z.of_nat nA)); [lia |].
    destruct (Z.ltb_spec (o + (s - 1)) (Z.of_nat (nA + nH))); [| discriminate].
    destruct (Z.ltb_spec (o + s) (Z.of_nat nA)); [lia |].
    destruct (Z.ltb_spec (o + s) (Z.of_nat (nA + nH))); [discriminate |].
    destruct (Z.ltb_spec (o - 1) 0); [lia |].
    rewrite nth_T in Hl by lia.
    destruct (Z.ltb_spec (o - 1) (Z.of_nat nA)); [| destruct (Z.ltb_spec (o - 1) (Z.of_nat (nA + nH))); [discriminate | lia]].
    split; [exact Hty | split; lia].
  - split; [exact Hty |].
    destruct (Z_le_gt_dec (o + s) (Z.of_nat nA)) as [Hle | Hgt]; [left; exact Hle |].
    destruct (Z_le_gt_dec (Z.of_nat (nA + nH)) o) as [Hle' | Hgt']; [right; exact Hle' |].
    exfalso.
    set (k := Z.max o (Z.of_nat nA)).
    pose proof (seg_nth T o s (k - o) TLit Ho ltac:(lia) Hseg) as Hk.
    replace (o + (k - o)) with k in Hk by lia.
    rewrite nth_T in Hk by lia.
    destruct (Z.ltb_spec k (Z.of_nat nA)); [lia |].
    destruct (Z.ltb_spec k (Z.of_nat (nA + nH))); [discriminate | lia].
Qed.

Lemma tiles_after_hole (s : Z) (cs : list chunk) :
  tiles s cs (Z.of_nat (nA + nH + nB)) -> Forall (chunk_ok T) cs ->
  Z.of_nat (nA + nH) <= s ->
  map ChunkType cs = repeat ChunkTypeData (List.length cs).
Proof.
  revert s; induction cs as [| c cs IH]; intros s Ht Hok Hs; [reflexivity |].
  destruct Ht as (Ho & Hz & Ht); apply Forall_cons_iff in Hok; destruct Hok as [Hc Hok'].
  destruct (chunk_ok_one_hole c Hc ltac:(lia) Hz) as [(_ & Ho' & _) | (Hty & _)];
    [lia |].
  simpl; rewrite Hty, (IH _ Ht Hok'); [reflexivity | lia].
Qed.

Lemma tiles_one_hole (s : Z) (cs : list chunk) :
  0 <= s <= Z.of_nat nA ->
  tiles s cs (Z.of_nat (nA + nH + nB)) -> Forall (chunk_ok T) cs ->
  exists cs1 c cs3,
    cs = cs1 ++ c :: cs3
    /\ (s < Z.of_nat nA -> cs1 <> []) /\ cs3 <> []
    /\ map ChunkType cs1 = repeat ChunkTypeData (List.length cs1)
    /\ ChunkType c = ChunkTypeZeros
    /\ ChunkOffset c = Z.of_nat nA /\ ChunkSize c = Z.of_nat nH
    /\ map ChunkType cs3 = repeat ChunkTypeData (List.length cs3).
Proof.
  revert s; induction cs as [| c cs IH]; intros s Hs Ht Hok.
  - simpl in Ht; lia.
  - destruct Ht as (Ho & Hz & Ht); apply Forall_cons_iff in Hok; destruct Hok as [Hc Hok'].
    destruct (chunk_ok_one_hole c Hc ltac:(lia) Hz)
      as [(Hty & Ho' & Hsz) | (Hty & [Hle | Hge])].
    + exists [], c, cs.
      rewrite Hsz in Ht; replace s with (Z.of_nat nA) in Ht by lia.
      destruct (tiles_bounds _ _ _ Ht) as [_ Hlt].
      split; [reflexivity | split; [intros; lia | split]].
      * intros ->; simpl in Ht; lia.
      * split; [reflexivity |].
        split; [exact Hty | split; [exact Ho' | split; [exact Hsz |]]].
        apply (tiles_after_hole _ _ Ht Hok'); lia.
    + destruct (IH (s + ChunkSize c) ltac:(lia) Ht Hok')
        as (cs1 & c0 & cs3 & -> & _ & Hne & Hty1 & Hrest).
      exists (c :: cs1), c0, cs3.
      split; [reflexivity | split; [intros _; discriminate | split; [exact Hne |]]].
      split; [simpl; rewrite Hty, Hty1; reflexivity | exact Hrest].
    + lia.
Qed.

End HoleShape.

Section OneHole.
Context {RS : RollSumImpl} {IO : InternalOps}.

Lemma nth_map_middle {A B} (f : A -> B) (l1 l2 : list A) (x : A) (d : B) :
  nth (List.length l1) (map f (l1 ++ x :: l2)) d = f x.
Proof. rewrite map_app; rewrite app_nth2 by (rewrite length_map; lia).
  rewrite length_map, Nat.sub_diag; reflexivity. Qed.

(** C6: an entry whose payload is non-zero bytes, then a run of exactly
    [holesThreshold] = 1024 zero bytes, then non-zero bytes gets at least
    three records: [i >= 1] records of [Data] chunks, one record of a
    [Zeros] chunk, which starts where the zero run starts and is 1024
    bytes long, then [j >= 1] records of [Data] chunks.  The offsets and
    sizes of the records are those of chunks that tile the payload with
    no gap. *)
Theorem process_entry_hole_chunks (h : Header) (raw a b : list byte)
        (metadata : list internal.FileMetadata) (w : World) (typ : string) :
  GetType (Typeflag h) = (typ, None) ->
  zw_live w = true -> dest w ++ compress (frame w ++ raw) <> [] ->
  a <> [] -> b <> [] ->
  Forall (fun x => x <> x00) a -> Forall (fun x => x <> x00) b ->
  exists es w' i j,
    process_entry (mkEntry h raw (mkSource (a ++ repeat x00 1024 ++ b) EOF))
      metadata w = (Normal (metadata ++ es), w')
    /\ (1 <= i)%nat /\ (1 <= j)%nat
    /\ map internal.ChunkType es
       = repeat ChunkTypeData i ++ [ChunkTypeZeros] ++ repeat ChunkTypeData j
    /\ nth i (map internal.ChunkOffset es) 0 = Z.of_nat (List.length a)
    /\ nth i (map internal.ChunkSize es) 0 = 1024
    /\ exists cs,
         tiles 0 cs (Z.of_nat (List.length (a ++ repeat x00 1024 ++ b)))
         /\ map internal.ChunkOffset es = map ChunkOffset cs
         /\ map internal.ChunkSize es = map ChunkSize cs.
Proof.
  intros Htyp Hl Hr Ha Hb Ha' Hb'.
  set (p := a ++ repeat x00 1024 ++ b).
  set (w0 := mkWorld (dest w) (frame w ++ raw) (zw_live w) (manifest w)).
  destruct (pl_loop_entry p w0 Hl Hr) as (st & w' & Hloop & Hti & Hok).
  unfold process_entry.
  rewrite (bind_normal (@zwrite reliableOutput raw) _ w tt w0 eq_refl).
  cbn [payload hdr]; rewrite (bind_normal _ _ _ _ _ Hloop).
  cbv beta; rewrite Htyp.
  set (xattrs := map (fun kv => (fst kv, base64Encode (snd kv))) (Xattrs h)).
  unfold p in Hok; rewrite (tagz_one_hole a b Hb Ha' Hb') in Hok.
  assert (HA : (1 <= List.length a)%nat) by (destruct a; [exfalso; exact (Ha eq_refl) | simpl; lia]).
  assert (HB : (1 <= List.length b)%nat) by (destruct b; [exfalso; exact (Hb eq_refl) | simpl; lia]).
  assert (Hti' : tiles 0 (chunks st)
                   (Z.of_nat (List.length a + 1024 + List.length b))).
  { unfold p in Hti; rewrite !length_app, repeat_length in Hti.
    replace (List.length a + 1024 + List.length b)%nat
      with (List.length a + (1024 + List.length b))%nat by lia; exact Hti. }
  destruct (tiles_one_hole (List.length a) 1024 (List.length b) HA ltac:(lia) HB _ eq_refl
              0 _ ltac:(lia) Hti' Hok)
    as (cs1 & c & cs3 & Hcs & Hne1 & Hne3 & Hty1 & Htyc & Hoc & Hsc & Hty3).
  specialize (Hne1 ltac:(lia)).
  destruct cs1 as [| c0 cs1']; [exfalso; exact (Hne1 eq_refl) |].
  assert (H0 : ChunkOffset c0 = 0).
  { rewrite Hcs in Hti; simpl in Hti; tauto. }
  destruct (build_entries_chunks h typ xattrs st c0 (cs1' ++ c :: cs3) Hcs H0)
    as (_ & Hoff & _ & Hrest).
  destruct (Hrest ltac:(destruct cs1'; discriminate)) as [Hty Hsz].
  exists (build_entries h typ xattrs st), w',
    (List.length (c0 :: cs1')), (List.length cs3).
  split; [reflexivity |].
  split; [simpl; lia |].
  split; [destruct cs3; [exfalso; exact (Hne3 eq_refl) | simpl; lia] |].
  rewrite Hoff, Hty, Hsz, Hcs.
  split.
  { rewrite map_app, Hty1; cbn [map]; rewrite Htyc, Hty3; reflexivity. }
  split; [rewrite nth_map_middle; exact Hoc |].
  split; [rewrite nth_map_middle; exact Hsc |].
  exists (chunks st); rewrite Hcs; split; [rewrite <- Hcs; exact Hti | split; reflexivity].
Qed.

End OneHole.

Lemma process_entry_hole_chunks_witness :
  @GetType Concrete.storedOps (Typeflag Concrete.hdrA) = ("reg"%string, None)
  /\ zw_live (mkWorld [] [] true None) = true
  /\ dest (mkWorld [] [] true None)
     ++ @compress Concrete.storedOps (frame (mkWorld [] [] true None) ++ Concrete.blk) <> []
  /\ [x61] <> [] /\ [x62] <> []
  /\ Forall (fun x => x <> x00) [x61] /\ Forall (fun x => x <> x00) [x62]
  /\ exists es w' i j,
    @process_entry Concrete.bupRollSumImpl Concrete.storedOps reliableOutput
      (mkEntry Concrete.hdrA Concrete.blk (mkSource ([x61] ++ repeat x00 1024 ++ [x62]) EOF))
      [] (mkWorld [] [] true None) = (Normal ([] ++ es), w')
    /\ (1 <= i)%nat /\ (1 <= j)%nat
    /\ map internal.ChunkType es
       = repeat (@ChunkTypeData Concrete.storedOps) i
         ++ [@ChunkTypeZeros Concrete.storedOps]
         ++ repeat (@ChunkTypeData Concrete.storedOps) j
    /\ nth i (map internal.ChunkOffset es) 0 = Z.of_nat (List.length [x61])
    /\ nth i (map internal.ChunkSize es) 0 = 1024
    /\ exists cs,
         tiles 0 cs (Z.of_nat (List.length ([x61] ++ repeat x00 1024 ++ [x62])))
         /\ map internal.ChunkOffset es = map ChunkOffset cs
         /\ map internal.ChunkSize es = map ChunkSize cs.
Proof.
  assert (Ht : @GetType Concrete.storedOps (Typeflag Concrete.hdrA) = ("reg"%string, None))
    by reflexivity.
  assert (Hd : dest (mkWorld [] [] true None)
     ++ @compress Concrete.storedOps (frame (mkWorld [] [] true None) ++ Concrete.blk) <> [])
    by (cbv; discriminate).
  assert (Ha : Forall (fun x => x <> x00) [x61]) by (constructor; [discriminate | constructor]).
  assert (Hb : Forall (fun x => x <> x00) [x62]) by (constructor; [discriminate | constructor]).
  split; [exact Ht | split; [reflexivity | split; [exact Hd |]]].
  split; [discriminate | split; [discriminate | split; [exact Ha | split; [exact Hb |]]]].
  exact (@process_entry_hole_chunks Concrete.bupRollSumImpl Concrete.storedOps
           Concrete.hdrA Concrete.blk [x61] [x62] [] (mkWorld [] [] true None)
           "reg"%string Ht eq_refl Hd ltac:(discriminate) ltac:(discriminate) Ha Hb).
Defined.

(** * Further properties *)

(** ** holesFinder on any source *)

Lemma hf_step_found_ok (f : holesFinder) :
  hf_found_ok f ->
  match hf_step f with
  | HContinue f' => hf_found_ok f' /\ threshold f' = threshold f
  | HReturn h b e f' =>
      hf_found_ok f' /\ threshold f' = threshold f
      /\ (h <> 0 -> threshold f <= h /\ b = x00 /\ e = None)
  end.
Proof.
  destruct f as [[r en] z th st]; unfold hf_found_ok, hf_step;
    cbn [state zeros threshold reader rest src_end].
  intros Hf.
  destruct st; cbn -[Z.eqb Z.ltb]; destruct r as [| b r]; cbn -[Z.eqb Z.ltb];
    unfold set_zeros, set_reader, set_state, UnreadByte;
    cbn [state zeros threshold reader rest src_end].
  all: repeat match goal with
         | |- context [if ?c then _ else _] => destruct c eqn:?
         | |- context [match ?e with EOF => _ | _ => _ end] => destruct e
         end; cbn [state zeros threshold reader rest src_end].
  all: try (apply Z.eqb_eq in Heqb0 || apply Z.eqb_eq in Heqb1 || idtac).
  all: try specialize (Hf eq_refl).
  all: repeat split; intros; try discriminate; try lia;
    try (right; split; reflexivity);
    destruct Hf as [Hf | [Hz Hr]]; try discriminate; try lia; left; lia.
Qed.

Lemma readByte_found_ok (f : holesFinder) :
  hf_found_ok f ->
  let '((h, b, e), f') := readByte f in
  hf_found_ok f' /\ threshold f' = threshold f
  /\ (h <> 0 -> threshold f <= h /\ b = x00 /\ e = None).
Proof.
  unfold readByte.
  generalize (S (hf_measure f)) as n; intros n; revert f.
  induction n as [| n IH]; intros f Hf; cbn [readByte_fuel].
  - split; [exact Hf | split; [reflexivity | intros H; exfalso; apply H; reflexivity]].
  - pose proof (hf_step_found_ok f Hf) as Hs.
    destruct (hf_step f) as [f' | h b e f'].
    + destruct Hs as [Hf' Hth].
      specialize (IH f' Hf').
      destruct (readByte_fuel n f') as [[[[h b] e] f''] |].
      * destruct IH as (H1 & H2 & H3); rewrite Hth in H2, H3; auto.
      * destruct IH as (H1 & H2 & H3); split; [exact Hf |].
        split; [reflexivity | intros H; exfalso; apply H; reflexivity].
    + exact Hs.
Qed.

(** X1: whatever the source delivers, including an error, [readByte]
    reports a hole only of at least [threshold] zeros, and with the byte
    0 and no error; this holds for every call of a detector started in
    a state where [Found] holds at least [threshold] zeros (a fresh
    detector is in state [Read]). *)
Theorem readBytes_holes_reach_threshold (n : nat) (f : holesFinder) :
  hf_found_ok f ->
  Forall (fun r => let '(h, b, e) := r in
                   h <> 0 -> threshold f <= h /\ b = x00 /\ e = None)
         (fst (readBytes n f)).
Proof.
  revert f; induction n as [| n IH]; intros f Hf; cbn [readBytes]; [constructor |].
  pose proof (readByte_found_ok f Hf) as Hr.
  destruct (readByte f) as [[[h b] e] f'].
  destruct Hr as (Hf' & Hth & Hh).
  specialize (IH f' Hf').
  destruct (readBytes n f') as [rs f'']; cbn [fst] in *.
  constructor; [exact Hh |].
  rewrite Hth in IH; exact IH.
Qed.

Lemma readBytes_holes_reach_threshold_witness :
  hf_found_ok (mkHF (mkSource (repeat x00 5 ++ [x01] ++ repeat x00 2) ErrUnexpectedEOF)
                    0 3 holesFinderStateRead)
  /\ Forall (fun r => let '(h, b, e) := r in
                      h <> 0 -> 3 <= h /\ b = x00 /\ e = None)
       (fst (readBytes 5 (mkHF (mkSource (repeat x00 5 ++ [x01] ++ repeat x00 2)
                                        ErrUnexpectedEOF) 0 3 holesFinderStateRead))).
Proof.
  assert (H : hf_found_ok (mkHF (mkSource (repeat x00 5 ++ [x01] ++ repeat x00 2)
                                          ErrUnexpectedEOF) 0 3 holesFinderStateRead))
    by (unfold hf_found_ok; cbn; discriminate).
  split; [exact H |].
  exact (readBytes_holes_reach_threshold 5 _ H).
Defined.

(** ** A source that fails inside a hole *)

Lemma goerr_eqb_EOF_false (e : goerr) : e <> EOF -> goerr_eqb e EOF = false.
Proof. destruct e; cbn; congruence. Qed.

Lemma readByte_failed_in_hole (e : goerr) (th : Z) :
  e <> EOF ->
  readByte (hf_failed_in_hole e th) = ((0, x00, None), hf_failed_in_hole e th).
Proof.
  intros He; rewrite readByte_unfold; unfold hf_step, hf_failed_in_hole; cbn.
  rewrite (goerr_eqb_EOF_false e He); reflexivity.
Qed.

Lemma found_phase_err (th : Z) (e : goerr) (k : nat) (z : Z) :
  e <> EOF ->
  readByte (mkHF (mkSource (repeat x00 k) e) z th holesFinderStateFound)
  = ((z + Z.of_nat k, x00, None), hf_failed_in_hole e th).
Proof.
  intros He; revert z; induction k as [| k IH]; intro z.
  - rewrite readByte_unfold; unfold hf_step; cbn.
    rewrite (goerr_eqb_EOF_false e He); unfold set_zeros; cbn.
    rewrite Z.add_0_r; reflexivity.
  - rewrite readByte_unfold; unfold hf_step; cbn.
    unfold set_zeros, set_reader; cbn.
    rewrite IH; f_equal; f_equal; f_equal; lia.
Qed.

Lemma accumulate_phase_err (th : Z) (e : goerr) (k : nat) (z : Z) :
  e <> EOF -> 1 <= z < th -> th <= z + Z.of_nat k ->
  readByte (mkHF (mkSource (repeat x00 k) e) z th holesFinderStateAccumulate)
  = ((z + Z.of_nat k, x00, None), hf_failed_in_hole e th).
Proof.
  intros He; revert z; induction k as [| k IH]; intros z Hz Hk; [lia |].
  rewrite readByte_unfold; unfold hf_step; cbn.
  unfold set_zeros, set_reader, set_state; cbn.
  destruct (Z.eqb_spec (z + 1) th) as [E | E].
  - rewrite found_phase_err by exact He; f_equal; f_equal; f_equal; lia.
  - rewrite IH by lia; f_equal; f_equal; f_equal; lia.
Qed.

Lemma readByte_zeros_then_error (th : Z) (k : nat) (e : goerr) :
  1 <= th -> th <= Z.of_nat k -> e <> EOF ->
  readByte (mkHF (mkSource (repeat x00 k) e) 0 th holesFinderStateRead)
  = ((Z.of_nat k, x00, None), hf_failed_in_hole e th).
Proof.
  intros Hth Hk He.
  destruct k as [| k]; [lia |].
  rewrite readByte_unfold; unfold hf_step; cbn -[Z.eqb].
  unfold set_zeros, set_reader, set_state; cbn -[Z.eqb].
  rewrite Zpos_P_of_succ_nat; rewrite Nat2Z.inj_succ in Hk.
  destruct (Z.eqb_spec 1 th) as [E | E].
  - rewrite found_phase_err by exact He; f_equal; f_equal; f_equal; lia.
  - rewrite accumulate_phase_err by first [exact He | lia]; f_equal; f_equal; f_equal; lia.
Qed.

Lemma readBytes_failed_in_hole (n : nat) (e : goerr) (th : Z) :
  e <> EOF ->
  readBytes n (hf_failed_in_hole e th)
  = (repeat (0, x00, None) n, hf_failed_in_hole e th).
Proof.
  intros He; induction n as [| n IH]; [reflexivity |].
  cbn [readBytes]; rewrite (readByte_failed_in_hole e th He), IH; reflexivity.
Qed.

(** X2: a payload whose source fails with an error other than
    [io.EOF] right after a run of at least [threshold] zeros: the first
    [readByte] reports the run as a hole, and from then on every call
    returns a literal zero byte with no error.  The error is never
    reported. *)
Theorem readBytes_error_after_hole (th : Z) (k n : nat) (e : goerr) :
  1 <= th -> th <= Z.of_nat k -> e <> EOF ->
  readBytes (S n) (mkHF (mkSource (repeat x00 k) e) 0 th holesFinderStateRead)
  = ((Z.of_nat k, x00, None) :: repeat (0, x00, None) n,
     mkHF (mkSource [] e) 0 th holesFinderStateFound).
Proof.
  intros Hth Hk He; cbn [readBytes].
  rewrite (readByte_zeros_then_error th k e Hth Hk He).
  rewrite (readBytes_failed_in_hole n e th He); reflexivity.
Qed.

Lemma readBytes_error_after_hole_witness :
  1 <= 3 /\ 3 <= Z.of_nat 4 /\ ErrUnexpectedEOF <> EOF
  /\ readBytes 3 (mkHF (mkSource (repeat x00 4) ErrUnexpectedEOF) 0 3 holesFinderStateRead)
     = ((Z.of_nat 4, x00, None) :: repeat (0, x00, None) 2,
        mkHF (mkSource [] ErrUnexpectedEOF) 0 3 holesFinderStateFound).
Proof.
  split; [lia | split; [cbn; lia | split; [discriminate |]]].
  exact (readBytes_error_after_hole 3 4 2 ErrUnexpectedEOF
           ltac:(lia) ltac:(cbn; lia) ltac:(discriminate)).
Defined.

Section FailedInHole.
Context {RS : RollSumImpl}.

Lemma rc_loop_failed_in_hole (e : goerr) (th : Z) (k : nat) (i : Z)
      (acc : list byte) (rc : rollingChecksumReader) :
  e <> EOF -> rc_reader rc = hf_failed_in_hole e th ->
  exists r rc', rc_loop k i acc rc = (r, rc') /\ rerr r = None
    /\ rc_reader rc' = hf_failed_in_hole e th /\ closed rc' = closed rc.
Proof.
  intros He; revert i acc rc; induction k as [| k IH]; intros i acc rc Hrc.
  - do 2 eexists; split; [reflexivity |]; cbn; auto.
  - cbn [rc_loop]; rewrite Hrc, (readByte_failed_in_hole e th He).
    cbn -[Z.ltb]; unfold rc_set_rollsum, rc_set_WrittenOut, rc_set_reader; cbn.
    destruct (OnSplitWithBits _ RollsumBits).
    + do 2 eexists; split; [reflexivity |]; cbn; auto.
    + match goal with |- context [rc_loop k ?i ?a ?r] =>
        destruct (IH i a r eq_refl) as (r1 & rc1 & H1 & H2 & H3 & H4) end.
      exists r1, rc1; auto.
Qed.

Lemma Read_failed_in_hole (e : goerr) (th blen : Z) (rc : rollingChecksumReader) :
  e <> EOF -> rc_reader rc = hf_failed_in_hole e th -> closed rc = false ->
  exists r rc', Read blen rc = (r, rc') /\ rerr r = None
    /\ rc_reader rc' = hf_failed_in_hole e th /\ closed rc' = false.
Proof.
  intros He Hrc Hcl; unfold Read, rc_set_IsLastChunkZeros, rc_set_pendingHole,
    rc_set_WrittenOut; cbn [pendingHole closed rc_reader].
  destruct (0 <? pendingHole rc).
  - do 2 eexists; split; [reflexivity |]; cbn; auto.
  - rewrite Hcl.
    destruct (rc_loop_failed_in_hole e th (Z.to_nat blen) 0 []
                (mkRC (rc_reader rc) false (rollsum rc) (pendingHole rc)
                      (WrittenOut rc) false) He Hrc)
      as (r & rc' & H1 & H2 & H3 & H4).
    exists r, rc'; auto.
Qed.

Lemma drain_failed_in_hole (e : goerr) (th blen : Z) (fuel : nat)
      (rc : rollingChecksumReader) :
  e <> EOF -> rc_reader rc = hf_failed_in_hole e th -> closed rc = false ->
  drain fuel blen rc = None.
Proof.
  intros He; revert rc; induction fuel as [| fuel IH]; intros rc Hrc Hcl; [reflexivity |].
  cbn [drain].
  destruct (Read_failed_in_hole e th blen rc He Hrc Hcl) as (r & rc' & -> & Hr & H1 & H2).
  rewrite Hr, (IH rc' H1 H2); reflexivity.
Qed.

Lemma rc_loop_failed_in_hole_zeros (e : goerr) (th : Z) (k : nat) (i : Z)
      (acc : list byte) (rc : rollingChecksumReader) :
  e <> EOF -> rc_reader rc = hf_failed_in_hole e th ->
  i = Z.of_nat (List.length acc) -> Forall (eq x00) acc ->
  exists r rc', rc_loop k i acc rc = (r, rc') /\ rerr r = None
    /\ rc_reader rc' = hf_failed_in_hole e th /\ closed rc' = closed rc
    /\ pendingHole rc' = pendingHole rc
    /\ Forall (eq x00) (data r) /\ nread r = Z.of_nat (List.length (data r))
    /\ (List.length (data r) <= List.length acc + k)%nat
    /\ (List.length acc + Nat.min k 1 <= List.length (data r))%nat.
Proof.
  intros He; revert i acc rc; induction k as [| k IH]; intros i acc rc Hrc Hi Hacc.
  - do 2 eexists; split; [reflexivity |]; cbn [rerr data nread].
    rewrite length_rev.
    repeat split; auto; [apply Forall_rev; exact Hacc | lia | cbn; lia].
  - cbn [rc_loop]; rewrite Hrc, (readByte_failed_in_hole e th He).
    cbn -[Z.ltb]; unfold rc_set_rollsum, rc_set_WrittenOut, rc_set_reader; cbn.
    destruct (OnSplitWithBits _ RollsumBits).
    + do 2 eexists; split; [reflexivity |]; cbn [rerr data nread rc_reader closed pendingHole].
      rewrite length_app, length_rev; cbn [List.length].
      repeat split; auto.
      * apply Forall_app; split; [apply Forall_rev; exact Hacc | repeat constructor].
      * lia.
      * lia.
      * cbn [Nat.min]; destruct k; cbn; lia.
    + match goal with |- context [rc_loop k ?i ?a ?r] =>
        destruct (IH i a r eq_refl ltac:(cbn [List.length]; lia)
                     ltac:(constructor; [reflexivity | exact Hacc]))
          as (r1 & rc1 & H1 & H2 & H3 & H4 & H5 & H6 & H7 & H8 & H9) end.
      cbn [List.length closed pendingHole] in *.
      exists r1, rc1; repeat split; auto; [lia |].
      destruct k; cbn [Nat.min] in *; lia.
Qed.

Lemma Read_failed_in_hole_zeros (e : goerr) (th blen : Z) (rc : rollingChecksumReader) :
  1 <= blen -> e <> EOF -> rc_reader rc = hf_failed_in_hole e th ->
  closed rc = false -> 0 <= pendingHole rc ->
  exists r rc', Read blen rc = (r, rc') /\ rerr r = None
    /\ 1 <= nread r <= blen /\ data r = repeat x00 (Z.to_nat (nread r))
    /\ rc_reader rc' = hf_failed_in_hole e th /\ closed rc' = false
    /\ 0 <= pendingHole rc'.
Proof.
  intros Hb He Hrc Hcl Hph; unfold Read, rc_set_IsLastChunkZeros, rc_set_pendingHole,
    rc_set_WrittenOut; cbn [pendingHole closed rc_reader].
  destruct (Z.ltb_spec 0 (pendingHole rc)) as [Hp | Hp].
  - do 2 eexists; split; [reflexivity |]; cbn [rerr nread data rc_reader closed pendingHole].
    destruct (Z.ltb_spec (pendingHole rc) blen); repeat split; auto; lia.
  - rewrite Hcl.
    destruct (rc_loop_failed_in_hole_zeros e th (Z.to_nat blen) 0 []
                (mkRC (rc_reader rc) false (rollsum rc) (pendingHole rc)
                      (WrittenOut rc) false) He Hrc eq_refl (Forall_nil _))
      as (r & rc' & H1 & H2 & H3 & H4 & H5 & H6 & H7 & H8 & H9).
    cbn [List.length closed pendingHole] in *.
    assert (Hm : Nat.min (Z.to_nat blen) 1 = 1%nat) by lia.
    rewrite Hm in H9.
    exists r, rc'; repeat split; auto; try lia.
    rewrite H7, Nat2Z.id; exact (Forall_eq_repeat H6).
Qed.

Lemma reads_failed_in_hole (e : goerr) (th blen : Z) (n : nat)
      (rc : rollingChecksumReader) :
  1 <= blen -> e <> EOF -> rc_reader rc = hf_failed_in_hole e th ->
  closed rc = false -> 0 <= pendingHole rc ->
  List.length (reads n blen rc) = n
  /\ Forall (fun r => rerr r = None /\ 1 <= nread r <= blen
                      /\ data r = repeat x00 (Z.to_nat (nread r)))
            (reads n blen rc).
Proof.
  intros Hb He; revert rc; induction n as [| n IH]; intros rc Hrc Hcl Hph.
  - split; [reflexivity | constructor].
  - cbn [reads].
    destruct (Read_failed_in_hole_zeros e th blen rc Hb He Hrc Hcl Hph)
      as (r & rc' & -> & H1 & H2 & H3 & H4 & H5 & H6).
    destruct (IH rc' H4 H5 H6) as [IHl IHf].
    split; [cbn; rewrite IHl; reflexivity | constructor; [auto | exact IHf]].
Qed.

Lemma Read_zeros_then_error (blen : Z) (k : nat) (e : goerr)
      (rc : rollingChecksumReader) :
  1 <= blen -> holesThreshold <= Z.of_nat k -> e <> EOF ->
  rc_reader rc = mkHF (mkSource (repeat x00 k) e) 0 holesThreshold holesFinderStateRead ->
  closed rc = false -> pendingHole rc = 0 ->
  exists rc', Read blen rc = (mkRR true 0 [] None, rc')
    /\ rc_reader rc' = hf_failed_in_hole e holesThreshold /\ closed rc' = false
    /\ pendingHole rc' = Z.of_nat k.
Proof.
  intros Hb Hk He Hrc Hcl Hph.
  unfold Read, rc_set_IsLastChunkZeros; cbn [pendingHole closed rc_reader].
  rewrite Hph, Hcl; cbn -[rc_loop holesThreshold].
  rewrite (to_nat_pred blen) by lia; cbn [rc_loop rc_reader].
  rewrite Hrc, (readByte_zeros_then_error holesThreshold k e ltac:(cbv; discriminate) Hk He).
  replace (0 <? Z.of_nat k) with true
    by (symmetry; apply Z.ltb_lt; unfold holesThreshold in Hk; cbn in Hk; lia).
  eexists; split; [reflexivity |]; cbn; auto.
Qed.

(** X3: a reader whose holes finder is about to read, with no zeros
    pending and no hole pending (a fresh reader, or one that has just
    returned a byte that is not zero), a run of at least
    [holesThreshold] zeros that the source follows with an error other
    than [io.EOF].  The first [Read] ends a chunk before the hole
    without delivering a byte; every later [Read] reports no error and
    delivers between 1 and [len(b)] bytes, all zero.  So a consumer that
    calls [Read] until it reports an error never stops. *)
Theorem drain_error_after_hole (blen : Z) (rc : rollingChecksumReader) (k : nat)
        (e : goerr) :
  1 <= blen -> holesThreshold <= Z.of_nat k -> e <> EOF ->
  rc_reader rc = mkHF (mkSource (repeat x00 k) e) 0 holesThreshold holesFinderStateRead ->
  closed rc = false -> pendingHole rc = 0 ->
  (forall n, exists rs, reads (S n) blen rc = mkRR true 0 [] None :: rs
     /\ List.length rs = n
     /\ Forall (fun r => rerr r = None /\ 1 <= nread r <= blen
                         /\ data r = repeat x00 (Z.to_nat (nread r))) rs)
  /\ (forall fuel, drain fuel blen rc = None).
Proof.
  intros Hb Hk He Hrc Hcl Hph.
  destruct (Read_zeros_then_error blen k e rc Hb Hk He Hrc Hcl Hph)
    as (rc' & HR & H1 & H2 & H3).
  split.
  - intros n; cbn [reads]; rewrite HR.
    destruct (reads_failed_in_hole e holesThreshold blen n rc' Hb He H1 H2
                ltac:(rewrite H3; lia)) as [Hl Hf].
    eexists; split; [reflexivity | split; [exact Hl | exact Hf]].
  - intros fuel; destruct fuel as [| fuel]; [reflexivity |].
    cbn [drain]; rewrite HR.
    cbn [rerr]; rewrite (drain_failed_in_hole e holesThreshold blen fuel rc' He H1 H2).
    reflexivity.
Qed.

End FailedInHole.

Lemma drain_error_after_hole_witness :
  1 <= 1 /\ holesThreshold <= Z.of_nat 1100 /\ ErrUnexpectedEOF <> EOF
  /\ rc_reader (snd (@Read Concrete.bupRollSumImpl 1
                       (newReader (mkSource (x61 :: repeat x00 1100) ErrUnexpectedEOF))))
     = mkHF (mkSource (repeat x00 1100) ErrUnexpectedEOF) 0 holesThreshold
            holesFinderStateRead
  /\ closed (snd (@Read Concrete.bupRollSumImpl 1
                    (newReader (mkSource (x61 :: repeat x00 1100) ErrUnexpectedEOF)))) = false
  /\ pendingHole (snd (@Read Concrete.bupRollSumImpl 1
                    (newReader (mkSource (x61 :: repeat x00 1100) ErrUnexpectedEOF)))) = 0
  /\ (forall n, exists rs,
        reads (S n) 1 (snd (@Read Concrete.bupRollSumImpl 1
                     (newReader (mkSource (x61 :: repeat x00 1100) ErrUnexpectedEOF))))
        = mkRR true 0 [] None :: rs
        /\ List.length rs = n
        /\ Forall (fun r => rerr r = None /\ 1 <= nread r <= 1
                            /\ data r = repeat x00 (Z.to_nat (nread r))) rs)
  /\ (forall fuel, drain fuel 1 (snd (@Read Concrete.bupRollSumImpl 1
                     (newReader (mkSource (x61 :: repeat x00 1100) ErrUnexpectedEOF))))
                   = None).
Proof.
  assert (Hk : holesThreshold <= Z.of_nat 1100) by (vm_compute; discriminate).
  assert (Hrc : rc_reader (snd (@Read Concrete.bupRollSumImpl 1
                  (newReader (mkSource (x61 :: repeat x00 1100) ErrUnexpectedEOF))))
     = mkHF (mkSource (repeat x00 1100) ErrUnexpectedEOF) 0 holesThreshold
            holesFinderStateRead) by (vm_compute; reflexivity).
  assert (Hcl : closed (snd (@Read Concrete.bupRollSumImpl 1
                  (newReader (mkSource (x61 :: repeat x00 1100) ErrUnexpectedEOF)))) = false)
    by (vm_compute; reflexivity).
  assert (Hph : pendingHole (snd (@Read Concrete.bupRollSumImpl 1
                  (newReader (mkSource (x61 :: repeat x00 1100) ErrUnexpectedEOF)))) = 0)
    by (vm_compute; reflexivity).
  split; [lia | split; [exact Hk | split; [discriminate |]]].
  split; [exact Hrc | split; [exact Hcl | split; [exact Hph |]]].
  exact (@drain_error_after_hole Concrete.bupRollSumImpl 1
           (snd (@Read Concrete.bupRollSumImpl 1
                  (newReader (mkSource (x61 :: repeat x00 1100) ErrUnexpectedEOF))))
           1100 ErrUnexpectedEOF ltac:(lia) Hk ltac:(discriminate) Hrc Hcl Hph).
Defined.

(** ** What one [Read] returns, on any source *)

Section ReadAccounting.
Context {RS : RollSumImpl}.

Lemma rc_loop_acct (k : nat) (i : Z) (acc : list byte) (rc : rollingChecksumReader)
      (r : ReadResult) (rc' : rollingChecksumReader) :
  i = Z.of_nat (List.length acc) -> rc_loop k i acc rc = (r, rc') ->
  WrittenOut rc' + i = WrittenOut rc + Z.of_nat (List.length (data r))
  /\ IsLastChunkZeros rc' = IsLastChunkZeros rc
  /\ match rerr r with
     | None => i <= nread r <= i + Z.of_nat k
               /\ nread r = Z.of_nat (List.length (data r))
     | Some EOF => nread r = 0 /\ data r = [] /\ mustSplit r = false
     | Some _ => nread r = -1 /\ mustSplit r = false
     end.
Proof.
  revert i acc rc; induction k as [| k IH]; intros i acc rc Hi Hl.
  - cbn in Hl; injection Hl; intros <- <-; cbn.
    rewrite length_rev; repeat split; lia.
  - cbn [rc_loop] in Hl.
    destruct (readByte (rc_reader rc)) as [[[h n] e] hf].
    unfold rc_set_reader, rc_set_closed, rc_set_rollsum, rc_set_pendingHole,
      rc_set_WrittenOut in Hl; cbn [closed rollsum pendingHole WrittenOut
      IsLastChunkZeros rc_reader] in Hl.
    destruct e as [e |].
    + destruct (goerr_eqb e EOF) eqn:He.
      * apply goerr_eqb_eq in He; subst e.
        destruct (Z.eqb_spec i 0) as [Hz | Hz].
        -- injection Hl; intros <- <-; cbn.
           destruct acc; [cbn; repeat split; lia | cbn in Hi; lia].
        -- injection Hl; intros <- <-; cbn.
           rewrite length_rev; repeat split; lia.
      * injection Hl; intros <- <-; cbn.
        rewrite length_rev.
        destruct e; [discriminate | | |]; repeat split; lia.
    + destruct (Z.ltb_spec 0 h) as [Hh | Hh].
      * injection Hl; intros <- <-; cbn.
        rewrite length_rev; repeat split; lia.
      * destruct (OnSplitWithBits (Roll (rollsum rc) n) RollsumBits).
        -- injection Hl; intros <- <-; cbn.
           rewrite length_app, length_rev; cbn; repeat split; lia.
        -- destruct (IH (i + 1) (n :: acc) _ ltac:(cbn [List.length]; lia) Hl)
             as (H1 & H2 & H3).
           cbn [WrittenOut IsLastChunkZeros] in H1, H2.
           split; [lia | split; [exact H2 |]].
           destruct (rerr r) as [[] |]; try exact H3; lia.
Qed.

Lemma Read_acct (blen : Z) (rc : rollingChecksumReader) (r : ReadResult)
      (rc' : rollingChecksumReader) :
  0 <= blen -> Read blen rc = (r, rc') ->
  WrittenOut rc' = WrittenOut rc + Z.of_nat (List.length (data r))
  /\ IsLastChunkZeros rc' = (0 <? pendingHole rc)
  /\ (0 < pendingHole rc ->
      data r = repeat x00 (List.length (data r)) /\ rerr r = None
      /\ pendingHole rc' = pendingHole rc - nread r
      /\ mustSplit r = (pendingHole rc' =? 0))
  /\ match rerr r with
     | None => 0 <= nread r <= blen /\ nread r = Z.of_nat (List.length (data r))
     | Some EOF => nread r = 0 /\ data r = [] /\ mustSplit r = false
     | Some _ => nread r = -1 /\ mustSplit r = false
     end.
Proof.
  intros Hb HR; unfold Read, rc_set_IsLastChunkZeros, rc_set_pendingHole,
    rc_set_WrittenOut in HR; cbn [pendingHole closed rc_reader rollsum WrittenOut
    IsLastChunkZeros] in HR.
  destruct (Z.ltb_spec 0 (pendingHole rc)) as [Hp | Hp].
  - injection HR; intros <- <-; cbn.
    set (n := if pendingHole rc <? blen then pendingHole rc else blen).
    assert (Hn : 0 <= n <= blen /\ n <= pendingHole rc)
      by (subst n; destruct (Z.ltb_spec (pendingHole rc) blen); lia).
    rewrite repeat_length, Z2Nat.id by lia.
    repeat split; try lia.
  - destruct (closed rc).
    + injection HR; intros <- <-; cbn.
      repeat split; try lia; intros; lia.
    + destruct (rc_loop_acct (Z.to_nat blen) 0 [] _ r rc' eq_refl HR) as (H1 & H2 & H3).
      cbn [WrittenOut IsLastChunkZeros] in H1, H2.
      split; [lia | split; [exact H2 | split; [intros; lia |]]].
      destruct (rerr r) as [[] |]; try exact H3.
      rewrite Z2Nat.id in H3 by lia; lia.
Qed.

(** X5: on any source, for a buffer of [blen >= 0] bytes, [Read]
    returns at most [blen] bytes, and exactly as many as it stored into
    [b]; [io.EOF] comes with [n = 0], nothing stored and no split; any
    other error comes with [n = -1] and no split. *)
Theorem Read_result_bounds (blen : Z) (rc : rollingChecksumReader) :
  0 <= blen ->
  let '(r, rc') := Read blen rc in
  match rerr r with
  | None => 0 <= nread r <= blen /\ nread r = Z.of_nat (List.length (data r))
  | Some EOF => nread r = 0 /\ data r = [] /\ mustSplit r = false
  | Some _ => nread r = -1 /\ mustSplit r = false
  end.
Proof.
  intros Hb; destruct (Read blen rc) as [r rc'] eqn:HR.
  exact (proj2 (proj2 (proj2 (Read_acct blen rc r rc' Hb HR)))).
Qed.

(** X6: on any source, [Read] adds to [WrittenOut] exactly the number
    of bytes it stored into [b], also when it fails and reports
    [n = -1].  [IsLastChunkZeros] is set exactly when a hole was
    pending: then the call only copies zeros out of the hole, without
    error, and asks for a split when the hole is used up. *)
Theorem Read_WrittenOut_counts (blen : Z) (rc : rollingChecksumReader) :
  0 <= blen ->
  let '(r, rc') := Read blen rc in
  WrittenOut rc' = WrittenOut rc + Z.of_nat (List.length (data r))
  /\ IsLastChunkZeros rc' = (0 <? pendingHole rc)
  /\ (0 < pendingHole rc ->
      data r = repeat x00 (List.length (data r)) /\ rerr r = None
      /\ pendingHole rc' = pendingHole rc - nread r
      /\ mustSplit r = (pendingHole rc' =? 0)).
Proof.
  intros Hb; destruct (Read blen rc) as [r rc'] eqn:HR.
  destruct (Read_acct blen rc r rc' Hb HR) as (H1 & H2 & H3 & _).
  split; [exact H1 | split; [exact H2 | exact H3]].
Qed.

End ReadAccounting.

Lemma Read_result_bounds_witness :
  0 <= 3 /\
  let '(r, rc') := @Read Concrete.bupRollSumImpl 3
                     (newReader (mkSource [x61; x62; x63; x64] ErrUnexpectedEOF)) in
  match rerr r with
  | None => 0 <= nread r <= 3 /\ nread r = Z.of_nat (List.length (data r))
  | Some EOF => nread r = 0 /\ data r = [] /\ mustSplit r = false
  | Some _ => nread r = -1 /\ mustSplit r = false
  end.
Proof.
  split; [lia |].
  exact (@Read_result_bounds Concrete.bupRollSumImpl 3
           (newReader (mkSource [x61; x62; x63; x64] ErrUnexpectedEOF)) ltac:(lia)).
Defined.

Lemma Read_WrittenOut_counts_witness :
  0 <= 2 /\
  let rc := mkRC (mkHF (mkSource [x61] EOF) 0 holesThreshold holesFinderStateRead)
                 false (@NewRollSum Concrete.bupRollSumImpl) 5 7 false in
  let '(r, rc') := Read 2 rc in
  WrittenOut rc' = WrittenOut rc + Z.of_nat (List.length (data r))
  /\ IsLastChunkZeros rc' = (0 <? pendingHole rc)
  /\ (0 < pendingHole rc ->
      data r = repeat x00 (List.length (data r)) /\ rerr r = None
      /\ pendingHole rc' = pendingHole rc - nread r
      /\ mustSplit r = (pendingHole rc' =? 0)).
Proof.
  split; [lia |].
  exact (@Read_WrittenOut_counts Concrete.bupRollSumImpl 2
           (mkRC (mkHF (mkSource [x61] EOF) 0 holesThreshold holesFinderStateRead)
                 false (@NewRollSum Concrete.bupRollSumImpl) 5 7 false) ltac:(lia)).
Defined.

(** ** zstdChunkedWriter after the goroutine has sent its result *)

Module AsyncWriterLateProofs.
Import AsyncWriter AsyncWriterLate.

Lemma sent_step (res : option goerr) (s : AW) (l : label) (s' : AW) :
  sent res s -> step res s l s' -> sent res s' /\ wrote_nothing res l.
Proof.
  destruct s as [buf cc wc rcl b]; unfold sent; cbn [bg ch_buf w_closed].
  intros [Hbg Hbuf] Hs.
  inversion Hs as [s0 s1 Hn | s0 p n e s1 Hw | s0 e s1 Hc]; subst; clear Hs.
  - unfold bg_next in Hn; cbn [bg ch_buf ch_closed w_closed r_closed] in Hn.
    destruct Hbg as [-> | [-> | [-> | ->]]]; try discriminate.
    + destruct wc; [| discriminate]; injection Hn; intros <-; cbn; tauto.
    + injection Hn; intros <-; cbn; tauto.
    + injection Hn; intros <-; cbn; tauto.
  - unfold write_op, recv, pipe_write, close_w in Hw;
      cbn [bg ch_buf ch_closed w_closed r_closed] in Hw.
    destruct Hbuf as [-> | [-> ->]].
    + injection Hw; intros <- <- <-; cbn; tauto.
    + destruct cc.
      * injection Hw; intros <- <- <-; cbn; tauto.
      * cbn in Hw; injection Hw; intros <- <- <-; cbn; tauto.
  - unfold close_op, recv, close_w in Hc; cbn [bg ch_buf ch_closed w_closed r_closed] in Hc.
    destruct Hbuf as [-> | [-> ->]].
    + destruct res; injection Hc; intros <- _; cbn; tauto.
    + destruct cc; [| discriminate]; injection Hc; intros <- _; cbn; tauto.
Qed.

Lemma sent_run (res : option goerr) (s : AW) (tr : list label) (s' : AW) :
  run res s tr s' -> sent res s -> Forall (wrote_nothing res) tr.
Proof.
  induction 1 as [s | s l s1 tr s2 Hs Hr IH]; intros Hsent; [constructor |].
  destruct (sent_step res s l s1 Hsent Hs) as [H1 H2].
  constructor; [exact H2 | exact (IH H1)].
Qed.

Lemma reach_step (res : option goerr) (s : AW) (l : label) (s' : AW) :
  reach res s -> step res s l s' -> reach res s'.
Proof.
  intros [Hpre | Hsent] Hs; [| right; exact (proj1 (sent_step res s l s' Hsent Hs))].
  destruct s as [buf cc wc rcl b]; cbn [bg ch_buf ch_closed w_closed r_closed] in Hpre.
  destruct Hpre as (Hbg & -> & -> & -> & ->).
  inversion Hs as [s0 s1 Hn | s0 p n e s1 Hw | s0 e s1 Hc]; subst; clear Hs.
  - unfold bg_next in Hn; cbn [bg ch_buf ch_closed w_closed r_closed] in Hn.
    destruct Hbg as [-> | ->]; injection Hn; intros <-.
    + left; cbn; tauto.
    + right; unfold sent; cbn; tauto.
  - unfold write_op, recv, pipe_write in Hw; cbn [bg ch_buf ch_closed w_closed r_closed orb] in Hw.
    destruct Hbg as [-> | ->]; [| discriminate].
    injection Hw; intros <- _ _; left; cbn; tauto.
  - unfold close_op, recv in Hc; cbn in Hc; discriminate.
Qed.

Lemma reach_run (res : option goerr) (s : AW) (tr : list label) (s' : AW) :
  run res s tr s' -> reach res s -> reach res s'.
Proof.
  induction 1 as [s | s l s1 tr s2 Hs Hr IH]; intros H; [exact H |].
  exact (IH (reach_step res s l s1 H Hs)).
Qed.

(** X7: once the goroutine has put the result [res] of
    [writeZstdChunkedStream] into the channel, no [Write] passes a byte
    to the pipe any more: every later [Write] returns [n = 0] with
    [res], nil, or [io.ErrClosedPipe].  After a successful run
    ([res = nil]) a [Write] of a non-empty slice thus returns [0, nil]
    or [io.ErrClosedPipe]. *)
Theorem write_after_send_writes_nothing (res : option goerr) (tr1 tr2 : list label)
        (s1 s2 : AW) :
  run res init tr1 s1 -> run res s1 tr2 s2 ->
  bg s1 <> BgRunning -> (forall r, bg s1 <> BgSend r) ->
  Forall (wrote_nothing res) tr2.
Proof.
  intros H1 H2 Hr Hs.
  destruct (reach_run res init tr1 s1 H1 ltac:(left; cbn; tauto)) as [Hpre | Hsent].
  - destruct Hpre as ([Hb | Hb] & _); [exact (False_ind _ (Hr Hb)) | exact (False_ind _ (Hs _ Hb))].
  - exact (sent_run res s1 tr2 s2 H2 Hsent).
Qed.

Lemma write_after_send_writes_nothing_witness :
  run None init [Tau; Tau] (mkAW (Some None) false false false BgDrain)
  /\ run None (mkAW (Some None) false false false BgDrain)
         [LWrite [x61] 0 None; LWrite [x62] 0 (Some ErrClosedPipe)]
         (mkAW None false true false BgDrain)
  /\ bg (mkAW (Some None) false false false BgDrain) <> BgRunning
  /\ (forall r, bg (mkAW (Some None) false false false BgDrain) <> BgSend r)
  /\ Forall (wrote_nothing None)
       [LWrite [x61] 0 None; LWrite [x62] 0 (Some ErrClosedPipe)].
Proof.
  assert (H1 : run None init [Tau; Tau] (mkAW (Some None) false false false BgDrain)).
  { apply (run_cons _ _ _ (mkAW None false false false (BgSend None)));
      [apply step_bg; reflexivity |].
    apply (run_cons _ _ _ (mkAW (Some None) false false false BgDrain));
      [apply step_bg; reflexivity | apply run_nil]. }
  assert (H2 : run None (mkAW (Some None) false false false BgDrain)
                 [LWrite [x61] 0 None; LWrite [x62] 0 (Some ErrClosedPipe)]
                 (mkAW None false true false BgDrain)).
  { apply (run_cons _ _ _ (mkAW None false true false BgDrain));
      [apply step_write; reflexivity |].
    apply (run_cons _ _ _ (mkAW None false true false BgDrain));
      [apply step_write; reflexivity | apply run_nil]. }
  assert (H3 : bg (mkAW (Some None) false false false BgDrain) <> BgRunning)
    by discriminate.
  assert (H4 : forall r, bg (mkAW (Some None) false false false BgDrain) <> BgSend r)
    by (intros r; discriminate).
  split; [exact H1 | split; [exact H2 | split; [exact H3 | split; [exact H4 |]]]].
  exact (write_after_send_writes_nothing None _ _ _ _ H1 H2 H3 H4).
Defined.

End AsyncWriterLateProofs.


(** ** Runs on an output that may fail *)

Lemma ends_in_bind {A B} (P : A -> World -> Prop) (Q : B -> World -> Prop)
      (E : option goerr -> World -> Prop) (D : Prop) (m : M A) (k : A -> M B)
      (w : World) :
  ends_in P E D (m w) -> (forall a w', P a w' -> ends_in Q E D (k a w')) ->
  ends_in Q E D (bind m k w).
Proof. unfold bind; destruct (m w) as [[a | e |] w']; cbn; auto. Qed.

Lemma ends_in_weaken {A} (P P' : A -> World -> Prop) (E E' : option goerr -> World -> Prop)
      (D D' : Prop) (r : outcome A * World) :
  (forall a w, P a w -> P' a w) -> (forall e w, E e w -> E' e w) -> (D -> D') ->
  ends_in P E D r -> ends_in P' E' D' r.
Proof. destruct r as [[a | e |] w]; cbn; auto. Qed.

Lemma output_error_never {OF : OutputFaults} (g : goerr) :
  output_never_fails -> output_error g -> False.
Proof.
  intros (Hw & Hc & Hf) [(w & p & H) | [(w & H) | (w & H)]];
    [rewrite Hw in H | rewrite Hc in H | rewrite Hf in H]; discriminate.
Qed.

Lemma out_fail_returns {OF : OutputFaults} (g : goerr)
      (m : option (Z * list internal.FileMetadata)) (l : bool) (e : option goerr)
      (w : World) :
  out_fail m l e w -> returns_or_out_fail g m l e w.
Proof. intros (Hg & Hm & Hl); split; [right; exact Hg | split; assumption]. Qed.

(** Split on the result of every output call in the goal. *)
Ltac fault_cases :=
  repeat (first
    [ match goal with |- context [@WriteFault _ ?w ?p] => destruct (WriteFault w p) eqn:? end
    | match goal with |- context [@CloseFault _ ?w] => destruct (CloseFault w) eqn:? end
    | match goal with |- context [@FlushFault _ ?w] => destruct (FlushFault w) eqn:? end ];
    cbn [ends_in dest frame zw_live manifest]).

(** Close a goal about a failed output call. *)
Ltac out_fault :=
  unfold out_fail; split;
  [eexists; split; [reflexivity | unfold output_error; eauto 7] | cbn; auto].

Section OutputSteps.
Context {RS : RollSumImpl} {IO : InternalOps} {OF : OutputFaults}.

Lemma zwrite_ends (p : list byte) (w : World) (D : Prop) :
  ends_in (fun _ w' => w' = mkWorld (dest w) (frame w ++ p) (zw_live w) (manifest w))
          (out_fail (manifest w) (zw_live w)) D (zwrite p w).
Proof. unfold zwrite; fault_cases; [out_fault | reflexivity]. Qed.

Lemma restart_ends (w : World) (D : Prop) :
  ends_in (fun _ w' => manifest w' = manifest w /\ zw_live w' = zw_live w)
          (out_fail (manifest w) (zw_live w)) D (restartCompression w).
Proof.
  unfold restartCompression, bind, zclose, zflush, get_count.
  destruct (zw_live w) eqn:Hl; [| cbn; auto].
  fault_cases; try solve [out_fault]; auto.
Qed.

Lemma zwrite_ok (p : list byte) (w : World) :
  output_never_fails ->
  zwrite p w = (Normal tt, mkWorld (dest w) (frame w ++ p) (zw_live w) (manifest w)).
Proof. intros (Hw & _ & _); unfold zwrite; rewrite Hw; reflexivity. Qed.

Lemma zclose_ok (w : World) :
  output_never_fails ->
  zclose w = (Normal tt, mkWorld (dest w ++ compress (frame w)) [] (zw_live w) (manifest w)).
Proof. intros (_ & Hc & _); unfold zclose; rewrite Hc; reflexivity. Qed.

Lemma zflush_ok (w : World) : output_never_fails -> zflush w = (Normal tt, w).
Proof. intros (_ & _ & Hf); unfold zflush; rewrite Hf; reflexivity. Qed.

(** The deferred [Close] and [Flush] never call the manifest writer;
    on an output that does not fail they leave no frame open. *)
Lemma deferred_manifest (w : World) : manifest (snd ((zclose ;;; zflush) w)) = manifest w.
Proof.
  unfold bind, zclose, zflush.
  destruct (CloseFault w); [reflexivity |]; cbn.
  destruct (FlushFault _); reflexivity.
Qed.

Lemma deferred_frame (w : World) :
  output_never_fails -> frame (snd ((zclose ;;; zflush) w)) = [].
Proof.
  intros Hnf; rewrite (bind_normal _ _ _ _ _ (zclose_ok w Hnf)), (zflush_ok _ Hnf).
  reflexivity.
Qed.

Lemma write_payload_ends (r : ReadResult) (st : PL) (w : World) (D : Prop) :
  ends_in (fun st1 w1 => rcReader st1 = rcReader st /\ manifest w1 = manifest w
                         /\ zw_live w1 = zw_live w)
          (out_fail (manifest w) (zw_live w)) D (pl_write_payload r st w).
Proof.
  unfold pl_write_payload.
  destruct (0 <? nread r); [| cbn; auto].
  apply ends_in_bind with (P := fun st1 w1 => rcReader st1 = rcReader st
                                  /\ manifest w1 = manifest w /\ zw_live w1 = zw_live w).
  - destruct (startOffset st =? 0); [| cbn; auto].
    apply ends_in_bind with (P := fun _ w1 => manifest w1 = manifest w
                                              /\ zw_live w1 = zw_live w);
      [apply restart_ends |].
    intros so w1 [H1 H2]; cbn; auto.
  - intros st1 w1 (H1 & H2 & H3).
    apply ends_in_bind with (P := fun _ w2 => manifest w2 = manifest w
                                              /\ zw_live w2 = zw_live w).
    + rewrite <- H2, <- H3.
      eapply ends_in_weaken; [| intros e w' He; exact He | intros H; exact H |
                              apply zwrite_ends].
      intros _ w2 ->; cbn; auto.
    + intros _ w2 [H4 H5]; cbn; auto.
Qed.

Lemma cut_chunk_ends (r : ReadResult) (rc : rollingChecksumReader) (st : PL)
      (w : World) (D : Prop) :
  ends_in (fun st1 w1 => rcReader st1 = rcReader st /\ manifest w1 = manifest w
                         /\ zw_live w1 = zw_live w)
          (out_fail (manifest w) (zw_live w)) D (pl_cut_chunk r rc st w).
Proof.
  unfold pl_cut_chunk.
  destruct ((mustSplit r || is_EOF (rerr r)) && (0 <? startOffset st)); [| cbn; auto].
  apply ends_in_bind with (P := fun _ w1 => manifest w1 = manifest w
                                            /\ zw_live w1 = zw_live w);
    [apply restart_ends |].
  intros off w1 [H1 H2]; cbn; auto.
Qed.

Lemma pl_after_read_ends (r : ReadResult) (rc : rollingChecksumReader) (st : PL)
      (w : World) (D : Prop) :
  ends_in (fun st1 w1 => rcReader st1 = rcReader st /\ manifest w1 = manifest w
                         /\ zw_live w1 = zw_live w)
          (out_fail (manifest w) (zw_live w)) D (pl_after_read r rc st w).
Proof.
  unfold pl_after_read.
  apply ends_in_bind with (P := fun st1 w1 => rcReader st1 = rcReader st
                                  /\ manifest w1 = manifest w /\ zw_live w1 = zw_live w);
    [apply write_payload_ends |].
  intros st1 w1 (H1 & H2 & H3).
  rewrite <- H1, <- H2, <- H3; apply cut_chunk_ends.
Qed.




End OutputSteps.



(** ** The whole stream *)

Section Stream.
Context {RS : RollSumImpl} {IO : InternalOps} {OF : OutputFaults}.

Lemma pl_body_ends (st : PL) (w : World) (D : Prop) :
  rc_inv (rcReader st) ->
  ends_in (fun bst w' => rc_inv (rcReader (snd bst)) /\ manifest w' = manifest w
             /\ zw_live w' = zw_live w
             /\ (fst bst = false ->
                 (rc_measure (rcReader (snd bst)) < rc_measure (rcReader st))%nat))
          (out_fail (manifest w) (zw_live w)) D (pl_body st w).
Proof.
  intros Hinv.
  pose proof (Read_spec buflen (rcReader st) ltac:(unfold buflen; lia) Hinv) as HR.
  unfold pl_body.
  destruct (Read buflen (rcReader st)) as [r rc'] eqn:HRd.
  destruct HR as (Hinv' & _ & HR).
  cbv beta iota.
  destruct (rerr r) as [e |] eqn:He; [destruct e; try contradiction |].
  - cbn [negb goerr_eqb]; rewrite bind_ret.
    apply ends_in_bind with (P := fun st1 w1 => rcReader st1 = rc'
                               /\ manifest w1 = manifest w /\ zw_live w1 = zw_live w);
      [apply pl_after_read_ends |].
    intros st1 w1 (Hr1 & Hm1 & Hv1); cbn [is_EOF ret ends_in fst snd rcReader].
    split; [rewrite Hr1; exact Hinv' | split; [exact Hm1 | split; [exact Hv1 |]]].
    discriminate.
  - rewrite bind_ret.
    apply ends_in_bind with (P := fun st1 w1 => rcReader st1 = rc'
                               /\ manifest w1 = manifest w /\ zw_live w1 = zw_live w);
      [apply pl_after_read_ends |].
    intros st1 w1 (Hr1 & Hm1 & Hv1); cbn [is_EOF ret ends_in fst snd].
    split; [rewrite Hr1; exact Hinv' | split; [exact Hm1 | split; [exact Hv1 |]]].
    intros _; rewrite Hr1; exact (proj1 (proj2 (proj2 (proj2 HR)))).
Qed.

Lemma pl_loop_ends (fuel : nat) (st : PL) (w : World) :
  rc_inv (rcReader st) -> (rc_measure (rcReader st) < fuel)%nat ->
  ends_in (fun _ w' => manifest w' = manifest w /\ zw_live w' = zw_live w)
          (out_fail (manifest w) (zw_live w)) False (pl_loop fuel st w).
Proof.
  revert st w; induction fuel as [| fuel IH]; intros st w Hinv Hm; [lia |].
  cbn [pl_loop].
  apply ends_in_bind with (P := fun bst w' => rc_inv (rcReader (snd bst))
             /\ manifest w' = manifest w /\ zw_live w' = zw_live w
             /\ (fst bst = false ->
                 (rc_measure (rcReader (snd bst)) < rc_measure (rcReader st))%nat));
    [apply pl_body_ends; exact Hinv |].
  intros [b st1] w1 (Hinv1 & Hm1 & Hv1 & Hdec); cbn [fst snd] in *.
  destruct b; [cbn; auto |].
  cbv beta iota; rewrite <- Hm1, <- Hv1.
  apply IH; [exact Hinv1 | specialize (Hdec eq_refl); lia].
Qed.

Lemma build_entries_nonempty (h : Header) (typ : string)
      (xattrs : list (string * string)) (st : PL) :
  build_entries h typ xattrs st <> [].
Proof.
  unfold build_entries.
  destruct (1 <? Z.of_nat (List.length (chunks st))); [| discriminate].
  destruct (chunks st); cbn; discriminate.
Qed.

(** The entry's payload loop, after its header bytes were written. *)
Lemma entry_loop_ends (e : TarEntry) (w : World) :
  src_end (payload e) = EOF ->
  ends_in (fun _ w' => manifest w' = manifest w /\ zw_live w' = zw_live w)
          (out_fail (manifest w) (zw_live w)) False
          (pl_loop (pl_fuel (payload e)) (initPL (payload e))
                   (mkWorld (dest w) (frame w ++ rawBytes e) (zw_live w) (manifest w))).
Proof.
  intros Hp.
  apply (pl_loop_ends _ _ (mkWorld (dest w) (frame w ++ rawBytes e) (zw_live w) (manifest w))).
  - unfold initPL; cbn [rcReader]; apply newReader_inv; exact Hp.
  - unfold initPL; cbn [rcReader]; rewrite newReader_measure; unfold pl_fuel; lia.
Qed.

Lemma process_entry_ends (e : TarEntry) (md : list internal.FileMetadata) (w : World) :
  src_end (payload e) = EOF -> snd (GetType (Typeflag (hdr e))) = None ->
  ends_in (fun md' w' => (exists es, md' = md ++ es /\ es <> [])
                         /\ manifest w' = manifest w /\ zw_live w' = zw_live w)
          (out_fail (manifest w) (zw_live w)) False (process_entry e md w).
Proof.
  intros Hp Ht.
  unfold process_entry.
  apply ends_in_bind with (P := fun _ w1 => w1 = mkWorld (dest w) (frame w ++ rawBytes e)
                                                    (zw_live w) (manifest w));
    [apply zwrite_ends |].
  intros _ w0 ->.
  apply ends_in_bind with (P := fun _ w' => manifest w' = manifest w /\ zw_live w' = zw_live w);
    [exact (entry_loop_ends e w Hp) |].
  intros st w1 (Hm & Hv); cbv beta.
  destruct (GetType (Typeflag (hdr e))) as [typ g]; cbn in Ht; subst g.
  cbn [ends_in ret]; split; [| split; assumption].
  eexists; split; [reflexivity | apply build_entries_nonempty].
Qed.


Lemma entries_loop_ends (es : list TarEntry) (md : list internal.FileMetadata)
      (w : World) :
  Forall (fun e => src_end (payload e) = EOF /\ snd (GetType (Typeflag (hdr e))) = None) es ->
  ends_in (fun md' w' => (exists ext, md' = md ++ ext
                                      /\ (List.length es <= List.length ext)%nat)
                         /\ manifest w' = manifest w /\ zw_live w' = zw_live w)
          (out_fail (manifest w) (zw_live w)) False (entries_loop es md w).
Proof.
  revert md w; induction es as [| e es IH]; intros md w Hes.
  - cbn; split; [exists []; rewrite app_nil_r; split; [reflexivity | lia] | auto].
  - apply Forall_cons_iff in Hes; destruct Hes as [[Hp Ht] Hes].
    cbn [entries_loop].
    apply ends_in_bind with (P := fun md' w' => (exists es, md' = md ++ es /\ es <> [])
                                 /\ manifest w' = manifest w /\ zw_live w' = zw_live w);
      [exact (process_entry_ends e md w Hp Ht) |].
    intros md1 w1 ((x & -> & Hx) & Hm1 & Hv1).
    rewrite <- Hm1, <- Hv1.
    eapply ends_in_weaken; [| intros e' w' H; exact H | intros H; exact H |
                            exact (IH (md ++ x) w1 Hes)].
    intros md' w' ((ext & -> & Hl) & Hm2 & Hv2).
    split; [| split; assumption].
    exists (x ++ ext); rewrite app_assoc; split; [reflexivity |].
    rewrite length_app; destruct x; [congruence | cbn [List.length] in *; lia].
Qed.


(** The function body when [tr.Next()] fails after well-formed entries. *)
Lemma zstd_body_next_error (ar : Archive) (level : Z) :
  next_end ar <> EOF ->
  Forall (fun e => src_end (payload e) = EOF /\ snd (GetType (Typeflag (hdr e))) = None)
         (entries ar) ->
  ends_in (fun _ _ => False) (returns_or_out_fail (next_end ar) None true) False
          (zstd_body ar level (mkWorld [] [] true None)).
Proof.
  intros Hn Hes; unfold zstd_body.
  apply ends_in_bind with (P := fun md' w' => (exists ext, md' = [] ++ ext
                                 /\ (List.length (entries ar) <= List.length ext)%nat)
                                 /\ manifest w' = None /\ zw_live w' = true).
  - eapply ends_in_weaken; [intros a w' H; exact H | apply out_fail_returns |
                            intros H; exact H |
                            exact (entries_loop_ends (entries ar) [] _ Hes)].
  - intros md w1 (_ & Hm & Hv).
    rewrite (goerr_eqb_EOF_false _ Hn); cbn.
    split; [left; reflexivity | split; assumption].
Qed.


(** What [writeZstdChunkedStream] returns when its body returns [g] or
    an error of the output with the encoder live and no manifest. *)
Lemma writeZstdChunkedStream_returns (ar : Archive) (level : Z) (g : goerr) :
  ZstdWriterWithLevel level = None ->
  ends_in (fun _ _ => False) (returns_or_out_fail g None true) False
          (zstd_body ar level (mkWorld [] [] true None)) ->
  exists g' w, writeZstdChunkedStream ar level = (Return (Some g'), w)
    /\ manifest w = None /\ (g' = g \/ output_error g')
    /\ (output_never_fails -> g' = g /\ frame w = []).
Proof.
  intros Hz Hb.
  unfold writeZstdChunkedStream; rewrite Hz.
  destruct (zstd_body ar level (mkWorld [] [] true None)) as [[a | r |] w1];
    cbn [ends_in] in Hb; try contradiction.
  destruct Hb as (Hr & Hm & Hv); rewrite Hv.
  destruct Hr as [-> | (g' & -> & Hg')].
  - exists g, (snd ((zclose ;;; zflush) w1)); split; [reflexivity |].
    split; [rewrite deferred_manifest; exact Hm |].
    split; [left; reflexivity | intros Hnf; split; [reflexivity | exact (deferred_frame w1 Hnf)]].
  - exists g', (snd ((zclose ;;; zflush) w1)); split; [reflexivity |].
    split; [rewrite deferred_manifest; exact Hm |].
    split; [right; exact Hg' | intros Hnf; exfalso; exact (output_error_never g' Hnf Hg')].
Qed.

(** X8: on an output that never fails, and an archive whose entries
    all have a known type and payloads that end with [io.EOF], and that
    ends with [io.EOF] from [tr.Next()], once the encoder is created:
    the trailing raw bytes of the archive go into the last frame, which
    is closed; then the manifest writer is called exactly once, with the
    number of bytes written so far as the manifest offset and at least
    one record per entry; its bytes end the output, and its error is
    what [writeZstdChunkedStream] returns.  The encoder is not
    reopened. *)
Theorem writeZstdChunkedStream_manifest_at_end (ar : Archive) (level : Z) :
  output_never_fails ->
  ZstdWriterWithLevel level = None -> next_end ar = EOF ->
  Forall (fun e => src_end (payload e) = EOF /\ snd (GetType (Typeflag (hdr e))) = None)
         (entries ar) ->
  exists D F md,
    let pre := D ++ compress (F ++ trailer ar) in
    let '(bs, e) := WriteZstdChunkedManifest (Z.of_nat (List.length pre)) md level in
    writeZstdChunkedStream ar level
    = (Return e, mkWorld (pre ++ bs) [] false (Some (Z.of_nat (List.length pre), md)))
    /\ (List.length (entries ar) <= List.length md)%nat.
Proof.
  intros Hnf Hz Hn Hes.
  pose proof (entries_loop_ends (entries ar) [] (mkWorld [] [] true None) Hes) as Hl.
  destruct (entries_loop (entries ar) [] (mkWorld [] [] true None)) as [[md' | r |] w1]
    eqn:Hrun; cbn [ends_in] in Hl; try contradiction.
  2: { destruct Hl as ((g & _ & Hg) & _); exfalso; exact (output_error_never g Hnf Hg). }
  destruct Hl as ((md & -> & Hlen) & Hm & _).
  destruct w1 as [D F l m]; cbn in Hm; subst m.
  exists D, F, md; cbv zeta.
  unfold writeZstdChunkedStream; rewrite Hz.
  unfold zstd_body; rewrite (bind_normal _ _ _ _ _ Hrun); cbv beta.
  rewrite Hn; cbn [goerr_eqb]; rewrite bind_ret.
  rewrite (bind_normal _ _ _ _ _ (zwrite_ok _ _ Hnf)).
  rewrite (bind_normal _ _ _ _ _ (zflush_ok _ Hnf)).
  rewrite (bind_normal _ _ _ _ _ (zclose_ok _ Hnf)).
  unfold bind, set_live, call_manifest, Count; cbn [dest frame zw_live manifest].
  rewrite app_nil_l.
  destruct (WriteZstdChunkedManifest _ md level) as [bs e].
  split; [reflexivity | exact Hlen].
Qed.

(** X9: when [tr.Next()] fails with an error other than [io.EOF] after
    well-formed entries (a corrupt archive), on any output:
    [writeZstdChunkedStream] returns that error, or an error the output
    reported while the entries were written; the manifest writer is
    never called.  On an output that never fails it returns the error of
    [tr.Next()], and the deferred close leaves no frame open. *)
Theorem writeZstdChunkedStream_next_error (ar : Archive) (level : Z) :
  ZstdWriterWithLevel level = None -> next_end ar <> EOF ->
  Forall (fun e => src_end (payload e) = EOF /\ snd (GetType (Typeflag (hdr e))) = None)
         (entries ar) ->
  exists g w, writeZstdChunkedStream ar level = (Return (Some g), w)
    /\ manifest w = None /\ (g = next_end ar \/ output_error g)
    /\ (output_never_fails -> g = next_end ar /\ frame w = []).
Proof.
  intros Hz Hn Hes.
  exact (writeZstdChunkedStream_returns ar level (next_end ar) Hz
           (zstd_body_next_error ar level Hn Hes)).
Qed.


End Stream.

Lemma reliableOutput_never_fails : @output_never_fails reliableOutput.
Proof. split; [intros; reflexivity | split; intros; reflexivity]. Qed.

Lemma writeZstdChunkedStream_manifest_at_end_witness :
  @output_never_fails reliableOutput
  /\ @ZstdWriterWithLevel Concrete.storedOps 3 = None
  /\ next_end (mkArchive [mkEntry Concrete.hdrA Concrete.blk (mkSource [x61] EOF)]
                         EOF Concrete.blk) = EOF
  /\ Forall (fun e => src_end (payload e) = EOF
                      /\ snd (@GetType Concrete.storedOps (Typeflag (hdr e))) = None)
            (entries (mkArchive [mkEntry Concrete.hdrA Concrete.blk (mkSource [x61] EOF)]
                                EOF Concrete.blk))
  /\ exists D F md,
    let pre := D ++ @compress Concrete.storedOps
                      (F ++ trailer (mkArchive [mkEntry Concrete.hdrA Concrete.blk
                                                  (mkSource [x61] EOF)] EOF Concrete.blk)) in
    let '(bs, e) := @WriteZstdChunkedManifest Concrete.storedOps
                      (Z.of_nat (List.length pre)) md 3 in
    @writeZstdChunkedStream Concrete.bupRollSumImpl Concrete.storedOps reliableOutput
      (mkArchive [mkEntry Concrete.hdrA Concrete.blk (mkSource [x61] EOF)] EOF Concrete.blk) 3
    = (Return e, mkWorld (pre ++ bs) [] false (Some (Z.of_nat (List.length pre), md)))
    /\ (List.length (entries (mkArchive [mkEntry Concrete.hdrA Concrete.blk
                                          (mkSource [x61] EOF)] EOF Concrete.blk))
        <= List.length md)%nat.
Proof.
  assert (Hes : Forall (fun e => src_end (payload e) = EOF
                      /\ snd (@GetType Concrete.storedOps (Typeflag (hdr e))) = None)
            (entries (mkArchive [mkEntry Concrete.hdrA Concrete.blk (mkSource [x61] EOF)]
                                EOF Concrete.blk))).
  { constructor; [split; reflexivity | constructor]. }
  split; [exact reliableOutput_never_fails |].
  split; [reflexivity | split; [reflexivity | split; [exact Hes |]]].
  exact (@writeZstdChunkedStream_manifest_at_end Concrete.bupRollSumImpl Concrete.storedOps
           reliableOutput
           (mkArchive [mkEntry Concrete.hdrA Concrete.blk (mkSource [x61] EOF)]
                      EOF Concrete.blk) 3 reliableOutput_never_fails eq_refl eq_refl Hes).
Defined.

Lemma writeZstdChunkedStream_next_error_witness :
  @ZstdWriterWithLevel Concrete.storedOps 3 = None
  /\ next_end (mkArchive [mkEntry Concrete.hdrA Concrete.blk (mkSource [x61] EOF)]
                         ErrUnexpectedEOF []) <> EOF
  /\ exists g w, @writeZstdChunkedStream Concrete.bupRollSumImpl Concrete.storedOps
                   reliableOutput
      (mkArchive [mkEntry Concrete.hdrA Concrete.blk (mkSource [x61] EOF)]
                 ErrUnexpectedEOF []) 3 = (Return (Some g), w)
      /\ manifest w = None
      /\ (g = next_end (mkArchive [mkEntry Concrete.hdrA Concrete.blk (mkSource [x61] EOF)]
                                  ErrUnexpectedEOF [])
          \/ @output_error reliableOutput g)
      /\ (@output_never_fails reliableOutput ->
          g = next_end (mkArchive [mkEntry Concrete.hdrA Concrete.blk (mkSource [x61] EOF)]
                                  ErrUnexpectedEOF [])
          /\ frame w = []).
Proof.
  assert (Hn : next_end (mkArchive [mkEntry Concrete.hdrA Concrete.blk (mkSource [x61] EOF)]
                                   ErrUnexpectedEOF []) <> EOF).
  { discriminate. }
  assert (Hes : Forall (fun e => src_end (payload e) = EOF
                      /\ snd (@GetType Concrete.storedOps (Typeflag (hdr e))) = None)
            (entries (mkArchive [mkEntry Concrete.hdrA Concrete.blk (mkSource [x61] EOF)]
                                ErrUnexpectedEOF []))).
  { constructor; [split; reflexivity | constructor]. }
  split; [reflexivity | split; [exact Hn |]].
  exact (@writeZstdChunkedStream_next_error Concrete.bupRollSumImpl Concrete.storedOps
           reliableOutput
           (mkArchive [mkEntry Concrete.hdrA Concrete.blk (mkSource [x61] EOF)]
                      ErrUnexpectedEOF []) 3 eq_refl Hn Hes).
Defined.


(** ** The frames of an entry's chunks *)

Section FramesProofs.
Context {RS : RollSumImpl} {IO : InternalOps} {OF : OutputFaults}.

Lemma frames_of_app (b c : Z) (ss : list (list byte)) (s : list byte) :
  frames_of b c (ss ++ [s])
  = frames_of b c ss
    ++ (if 0 <? Z.of_nat (List.length s)
        then [(c + Z.of_nat (List.length (List.concat ss)),
               b + Z.of_nat (List.length (List.concat (map compress ss))), s)]
        else []).
Proof.
  revert b c; induction ss as [| s0 ss IH]; intros b c.
  - cbn; rewrite !Z.add_0_r, app_nil_r; reflexivity.
  - cbn [app frames_of List.concat map]; rewrite IH, app_assoc.
    rewrite !length_app, !Nat2Z.inj_add, !Z.add_assoc; reflexivity.
Qed.

Lemma write_payload_frames (w0 : World) (st : PL) (w : World) (r : ReadResult)
      (rc : rollingChecksumReader) (D : Prop) :
  encoder_ready w0 -> pl_frames w0 st w ->
  nread r = Z.of_nat (List.length (data r)) ->
  WrittenOut rc = WrittenOut (rcReader st) + Z.of_nat (List.length (data r)) ->
  ends_in (fun st1 w1 => pl_frames w0 st1 w1 /\ rcReader st1 = rc
                         /\ payloadDigester st1 = payloadDigester st ++ data r)
          (out_fail (manifest w0) true) D
    (pl_write_payload r (mkPL rc (startOffset st) (lastOffset st) (lastChunkOffset st)
                              (checksum st) (chunks st) (payloadDigester st)
                              (chunkDigester st) (err st)) w).
Proof.
  intros [Hlive0 Hne] [Hl [Hm Hc]] Hn Hw.
  unfold pl_write_payload; cbn [startOffset rcReader lastOffset lastChunkOffset checksum
                                chunks payloadDigester chunkDigester err].
  destruct (0 <? nread r) eqn:Hp.
  2: { assert (Hd : data r = []).
       { apply Z.ltb_ge in Hp; destruct (data r); [reflexivity | cbn in Hn; lia]. }
       rewrite Hd in Hw; cbn [List.length] in Hw; rewrite Z.add_0_r in Hw.
       unfold ret; cbn [ends_in]; split; [| split; [reflexivity |]].
       2: { cbn; rewrite Hd, app_nil_r; reflexivity. }
       split; [exact Hl | split; [exact Hm |]]; cbn.
       destruct Hc as [(H0 & Hw0 & Hch & Hpd & Hcd & Hlc & Hwo)
                      | (segs & Hs & Hd' & Hlo & Hf & Hpd & Hpn & Hlc & Hwo & Hfr)].
       - left; repeat split; congruence.
       - right; exists segs; repeat split; congruence. }
  assert (Hd0 : data r <> []).
  { apply Z.ltb_lt in Hp; destruct (data r); [cbn in Hn; lia | discriminate]. }
  destruct Hc as [(H0 & Hw0 & Hch & Hpd & Hcd & Hlc & Hwo)
                 | (segs & Hs & Hd & Hlo & Hf & Hpd & Hpn & Hlc & Hwo & Hfr)].
  - subst w; rewrite H0; cbn [Z.eqb].
    unfold restartCompression, bind, zclose, zflush, get_count, ret, zwrite; rewrite Hlive0.
    fault_cases; try solve [out_fault].
    split; [| split; reflexivity].
    split; [reflexivity | split; [reflexivity |]].
    right; exists []; cbn [List.concat map startOffset lastOffset lastChunkOffset chunks
                           payloadDigester chunkDigester rcReader dest frame frames_of].
    rewrite Hcd, Hpd, Hlc, Hw, Hwo, Hch; unfold Count; cbn [dest].
    repeat split; try reflexivity; try (rewrite app_nil_r; reflexivity).
    + exact Hd0.
    + constructor.
  - assert (Hs0 : (startOffset st =? 0) = false).
    { apply Z.eqb_neq; rewrite Hs; intros H.
      destruct (dest w0 ++ compress (frame w0)); [contradiction | cbn in H; lia]. }
    rewrite Hs0; unfold bind, ret, zwrite.
    fault_cases; try solve [out_fault].
    cbn [dest frame zw_live manifest startOffset rcReader lastOffset lastChunkOffset
         checksum chunks payloadDigester chunkDigester err].
    split; [| split; reflexivity].
    split; [exact Hl | split; [exact Hm |]].
    right; exists segs; cbn [startOffset rcReader lastOffset lastChunkOffset
                             checksum chunks payloadDigester chunkDigester err dest frame].
    unfold Count in *; cbn [dest] in *.
    repeat split; try assumption.
    + rewrite Hf; reflexivity.
    + rewrite Hpd, app_assoc; reflexivity.
    + intros Habs; apply app_eq_nil in Habs; exact (Hpn (proj1 Habs)).
    + rewrite Hw, Hwo, length_app, Nat2Z.inj_add; lia.
Qed.

Lemma cut_chunk_frames (w0 : World) (st : PL) (w : World) (r : ReadResult)
      (rc : rollingChecksumReader) (D : Prop) :
  encoder_ready w0 -> rcReader st = rc -> pl_frames w0 st w ->
  ends_in (fun st2 w2 => pl_frames w0 st2 w2 /\ rcReader st2 = rcReader st
             /\ startOffset st2 = startOffset st /\ payloadDigester st2 = payloadDigester st
             /\ (is_EOF (rerr r) = true -> startOffset st <> 0 -> chunkDigester st2 = []))
          (out_fail (manifest w0) true) D (pl_cut_chunk r rc st w).
Proof.
  intros [Hlive0 Hne] <- Hfr0; pose proof Hfr0 as [Hl [Hm Hc]].
  unfold pl_cut_chunk.
  destruct Hc as [(H0 & Hw0 & Hch & Hpd & Hcd & Hlc & Hwo)
                 | (segs & Hs & Hd & Hlo & Hf & Hpd & Hpn & Hlc & Hwo & Hfr)].
  - rewrite H0, andb_false_r; unfold ret; cbn [ends_in].
    split; [exact Hfr0 |]; repeat split; intros; congruence.
  - assert (Hs0 : (0 <? startOffset st) = true).
    { apply Z.ltb_lt; rewrite Hs.
      destruct (dest w0 ++ compress (frame w0)); [contradiction | cbn; lia]. }
    rewrite Hs0, andb_true_r.
    destruct (mustSplit r || is_EOF (rerr r)) eqn:Hcut.
    2: { unfold ret; cbn [ends_in].
         split; [exact Hfr0 | split; [reflexivity | split; [reflexivity | split; [reflexivity |]]]].
         intros HE; rewrite HE, orb_true_r in Hcut; discriminate. }
    unfold restartCompression, bind, zclose, zflush, get_count, ret; rewrite Hl.
    fault_cases; try solve [out_fault].
    cbn [dest frame zw_live manifest startOffset rcReader lastOffset lastChunkOffset
         checksum chunks payloadDigester chunkDigester err].
    replace (WrittenOut (rcReader st) - lastChunkOffset st)
      with (Z.of_nat (List.length (chunkDigester st))) by lia.
    split; [| split; [reflexivity | split; [reflexivity | split; [reflexivity | intros; reflexivity]]]].
    split; [reflexivity | split; [exact Hm |]].
    right; exists (segs ++ [chunkDigester st]).
    cbn [startOffset rcReader lastOffset lastChunkOffset checksum chunks payloadDigester
         chunkDigester err dest frame].
    rewrite map_app, !concat_app; cbn [map List.concat]; rewrite !app_nil_r.
    unfold Count; cbn [dest].
    repeat split.
    + exact Hs.
    + rewrite Hd, Hf, app_assoc; reflexivity.
    + exact Hpd.
    + exact Hpn.
    + rewrite Hwo, Hlc, length_app, Nat2Z.inj_add; reflexivity.
    + cbn [List.length]; lia.
    + rewrite frames_of_app.
      destruct (0 <? Z.of_nat (List.length (chunkDigester st))).
      * apply Forall2_app; [exact Hfr |].
        constructor; [| constructor].
        unfold chunk_frame; cbn [ChunkOffset Offset ChunkSize Checksum].
        rewrite Hlc, Hlo; unfold Count; rewrite Hd, length_app, Nat2Z.inj_add.
        repeat split; lia.
      * rewrite app_nil_r; exact Hfr.
Qed.

Lemma pl_frames_startOffset (w0 : World) (st : PL) (w : World) :
  pl_frames w0 st w -> 0 <= startOffset st.
Proof.
  intros (_ & _ & [(H0 & _) | (segs & Hs & _)]); [lia | rewrite Hs; lia].
Qed.

Lemma pl_body_frames (w0 : World) (st : PL) (w : World) (D : Prop) :
  encoder_ready w0 -> rc_inv (rcReader st) -> pl_frames w0 st w ->
  ends_in (fun bst w' => rc_inv (rcReader (snd bst)) /\ pl_frames w0 (snd bst) w'
    /\ payloadDigester (snd bst) ++ rc_content (rcReader (snd bst))
       = payloadDigester st ++ rc_content (rcReader st)
    /\ (fst bst = false ->
        (rc_measure (rcReader (snd bst)) < rc_measure (rcReader st))%nat)
    /\ (fst bst = true -> rc_content (rcReader (snd bst)) = []
        /\ (startOffset (snd bst) <> 0 ->
            chunkDigester (snd bst) = []
            /\ checksum (snd bst) = digestOf (payloadDigester (snd bst)))))
    (out_fail (manifest w0) true) D (pl_body st w).
Proof.
  intros Hready Hinv Hfr.
  pose proof (Read_spec buflen (rcReader st) ltac:(unfold buflen; lia) Hinv) as HR.
  unfold pl_body.
  destruct (Read buflen (rcReader st)) as [r rc'] eqn:HRd.
  destruct HR as (Hinv' & _ & HR).
  destruct (Read_acct buflen (rcReader st) r rc' ltac:(unfold buflen; lia) HRd)
    as (Hwo & _ & _ & Hrm).
  assert (Hn : nread r = Z.of_nat (List.length (data r))).
  { destruct (rerr r) as [[] |]; try contradiction;
      [destruct Hrm as (-> & -> & _); reflexivity | apply Hrm]. }
  set (st0 := mkPL rc' (startOffset st) (lastOffset st) (lastChunkOffset st)
                   (checksum st) (chunks st) (payloadDigester st)
                   (chunkDigester st) (err st)).
  assert (Hac : ends_in (fun st2 w2 => pl_frames w0 st2 w2 /\ rcReader st2 = rc'
                   /\ payloadDigester st2 = payloadDigester st ++ data r
                   /\ (is_EOF (rerr r) = true -> startOffset st2 <> 0 ->
                       chunkDigester st2 = []))
                (out_fail (manifest w0) true) D (pl_after_read r rc' st0 w)).
  { unfold pl_after_read.
    apply ends_in_bind with (P := fun st1 w1 => pl_frames w0 st1 w1 /\ rcReader st1 = rc'
                              /\ payloadDigester st1 = payloadDigester st ++ data r);
      [exact (write_payload_frames w0 st w r rc' D Hready Hfr Hn Hwo) |].
    intros st1 w1 (Hf1 & Hr1 & Hp1).
    eapply ends_in_weaken; [| intros e w' H; exact H | intros H; exact H |
                            exact (cut_chunk_frames w0 st1 w1 r rc' D Hready Hr1 Hf1)].
    intros st2 w2 (Hf2 & Hr2 & Hs2 & Hp2 & Heof).
    split; [exact Hf2 | split; [congruence | split; [congruence |]]].
    intros HE Hs; apply Heof; [exact HE | congruence]. }
  cbv beta iota.
  destruct (rerr r) as [e |] eqn:He; [destruct e; try contradiction |].
  - cbn [negb goerr_eqb]; rewrite bind_ret.
    eapply ends_in_bind; [exact Hac |].
    intros st2 w2 (Hf2 & Hr2 & Hp2 & Heof); cbn [is_EOF ret ends_in fst snd].
    cbn [rcReader startOffset chunkDigester checksum payloadDigester].
    destruct HR as (Hd & _ & _ & Hc & Hc' & _).
    split; [rewrite Hr2; exact Hinv' | split; [exact Hf2 |]].
    split; [rewrite Hr2, Hc', Hc, Hp2, Hd, !app_nil_r; reflexivity |].
    split; [discriminate |].
    intros _; split; [rewrite Hr2; exact Hc' |]; intros Hs.
    pose proof (pl_frames_startOffset _ _ _ Hf2) as Hpos.
    replace (0 <? startOffset st2) with true by (symmetry; apply Z.ltb_lt; lia).
    split; [| reflexivity].
    apply Heof; [reflexivity | exact Hs].
  - rewrite bind_ret.
    eapply ends_in_bind; [exact Hac |].
    intros st2 w2 (Hf2 & Hr2 & Hp2 & Heof); cbn [is_EOF ret ends_in fst snd].
    split; [rewrite Hr2; exact Hinv' | split; [exact Hf2 |]].
    split; [rewrite Hr2, Hp2, (proj1 HR), app_assoc; reflexivity |].
    split; [| discriminate].
    intros _; rewrite Hr2; exact (proj1 (proj2 (proj2 (proj2 HR)))).
Qed.

Lemma pl_loop_frames (w0 : World) (P : list byte) (fuel : nat) (st : PL) (w : World) :
  encoder_ready w0 -> rc_inv (rcReader st) -> (rc_measure (rcReader st) < fuel)%nat ->
  pl_frames w0 st w -> payloadDigester st ++ rc_content (rcReader st) = P ->
  ends_in (fun st' w' => pl_frames w0 st' w' /\ payloadDigester st' = P
             /\ (startOffset st' <> 0 ->
                 chunkDigester st' = [] /\ checksum st' = digestOf (payloadDigester st')))
          (out_fail (manifest w0) true) False (pl_loop fuel st w).
Proof.
  intros Hready; revert st w; induction fuel as [| fuel IH]; intros st w Hinv Hm Hfr HP;
    [lia |].
  cbn [pl_loop].
  eapply ends_in_bind; [exact (pl_body_frames w0 st w False Hready Hinv Hfr) |].
  intros [b st1] w1 (Hinv1 & Hf1 & Hp1 & Hdec & Hbrk); cbn [fst snd] in *.
  destruct b.
  - destruct (Hbrk eq_refl) as [Hc Hend].
    cbn; split; [exact Hf1 |].
    split; [rewrite <- HP, <- Hp1, Hc, app_nil_r; reflexivity | exact Hend].
  - cbv beta iota.
    exact (IH st1 w1 Hinv1 ltac:(specialize (Hdec eq_refl); lia) Hf1 ltac:(congruence)).
Qed.

Lemma skipn_length_app (l l' : list byte) : skipn (List.length l) (l ++ l') = l'.
Proof. rewrite skipn_app, skipn_all, Nat.sub_diag; reflexivity. Qed.

Lemma frames_chunk_in (segs : list (list byte)) (pre pay : list byte) (cs : list chunk) :
  Forall2 chunk_frame cs
          (frames_of (Z.of_nat (List.length pre)) (Z.of_nat (List.length pay)) segs) ->
  Forall (chunk_in (pay ++ List.concat segs) (pre ++ List.concat (map compress segs))) cs.
Proof.
  revert pre pay cs; induction segs as [| s ss IH]; intros pre pay cs H.
  - cbn in H; inversion H; constructor.
  - cbn [frames_of] in H; apply Forall2_app_inv_r in H.
    destruct H as (cs1 & cs2 & H1 & H2 & ->).
    apply Forall_app; split.
    + destruct (0 <? Z.of_nat (List.length s)); inversion H1 as [| c f cs1' f' Hc Hn]; subst;
        [| constructor].
      inversion Hn; subst; constructor; [| constructor].
      destruct Hc as (Hco & Ho & Hsz & Hck).
      exists s; split; [exact Hsz | split; [exact Hck |]].
      rewrite Hco, Ho, !Nat2Z.id; split; [lia | split; [lia |]].
      cbn [List.concat map].
      split; [exists (List.concat ss) | exists (List.concat (map compress ss))];
        apply skipn_length_app.
    + specialize (IH (pre ++ compress s) (pay ++ s) cs2).
      rewrite !length_app, !Nat2Z.inj_add, <- !app_assoc in IH.
      exact (IH H2).
Qed.

End FramesProofs.

(** X11: the payload loop of an entry whose source ends with [io.EOF],
    started on an open encoder whose output is non-empty once the frame
    is closed (the entry's header bytes were written), on any output:
    either the output reports an error, which the loop returns, or the
    loop breaks; then the bytes hashed into the file digest are the
    payload.  If the payload is empty, nothing was written and there is
    no chunk.  If it is not, the frame holding the header was closed
    first, at [startOffset]; when the loop ends the current frame is
    closed, [lastOffset] is the output's size, the digest is that of
    the payload, and every chunk record points at its bytes in the
    payload ([ChunkOffset], [ChunkSize], [Checksum]) and at a
    compressed frame of exactly those bytes in the output
    ([Offset]). *)
Theorem pl_loop_chunk_frames {RS : RollSumImpl} {IO : InternalOps} {OF : OutputFaults}
        (src : source) (w : World) :
  src_end src = EOF -> encoder_ready w ->
  (exists g w', pl_loop (pl_fuel src) (initPL src) w = (Return (Some g), w')
                /\ output_error g)
  \/ (exists st w', pl_loop (pl_fuel src) (initPL src) w = (Normal st, w')
      /\ zw_live w' = true /\ manifest w' = manifest w
      /\ payloadDigester st = rest src
      /\ (rest src = [] -> startOffset st = 0 /\ w' = w /\ chunks st = [])
      /\ (rest src <> [] ->
          exists tail, dest w' = dest w ++ compress (frame w) ++ tail
            /\ startOffset st = Z.of_nat (List.length (dest w ++ compress (frame w)))
            /\ frame w' = [] /\ lastOffset st = Count w'
            /\ checksum st = digestOf (rest src)
            /\ Forall (chunk_in (rest src) (dest w')) (chunks st))).
Proof.
  intros He Hready.
  assert (Hfr0 : pl_frames w (initPL src) w).
  { split; [exact (proj1 Hready) | split; [reflexivity |]].
    left; unfold initPL, newReader; cbn; repeat split. }
  pose proof (pl_loop_frames w (rest src) (pl_fuel src) (initPL src) w Hready
              ltac:(unfold initPL; cbn [rcReader]; apply newReader_inv; exact He)
              ltac:(unfold initPL; cbn [rcReader]; rewrite newReader_measure;
                    unfold pl_fuel; lia)
              Hfr0
              ltac:(unfold initPL; cbn [rcReader payloadDigester];
                    apply newReader_content)) as Hl.
  destruct (pl_loop (pl_fuel src) (initPL src) w) as [[st | r |] w'];
    cbn [ends_in] in Hl; try contradiction.
  2: { left; destruct Hl as ((g & -> & Hg) & _); exists g, w'; split; [reflexivity | exact Hg]. }
  right.
  destruct Hl as ((Hlive & Hm & Hc) & Hp & Hend).
  exists st, w'; split; [reflexivity |].
  split; [exact Hlive | split; [exact Hm | split; [exact Hp |]]].
  destruct Hc as [(H0 & Hw & Hch & Hpd0 & _) | (segs & Hs & Hd & Hlo & Hf & Hpd & Hpn & _ & _ & Hfr)].
  - split; [intros _; split; [exact H0 | split; [exact Hw | exact Hch]] |].
    intros Hne; exfalso; apply Hne; rewrite <- Hp; exact Hpd0.
  - split; [intros H0; exfalso; apply Hpn; rewrite Hp; exact H0 |].
    intros _.
    assert (Hs0 : startOffset st <> 0).
    { rewrite Hs; intros H.
      destruct (dest w ++ compress (frame w)) eqn:E; [exact (proj2 Hready E) | cbn in H; lia]. }
    destruct (Hend Hs0) as [Hcd Hck].
    rewrite Hcd, app_nil_r in Hpd.
    exists (List.concat (map compress segs)).
    split; [rewrite Hd, app_assoc; reflexivity |].
    split; [exact Hs | split; [rewrite Hf; exact Hcd | split; [exact Hlo |]]].
    split; [rewrite Hck, Hp; reflexivity |].
    rewrite <- Hp, Hpd, Hd.
    exact (frames_chunk_in segs _ [] (chunks st) Hfr).
Qed.

Lemma pl_loop_chunk_frames_witness :
  src_end (mkSource [x61; x62; x00; x63] EOF) = EOF
  /\ @encoder_ready Concrete.storedOps (mkWorld [] Concrete.blk true None)
  /\ ((exists g w', @pl_loop Concrete.bupRollSumImpl Concrete.storedOps reliableOutput
                      (pl_fuel (mkSource [x61; x62; x00; x63] EOF))
                      (initPL (mkSource [x61; x62; x00; x63] EOF))
                      (mkWorld [] Concrete.blk true None) = (Return (Some g), w')
                    /\ @output_error reliableOutput g)
      \/ (exists st w', @pl_loop Concrete.bupRollSumImpl Concrete.storedOps reliableOutput
                          (pl_fuel (mkSource [x61; x62; x00; x63] EOF))
                          (initPL (mkSource [x61; x62; x00; x63] EOF))
                          (mkWorld [] Concrete.blk true None) = (Normal st, w')
          /\ zw_live w' = true /\ manifest w' = manifest (mkWorld [] Concrete.blk true None)
          /\ payloadDigester st = rest (mkSource [x61; x62; x00; x63] EOF)
          /\ (rest (mkSource [x61; x62; x00; x63] EOF) = [] ->
              startOffset st = 0 /\ w' = mkWorld [] Concrete.blk true None /\ chunks st = [])
          /\ (rest (mkSource [x61; x62; x00; x63] EOF) <> [] ->
              exists tail,
                dest w' = dest (mkWorld [] Concrete.blk true None)
                          ++ @compress Concrete.storedOps
                               (frame (mkWorld [] Concrete.blk true None)) ++ tail
              /\ startOffset st
                 = Z.of_nat (List.length (dest (mkWorld [] Concrete.blk true None)
                      ++ @compress Concrete.storedOps (frame (mkWorld [] Concrete.blk true None))))
              /\ frame w' = [] /\ lastOffset st = Count w'
              /\ checksum st = @digestOf Concrete.storedOps (rest (mkSource [x61; x62; x00; x63] EOF))
              /\ Forall (@chunk_in Concrete.storedOps (rest (mkSource [x61; x62; x00; x63] EOF))
                                   (dest w')) (chunks st)))).
Proof.
  assert (Hne : @encoder_ready Concrete.storedOps (mkWorld [] Concrete.blk true None)).
  { split; [reflexivity | discriminate]. }
  split; [reflexivity | split; [exact Hne |]].
  exact (@pl_loop_chunk_frames Concrete.bupRollSumImpl Concrete.storedOps reliableOutput
           (mkSource [x61; x62; x00; x63] EOF) (mkWorld [] Concrete.blk true None)
           eq_refl Hne).
Defined.
